(** * Simplicial decomposition of voxel grids (nipy.algorithms.statistics.utils)

    A shallow embedding of [complex], [cube_with_strides_center],
    [join_complexes], [decompose3d], [decompose2d], [test_EC3] and
    [test_EC2], and the properties of the decomposition: counts, the
    Euler characteristic, uniqueness and well-formedness of the yielded
    simplices.

    Python values are modelled as follows.
    - An [int] is a [Z].
    - A [set] is a [gset]; iterating over a set visits [elements] of it.
      The order of iteration over a Python set is unspecified, so every
      statement about a stream of simplices is stated up to the order
      of the stream (lengths, [NoDup], [Forall], [Permutation]).
    - A [dict] with integer keys is a [gmap Z].
    - A face stored in a complex is a bare vertex index (dimension 1) or
      a tuple of vertex indices (all other dimensions).
    - A raised exception is the [Raise] result; a generator is modelled
      by the list it yields when it is consumed to the end. *)

From stdpp Require Import sorting base numbers list sets gmap.

(* stdpp's set_solver clears hypotheses that are already gone *)
#[local] Set Warnings "-clear-no-such-hyp".

Open Scope Z_scope.

(** ** Exceptions *)

Inductive exn := ValueError | KeyError | IndexError | TypeError.

Inductive result (A : Type) :=
  | Ok (a : A)
  | Raise (e : exn).
Arguments Ok {A} a.
Arguments Raise {A} e.

#[global] Instance result_ret : MRet result := λ A a, Ok a.
#[global] Instance result_bind : MBind result := λ A B f m,
  match m with Ok a => f a | Raise e => Raise e end.
#[global] Instance result_fmap : FMap result := λ A B f m,
  match m with Ok a => Ok (f a) | Raise e => Raise e end.

(** A [for] loop that threads a state and may raise. *)
Fixpoint foldM {A S : Type} (f : S → A → result S) (s : S) (l : list A)
  : result S :=
  match l with
  | [] => Ok s
  | x :: l' => s' ← f s x; foldM f s' l'
  end.

(** A comprehension whose body may raise. *)
Fixpoint forM {A B : Type} (f : A → result B) (l : list A) : result (list B) :=
  match l with
  | [] => Ok []
  | x :: l' => y ← f x; ys ← forM f l'; Ok (y :: ys)
  end.

(** ** Faces and complexes *)

Inductive face :=
  | Vertex (v : Z)
  | Simplex (vs : list Z).

#[global] Instance face_eq_dec : EqDecision face.
Proof. solve_decision. Defined.

#[global] Instance face_countable : Countable face :=
  inj_countable'
    (λ f, match f with Vertex v => inl v | Simplex vs => inr vs end)
    (λ s, match s with inl v => Vertex v | inr vs => Simplex vs end)
    (λ f, match f with Vertex _ => eq_refl | Simplex _ => eq_refl end).

(** [d[k]] *)
Definition getitem {V : Type} (d : gmap Z V) (k : Z) : result V :=
  match d !! k with
  | Some v => Ok v
  | None => Raise KeyError
  end.

(** [l[j]] for a non-negative index [j] *)
Definition index {V : Type} (l : list V) (j : nat) : result V :=
  match l !! j with
  | Some v => Ok v
  | None => Raise IndexError
  end.

(** [range(n)] *)
Definition range (n : Z) : list Z := seqZ 0 n.

(** [np.max(l)] of a list of lengths; raises on an empty list. *)
Definition np_max (l : list nat) : result nat :=
  match l with
  | [] => Raise ValueError
  | x :: l' => Ok (foldr Nat.max x l')
  end.

(** [itertools.combinations(l, k)]: the [k]-element subsequences of [l],
    in lexicographic order of positions. *)
Fixpoint combinations {A : Type} (l : list A) (k : nat) : list (list A) :=
  match k with
  | O => [[]]
  | S k' =>
      match l with
      | [] => []
      | x :: l' => (cons x <$> combinations l' k') ++ combinations l' k
      end
  end.

(** [for i in range(n): faces[i+1] = set([])] *)
Definition empty_levels (n : nat) : gmap Z (gset face) :=
  foldl (λ faces i, <[Z.of_nat i + 1 := ∅]> faces) ∅ (seq 0 n).

(** [if len(v) == 1: v = v[0]] *)
Definition as_face (v : list Z) : face :=
  match v with
  | [x] => Vertex x
  | _ => Simplex v
  end.

(** [faces[k].add(v)] *)
Definition add_face (faces : gmap Z (gset face)) (k : Z) (v : face)
  : result (gmap Z (gset face)) :=
  s ← getitem faces k; Ok (<[k := s ∪ {[v]}]> faces).

(** [complex(maximal)] *)
Definition complex (maximal : list (list Z)) : result (gmap Z (gset face)) :=
  nmax ← np_max (length <$> maximal);
  foldM (λ faces simplex,
           let simplex := merge_sort Z.le simplex in
           foldM (λ faces k,
                    foldM (λ faces v, add_face faces (Z.of_nat k) (as_face v))
                          faces (combinations simplex k))
                 faces (seq 1 (length simplex)))
        (empty_levels nmax) maximal.

(** The triangulation of the unit cube by six tetrahedra, of the unit
    square by two triangles, and of the unit segment. *)
Definition maximal3 : list (list nat) :=
  [[0; 3; 2; 7]; [0; 6; 2; 7]; [0; 7; 5; 4];
   [0; 7; 5; 1]; [0; 7; 4; 6]; [0; 3; 1; 7]]%nat.
Definition maximal2 : list (list nat) := [[0; 1; 3]; [0; 2; 3]]%nat.
Definition maximal1 : list (list nat) := [[0; 1]]%nat.

(** The default argument of [complex]. *)
Definition default_maximal : list (list Z) :=
  [[0; 3; 2; 7]; [0; 6; 2; 7]; [0; 7; 5; 4];
   [0; 7; 5; 1]; [0; 7; 4; 6]; [0; 3; 1; 7]].

(** The template and the corner list that [cube_with_strides_center]
    builds for its dimension. *)
Definition cube_vertices (center strides : list Z)
  : result (list (list nat) * list Z) :=
  let d := length center in
  if negb ((0 <? d)%nat && (d <=? 3)%nat) then Raise ValueError
  else if negb (length strides =? d)%nat then Raise ValueError
  else match center, strides with
       | [c0; c1; c2], [s0; s1; s2] =>
           Ok (maximal3,
               k ← range 2; j ← range 2; i ← range 2;
               [(c0 + i) * s0 + (c1 + j) * s1 + (c2 + k) * s2])
       | [c0; c1], [s0; s1] =>
           Ok (maximal2,
               j ← range 2; i ← range 2;
               [(c0 + i) * s0 + (c1 + j) * s1])
       | [c0], [s0] => Ok (maximal1, [c0; c0 + s0])
       | _, _ => Raise ValueError
       end.

(** [cube_with_strides_center(center, strides)] *)
Definition cube_with_strides_center (center strides : list Z)
  : result (gmap Z (gset face)) :=
  '(maximal, vertices) ← cube_vertices center strides;
  maximal ← forM (forM (index vertices)) maximal;
  complex maximal.

(** [join_complexes] applied to the list of its arguments *)
Definition join_complexes (complexes : list (gmap Z (gset face)))
  : result (gmap Z (gset face)) :=
  nmax ← np_max (size <$> complexes);
  foldM (λ faces c,
           foldM (λ faces i,
                    let k := Z.of_nat i + 1 in
                    match c !! k with
                    | Some s => s0 ← getitem faces k; Ok (<[k := s0 ∪ s]> faces)
                    | None => Ok faces
                    end)
                 faces (seq 0 nmax))
        (empty_levels nmax) complexes.

(** ** The decomposers *)

(** [np.empty(shape, np.bool_).strides]: the C-order strides of an array
    of one-byte items.  An array without elements, one with an axis of
    length 0, has the strides 0; NumPy refuses a negative axis length. *)
Definition c_strides3 (a b c : Z) : Z * Z * Z :=
  if decide (a = 0 ∨ b = 0 ∨ c = 0) then (0, 0, 0) else (b * c, c, 1).

Definition c_strides2 (a b : Z) : Z * Z :=
  if decide (a = 0 ∨ b = 0) then (0, 0) else (b, 1).

Definition strides3 (shape : Z * Z * Z) : result (Z * Z * Z) :=
  let '(a, b, c) := shape in
  if decide (a < 0 ∨ b < 0 ∨ c < 0) then Raise ValueError
  else Ok (c_strides3 a b c).

Definition strides2 (shape : Z * Z) : result (Z * Z) :=
  let '(a, b) := shape in
  if decide (a < 0 ∨ b < 0) then Raise ValueError
  else Ok (c_strides2 a b).

(** [for i in range(n): unique[i+1] = c[i+1].difference(union[i+1])] *)
Definition unique_faces (n : nat) (c union : gmap Z (gset face))
  : result (gmap Z (gset face)) :=
  foldM (λ unique i,
           let k := Z.of_nat i + 1 in
           sc ← getitem c k; su ← getitem union k;
           Ok (<[k := sc ∖ su]> unique))
        ∅ (seq 0 n).

(** The faces of the cube at the origin that none of its seven earlier
    neighbours has. *)
Definition unique3 (strides : list Z) : result (gmap Z (gset face)) :=
  c1 ← cube_with_strides_center [0; 0; -1] strides;
  c2 ← cube_with_strides_center [0; -1; 0] strides;
  c3 ← cube_with_strides_center [0; -1; -1] strides;
  c4 ← cube_with_strides_center [-1; 0; 0] strides;
  c5 ← cube_with_strides_center [-1; 0; -1] strides;
  c6 ← cube_with_strides_center [-1; -1; 0] strides;
  c7 ← cube_with_strides_center [-1; -1; -1] strides;
  union ← join_complexes [c1; c2; c3; c4; c5; c6; c7];
  c ← cube_with_strides_center [0; 0; 0] strides;
  unique_faces 4 c union.

(** The faces of the square at the origin that none of its three
    earlier neighbours has. *)
Definition unique2 (strides : list Z) : result (gmap Z (gset face)) :=
  c1 ← cube_with_strides_center [0; -1] strides;
  c2 ← cube_with_strides_center [-1; 0] strides;
  c3 ← cube_with_strides_center [-1; -1] strides;
  union ← join_complexes [c1; c2; c3];
  c ← cube_with_strides_center [0; 0] strides;
  unique_faces 3 c union.

(** The faces of the segment at the origin that the segment before it
    does not have. *)
Definition unique1 (stride : Z) : result (gmap Z (gset face)) :=
  union ← cube_with_strides_center [-1] [stride];
  c ← cube_with_strides_center [0] [stride];
  unique_faces 2 c union.

(** [[index+ii for ii in l]]: iterating over a bare index raises. *)
Definition translate (index : Z) (l : face) : result face :=
  match l with
  | Simplex vs => Ok (Simplex ((λ ii, index + ii) <$> vs))
  | Vertex _ => Raise TypeError
  end.

(** [if dim in unique and dim > 1:] yield every face of [unique[dim]]
    translated to every position of the list [indices]. *)
Definition emit (unique : gmap Z (gset face)) (dim : Z) (indices : list Z)
  : result (list face) :=
  match unique !! dim with
  | Some d =>
      if decide (1 < dim)
      then ys ← forM (λ index, forM (translate index) (elements d)) indices;
           Ok (mjoin (ys : list (list face)))
      else Ok []
  | None => Ok []
  end.

(** The contribution of the two-dimensional stratum with strides
    [(t0, t1)] and shape [(n0, n1)]. *)
Definition slab (dim : Z) (st sh : Z * Z) : result (list face) :=
  let '(t0, t1) := st in
  let '(n0, n1) := sh in
  unique ← unique2 [t0; t1];
  emit unique dim (i ← range (n0 - 1); j ← range (n1 - 1); [i * t0 + j * t1]).

(** The contribution of the one-dimensional stratum with stride [t] and
    length [n]. *)
Definition edge (dim : Z) (t n : Z) : result (list face) :=
  unique ← unique1 t;
  emit unique dim (i ← range (n - 1); [i * t]).

(** The contribution of the interior voxels. *)
Definition interior (dim : Z) (st sh : Z * Z * Z) : result (list face) :=
  let '(s0, s1, s2) := st in
  let '(a, b, c) := sh in
  unique ← unique3 [s0; s1; s2];
  emit unique dim
       (i ← range (a - 1); j ← range (b - 1); k ← range (c - 1);
        [i * s0 + j * s1 + k * s2]).

(** [if dim == 1: for i in range(np.product(shape)): yield i] *)
Definition vertices (dim : Z) (n : Z) : list face :=
  if decide (dim = 1) then Vertex <$> range n else [].

(** [list(decompose3d(shape, dim))] *)
Definition decompose3d (shape : Z * Z * Z) (dim : Z) : result (list face) :=
  '(s0, s1, s2) ← strides3 shape;
  let '(a, b, c) := shape in
  y3 ← interior dim (s0, s1, s2) (a, b, c);
  y2 ← forM (λ p, slab dim p.1 p.2)
            (zip [(s0, s1); (s0, s2); (s1, s2)] [(a, b); (a, c); (b, c)]);
  y1 ← forM (λ p, edge dim p.1 p.2) (zip [s0; s1; s2] [a; b; c]);
  Ok (y3 ++ mjoin y2 ++ mjoin y1 ++ vertices dim (a * b * c)).

(** [list(decompose2d(shape, dim))] *)
Definition decompose2d (shape : Z * Z) (dim : Z) : result (list face) :=
  '(s0, s1) ← strides2 shape;
  let '(a, b) := shape in
  y2 ← slab dim (s0, s1) (a, b);
  y1 ← forM (λ p, edge dim p.1 p.2) (zip [s0; s1] [a; b]);
  Ok (y2 ++ mjoin y1 ++ vertices dim (a * b)).

(** ** The Euler characteristic *)

(** [for x in stream: ec += sign; n += 1], from [n = 0]. *)
Definition tally (sign : Z) (ec : Z) (stream : list face) : Z * Z :=
  foldl (λ '(n, ec) _, (n + 1, ec + sign)) (0, ec) stream.

(** [test_EC3(shape)] returns [(ts, fs, es, vs, ec)]. *)
Definition test_EC3 (shape : Z * Z * Z) : result (Z * Z * Z * Z * Z) :=
  t ← decompose3d shape 4;
  let '(ts, ec) := tally (-1) 0 t in
  f ← decompose3d shape 3;
  let '(fs, ec) := tally 1 ec f in
  e ← decompose3d shape 2;
  let '(es, ec) := tally (-1) ec e in
  v ← decompose3d shape 1;
  let '(vs, ec) := tally 1 ec v in
  Ok (ts, fs, es, vs, ec).

(** [test_EC2(shape)] returns [(fs, es, vs, ec)]. *)
Definition test_EC2 (shape : Z * Z) : result (Z * Z * Z * Z) :=
  f ← decompose2d shape 3;
  let '(fs, ec) := tally 1 0 f in
  e ← decompose2d shape 2;
  let '(es, ec) := tally (-1) ec e in
  v ← decompose2d shape 1;
  let '(vs, ec) := tally 1 ec v in
  Ok (fs, es, vs, ec).

(** * Loops that may raise *)

Lemma foldM_ext {A S} (f f' : S → A → result S) s l :
  (∀ s x, x ∈ l → f s x = f' s x) → foldM f s l = foldM f' s l.
Proof.
  revert s. induction l as [|x l IH]; intros s Hf; [done|]. simpl.
  rewrite Hf by left. destruct (f' s x); [|done]. simpl.
  apply IH. intros. apply Hf. by right.
Qed.

Lemma foldM_app {A S} (f : S → A → result S) s l1 l2 :
  foldM f s (l1 ++ l2) = s' ← foldM f s l1; foldM f s' l2.
Proof.
  revert s. induction l1 as [|x l1 IH]; intros s; [done|]. simpl.
  destruct (f s x); [|done]. apply IH.
Qed.

Lemma foldM_bind {A B S} (f : S → B → result S) (g : A → list B) s l :
  foldM f s (l ≫= g) = foldM (λ s x, foldM f s (g x)) s l.
Proof.
  revert s. induction l as [|x l IH]; intros s; [done|].
  rewrite bind_cons, foldM_app. simpl.
  destruct (foldM f s (g x)); [|done]. apply IH.
Qed.

Lemma forM_ok {A B} (f : A → result B) (g : A → B) l :
  (∀ x, x ∈ l → f x = Ok (g x)) → forM f l = Ok (g <$> l).
Proof.
  induction l as [|x l IH]; intros Hf; [done|]. simpl.
  rewrite Hf by left. simpl. rewrite IH; [done|].
  intros. apply Hf. by right.
Qed.

(** * Complexes with the keys [1 .. n] *)

(** The dictionary [{1: g 1, ..., n: g n}]. *)
Fixpoint levels (n : nat) (g : nat → gset face) : gmap Z (gset face) :=
  match n with
  | O => ∅
  | S n' => <[Z.of_nat n := g n]> (levels n' g)
  end.

Lemma lookup_levels n g z :
  levels n g !! z =
    if decide (1 ≤ z ≤ Z.of_nat n) then Some (g (Z.to_nat z)) else None.
Proof.
  induction n as [|n IH].
  - simpl. rewrite lookup_empty. case_decide; [lia|done].
  - cbn [levels]. rewrite lookup_insert.
    destruct (decide (Z.of_nat (S n) = z)) as [<-|Hz].
    + rewrite decide_True by lia. by rewrite Nat2Z.id.
    + rewrite IH. repeat case_decide; try done; lia.
Qed.

Lemma lookup_levels_nat n g (k : nat) :
  (1 ≤ k ≤ n)%nat → levels n g !! Z.of_nat k = Some (g k).
Proof.
  intros. rewrite lookup_levels, decide_True by lia. by rewrite Nat2Z.id.
Qed.

Lemma levels_ext n g g' :
  (∀ k, (1 ≤ k ≤ n)%nat → g k = g' k) → levels n g = levels n g'.
Proof.
  intros Hg. apply map_eq. intros z. rewrite !lookup_levels.
  case_decide; [|done]. f_equal. apply Hg. lia.
Qed.

Lemma size_levels n g : size (levels n g) = n.
Proof.
  induction n as [|n IH]; [done|]. cbn [levels].
  rewrite map_size_insert_None; [by rewrite IH|].
  rewrite lookup_levels. case_decide; [lia|done].
Qed.

Lemma empty_levels_eq n : empty_levels n = levels n (λ _, ∅).
Proof.
  unfold empty_levels. induction n as [|n IH]; [done|].
  rewrite seq_S, foldl_app, IH. simpl. f_equal. lia.
Qed.

Lemma getitem_levels n g (k : nat) :
  (1 ≤ k ≤ n)%nat → getitem (levels n g) (Z.of_nat k) = Ok (g k).
Proof. intros. unfold getitem. by rewrite lookup_levels_nat. Qed.

Lemma insert_levels n g (k : nat) s :
  (1 ≤ k ≤ n)%nat →
  <[Z.of_nat k := s]> (levels n g) =
    levels n (λ j, if decide (j = k) then s else g j).
Proof.
  intros. apply map_eq. intros z. rewrite lookup_insert, !lookup_levels.
  destruct (decide (Z.of_nat k = z)) as [<-|Hz].
  - rewrite decide_True by lia. by rewrite Nat2Z.id, decide_True.
  - case_decide; [|done]. rewrite decide_False; [done|lia].
Qed.

(** ** [complex] computes the faces of its simplices *)

(** The faces that [complex] adds at level [k], as a list. *)
Definition faces_list (maximal : list (list Z)) (k : nat) : list face :=
  as_face <$> (m ← maximal; combinations (merge_sort Z.le m) k).

Definition faces_of (maximal : list (list Z)) (k : nat) : gset face :=
  list_to_set (faces_list maximal k).

(** The [(level, face)] pairs in the order in which [complex] adds them. *)
Definition entries (maximal : list (list Z)) : list (nat * face) :=
  m ← maximal;
  k ← seq 1 (length (merge_sort Z.le m));
  v ← combinations (merge_sort Z.le m) k;
  [(k, as_face v)].

Definition collect (es : list (nat * face)) (k : nat) : gset face :=
  list_to_set (es ≫= λ e, if decide (e.1 = k) then [e.2] else []).

Lemma add_face_levels n g (k : nat) f :
  (1 ≤ k ≤ n)%nat →
  add_face (levels n g) (Z.of_nat k) f =
    Ok (levels n (λ j, if decide (j = k) then g k ∪ {[f]} else g j)).
Proof.
  intros. unfold add_face. rewrite getitem_levels by done. simpl.
  by rewrite insert_levels.
Qed.

Lemma foldM_add_face n g es :
  Forall (λ e, 1 ≤ e.1 ≤ n)%nat es →
  foldM (λ s e, add_face s (Z.of_nat e.1) e.2) (levels n g) es =
    Ok (levels n (λ k, g k ∪ collect es k)).
Proof.
  revert g. induction es as [|[k f] es IH]; intros g Hes.
  - simpl. f_equal. apply levels_ext. intros. unfold collect. simpl.
    set_solver.
  - inversion_clear Hes as [|?? Hk Hes']. rename Hes' into Hes. simpl in Hk.
    cbn [foldM]. simpl. rewrite add_face_levels by done. simpl.
    rewrite IH by done. f_equal.
    apply levels_ext. intros j _. unfold collect. rewrite bind_cons. simpl.
    case_decide; case_decide; try congruence; set_solver.
Qed.

Lemma length_combinations {A} (l : list A) k v :
  v ∈ combinations l k → length v = k.
Proof.
  revert k v. induction l as [|x l IH]; intros [|k] v; simpl.
  - intros ->%list_elem_of_singleton. done.
  - by intros ?%elem_of_nil.
  - intros ->%list_elem_of_singleton. done.
  - rewrite elem_of_app, list_elem_of_fmap.
    intros [(w & -> & Hw)|Hv]; [|by apply IH]. simpl. f_equal. by apply IH.
Qed.

Lemma combinations_sublist {A} (l : list A) k v :
  v ∈ combinations l k → sublist v l.
Proof.
  revert k v. induction l as [|x l IH]; intros [|k] v; simpl.
  - intros ->%list_elem_of_singleton. done.
  - by intros ?%elem_of_nil.
  - intros ->%list_elem_of_singleton. apply sublist_nil_l.
  - rewrite elem_of_app, list_elem_of_fmap.
    intros [(w & -> & Hw)|Hv].
    + apply sublist_skip. by eapply IH.
    + apply sublist_cons. by eapply IH.
Qed.

Lemma collect_entries maximal k :
  (1 ≤ k)%nat → collect (entries maximal) k = faces_of maximal k.
Proof.
  intros Hk. unfold collect, faces_of, faces_list, entries.
  apply set_eq. intros f.
  rewrite !elem_of_list_to_set, list_elem_of_fmap.
  setoid_rewrite list_elem_of_bind. split.
  - intros ([k' f'] & Hf & He). simpl in Hf.
    apply list_elem_of_bind in He as (m & He & Hm).
    apply list_elem_of_bind in He as (k'' & He & _).
    apply list_elem_of_bind in He as (v & He & Hv).
    apply list_elem_of_singleton in He. simplify_eq.
    case_decide; [|by apply elem_of_nil in Hf].
    apply list_elem_of_singleton in Hf. subst. eauto.
  - intros (v & -> & m & Hv & Hm).
    exists (k, as_face v). split; [simpl; rewrite decide_True by done; left|].
    apply list_elem_of_bind. exists m. split; [|done].
    apply list_elem_of_bind. exists k. split.
    + apply list_elem_of_bind. exists v. split; [left|done].
    + apply elem_of_seq. apply combinations_sublist in Hv as Hs.
      apply sublist_length in Hs. apply length_combinations in Hv. lia.
Qed.

Lemma np_max_cons (x : nat) l : np_max (x :: l) = Ok (max_list (x :: l)).
Proof.
  simpl. f_equal. induction l as [|y l IH]; simpl; [lia|].
  simpl in IH. lia.
Qed.

(** [complex] never raises on a non-empty list of simplices, and its
    result is the dictionary of the faces at the levels 1 to the size
    of the largest simplex. *)
Lemma complex_levels maximal :
  maximal ≠ [] →
  complex maximal =
    Ok (levels (max_list (length <$> maximal)) (faces_of maximal)).
Proof.
  intros Hne. unfold complex.
  destruct maximal as [|m0 ms] eqn:HM; [done|]. rewrite <-HM.
  assert (np_max (length <$> maximal) = Ok (max_list (length <$> maximal)))
    as -> by (subst; apply np_max_cons).
  simpl. clear HM Hne m0 ms. set (n := max_list (length <$> maximal)).
  transitivity (foldM (λ s e, add_face s (Z.of_nat e.1) e.2)
                  (levels n (λ _, ∅)) (entries maximal)).
  - rewrite empty_levels_eq. unfold entries. rewrite foldM_bind.
    apply foldM_ext. intros s m _. rewrite foldM_bind.
    apply foldM_ext. intros s' k _. rewrite foldM_bind.
    apply foldM_ext. intros s'' v _. simpl. by destruct (add_face _ _ _).
  - rewrite foldM_add_face.
    + f_equal. apply levels_ext. intros k [Hk _].
      rewrite collect_entries by done. set_solver.
    + apply list.Forall_forall. intros [k f] He. simpl.
      unfold entries in He.
      apply list_elem_of_bind in He as (m & He & Hm).
      apply list_elem_of_bind in He as (k' & He & Hk).
      apply list_elem_of_bind in He as (v & He & Hv).
      apply list_elem_of_singleton in He. simplify_eq.
      apply elem_of_seq in Hk.
      rewrite (Permutation_length (merge_sort_Permutation _ m)) in Hk.
      assert (length m ≤ n)%nat; [|lia].
      apply max_list_elem_of_le, list_elem_of_fmap. eauto.
Qed.

(** ** Faces under a strictly increasing renaming of the vertices *)

Definition face_map (φ : Z → Z) (f : face) : face :=
  match f with
  | Vertex v => Vertex (φ v)
  | Simplex vs => Simplex (φ <$> vs)
  end.

Definition increasing (φ : Z → Z) : Prop := ∀ x y, x < y → φ x < φ y.

Lemma increasing_le φ x y : increasing φ → x ≤ y → φ x ≤ φ y.
Proof.
  intros Hφ Hxy. destruct (decide (x = y)) as [->|]; [lia|].
  assert (φ x < φ y) by (apply Hφ; lia). lia.
Qed.

Lemma increasing_inj φ : increasing φ → Inj (=) (=) φ.
Proof.
  intros Hφ x y Hxy. destruct (Z.lt_total x y) as [H|[H|H]]; [|done|].
  - apply Hφ in H. lia.
  - apply Hφ in H. lia.
Qed.

Lemma face_map_inj φ : Inj (=) (=) φ → Inj (=) (=) (face_map φ).
Proof.
  intros Hφ [v|vs] [w|ws] Heq; simpl in Heq; try done.
  - f_equal. apply Hφ. congruence.
  - f_equal. apply (inj (fmap φ)). congruence.
Qed.

Lemma as_face_fmap φ v : as_face (φ <$> v) = face_map φ (as_face v).
Proof. by destruct v as [|x [|y v]]. Qed.

Lemma combinations_fmap {A B} (f : A → B) (l : list A) k :
  combinations (f <$> l) k = fmap (M:=list) f <$> combinations l k.
Proof.
  revert k. induction l as [|x l IH]; intros [|k]; simpl; try done.
  rewrite fmap_app, !IH, <-!list_fmap_compose. done.
Qed.

Lemma merge_sort_fmap φ l :
  increasing φ → merge_sort Z.le (φ <$> l) = φ <$> merge_sort Z.le l.
Proof.
  intros Hφ. apply (Sorted_unique Z.le).
  - apply (Sorted_merge_sort Z.le).
  - apply Sorted_fmap with (R1 := Z.le).
    + intros x y. by apply increasing_le.
    + apply (Sorted_merge_sort Z.le).
  - by rewrite !merge_sort_Permutation.
Qed.

(** The simplices of [maximal] with every vertex [w] renamed to [φ w]. *)
Definition rename (φ : Z → Z) (maximal : list (list Z)) : list (list Z) :=
  (λ m : list Z, φ <$> m) <$> maximal.

Lemma faces_list_fmap φ maximal k :
  increasing φ →
  faces_list (rename φ maximal) k = face_map φ <$> faces_list maximal k.
Proof.
  intros Hφ. unfold faces_list, rename. rewrite <-list_fmap_compose.
  induction maximal as [|m ms IH]; [done|].
  rewrite fmap_cons, !bind_cons, !fmap_app, IH. f_equal.
  rewrite merge_sort_fmap, combinations_fmap, <-!list_fmap_compose by done.
  apply list_fmap_ext. intros _ v _. simpl. apply as_face_fmap.
Qed.

(** At the levels above 1 every stored face is a tuple. *)
Definition raw_faces (maximal : list (list Z)) (k : nat) : list (list Z) :=
  m ← maximal; combinations (merge_sort Z.le m) k.

Lemma faces_list_raw maximal k :
  (2 ≤ k)%nat → faces_list maximal k = Simplex <$> raw_faces maximal k.
Proof.
  intros Hk. unfold faces_list, raw_faces. apply list_fmap_ext.
  intros i v Hv. apply list_elem_of_lookup_2 in Hv.
  apply list_elem_of_bind in Hv as (m & Hv & _).
  apply length_combinations in Hv. destruct v as [|x [|y v]]; simpl in *; done || lia.
Qed.

Lemma raw_faces_fmap φ maximal k :
  increasing φ →
  raw_faces (rename φ maximal) k = rename φ (raw_faces maximal k).
Proof.
  intros Hφ. unfold raw_faces, rename.
  induction maximal as [|m ms IH]; [done|].
  rewrite fmap_cons, !bind_cons, !fmap_app, IH. f_equal.
  by rewrite merge_sort_fmap, combinations_fmap.
Qed.

(** ** The cubes in terms of their corners *)

(** The corner numbered [w] of the cube at the origin, where the
    corners are numbered as the strides (4, 2, 1) index them. *)
Definition phi3 (s0 s1 s2 w : Z) : Z :=
  w `div` 4 * s0 + (w `mod` 4) `div` 2 * s1 + w `mod` 2 * s2.
Definition phi2 (t0 t1 w : Z) : Z := w `div` 2 * t0 + w `mod` 2 * t1.
Definition phi1 (t w : Z) : Z := w * t.

(** The three templates in that numbering of the corners. *)
Definition cube3 : list (list Z) :=
  [[0; 6; 2; 7]; [0; 3; 2; 7]; [0; 7; 5; 1];
   [0; 7; 5; 4]; [0; 7; 1; 3]; [0; 6; 4; 7]].
Definition cube2 : list (list Z) := [[0; 2; 3]; [0; 1; 3]].
Definition cube1 : list (list Z) := [[0; 1]].

Ltac list_eq :=
  repeat match goal with
         | |- @eq (list _) (_ :: _) (_ :: _) => apply (f_equal2 cons)
         | |- @eq (list _) [] [] => reflexivity
         end.

(** Evaluate the quotients and remainders of literals. *)
Ltac eval_divmod :=
  repeat match goal with
         | |- context [Z.div ?a ?b] =>
             is_ground a; is_ground b;
             let r := eval vm_compute in (Z.div a b) in
             change (Z.div a b) with r
         | |- context [Z.modulo ?a ?b] =>
             is_ground a; is_ground b;
             let r := eval vm_compute in (Z.modulo a b) in
             change (Z.modulo a b) with r
         end.

Lemma complex_rename φ maximal :
  maximal ≠ [] →
  complex (rename φ maximal) =
    Ok (levels (max_list (length <$> maximal)) (faces_of (rename φ maximal))).
Proof.
  intros Hne. rewrite complex_levels by (by destruct maximal).
  do 2 f_equal. unfold rename. rewrite <-list_fmap_compose.
  f_equal. apply list_fmap_ext. intros _ m _. simpl. by rewrite length_fmap.
Qed.

Lemma cube3_levels c0 c1 c2 s0 s1 s2 :
  cube_with_strides_center [c0; c1; c2] [s0; s1; s2] =
    Ok (levels 4 (faces_of
      (rename (λ w, (c0 * s0 + c1 * s1 + c2 * s2) + phi3 s0 s1 s2 w) cube3))).
Proof.
  rewrite <-(complex_rename _ cube3) by done.
  unfold cube_with_strides_center, cube_vertices.
  change (range 2) with [0; 1]. simpl.
  f_equal. unfold phi3. list_eq; eval_divmod; lia.
Qed.

Lemma cube2_levels c0 c1 t0 t1 :
  cube_with_strides_center [c0; c1] [t0; t1] =
    Ok (levels 3 (faces_of
      (rename (λ w, (c0 * t0 + c1 * t1) + phi2 t0 t1 w) cube2))).
Proof.
  rewrite <-(complex_rename _ cube2) by done.
  unfold cube_with_strides_center, cube_vertices.
  change (range 2) with [0; 1]. simpl.
  f_equal. unfold phi2. list_eq; eval_divmod; lia.
Qed.

Lemma cube1_levels c0 t :
  cube_with_strides_center [c0] [t] =
    Ok (levels 2 (faces_of (rename (λ w, c0 + phi1 t w) cube1))).
Proof.
  rewrite <-(complex_rename _ cube1) by done.
  unfold cube_with_strides_center, cube_vertices. simpl.
  f_equal. unfold phi1. list_eq; lia.
Qed.

(** ** [join_complexes] and the set differences *)

(** The set of a complex at a level; a missing level has no faces. *)
Definition level_of (c : gmap Z (gset face)) (k : nat) : gset face :=
  default ∅ (c !! Z.of_nat k).

Lemma level_of_levels n g k :
  (1 ≤ k ≤ n)%nat → level_of (levels n g) k = g k.
Proof. intros. unfold level_of. by rewrite lookup_levels_nat. Qed.

Lemma join_step n g c m :
  (m ≤ n)%nat →
  foldM (λ faces i,
           let k := Z.of_nat i + 1 in
           match c !! k with
           | Some s => s0 ← getitem faces k; Ok (<[k := s0 ∪ s]> faces)
           | None => Ok faces
           end)
        (levels n g) (seq 0 m) =
    Ok (levels n (λ k, if decide (k ≤ m)%nat then g k ∪ level_of c k else g k)).
Proof.
  induction m as [|m IH]; intros Hm.
  - simpl. f_equal. apply levels_ext. intros k ?.
    by rewrite decide_False by lia.
  - rewrite seq_S, foldM_app, IH by lia. simpl.
    replace (Z.of_nat m + 1) with (Z.of_nat (S m)) by lia.
    destruct (c !! Z.of_nat (S m)) as [s|] eqn:Hc.
    + rewrite getitem_levels by lia. simpl. rewrite insert_levels by lia.
      f_equal. apply levels_ext. intros k ?. unfold level_of.
      destruct (decide (k = S m)) as [->|].
      * rewrite Hc. repeat case_decide; try lia. done.
      * repeat case_decide; try lia; done.
    + simpl. f_equal. apply levels_ext. intros k ?. unfold level_of.
      destruct (decide (k = S m)) as [->|].
      * rewrite Hc. repeat case_decide; try lia. simpl. set_solver.
      * repeat case_decide; try lia; done.
Qed.

Lemma join_fold n g cs :
  foldM (λ faces c,
           foldM (λ faces i,
                    let k := Z.of_nat i + 1 in
                    match c !! k with
                    | Some s => s0 ← getitem faces k; Ok (<[k := s0 ∪ s]> faces)
                    | None => Ok faces
                    end)
                 faces (seq 0 n))
        (levels n g) cs =
    Ok (levels n (λ k, g k ∪ ⋃ ((λ c, level_of c k) <$> cs))).
Proof.
  revert g. induction cs as [|c cs IH]; intros g.
  - simpl. f_equal. apply levels_ext. intros. set_solver.
  - cbn [foldM]. rewrite join_step by done. simpl. rewrite IH. f_equal.
    apply levels_ext. intros k ?. rewrite decide_True by lia.
    simpl. set_solver.
Qed.

(** [join_complexes] raises only when it is given no complex at all;
    its result has the levels 1 to the largest size of an argument, and
    at each of them the union of the arguments' sets. *)
Lemma join_complexes_levels cs :
  cs ≠ [] →
  join_complexes cs =
    Ok (levels (max_list (size <$> cs)) (λ k, ⋃ ((λ c, level_of c k) <$> cs))).
Proof.
  intros Hne. unfold join_complexes.
  destruct cs as [|c0 cs'] eqn:Hcs; [done|]. rewrite <-Hcs.
  assert (np_max (size <$> cs) = Ok (max_list (size <$> cs))) as ->
    by (subst; apply np_max_cons).
  simpl. rewrite empty_levels_eq, join_fold. f_equal.
  apply levels_ext. intros. set_solver.
Qed.

Lemma unique_faces_levels n nc nu gc gu :
  (n ≤ nc)%nat → (n ≤ nu)%nat →
  unique_faces n (levels nc gc) (levels nu gu) =
    Ok (levels n (λ k, gc k ∖ gu k)).
Proof.
  intros Hc Hu. unfold unique_faces. induction n as [|n IH]; [done|].
  rewrite seq_S, foldM_app, IH by lia. simpl.
  replace (Z.of_nat n + 1) with (Z.of_nat (S n)) by lia.
  rewrite !getitem_levels by lia. simpl. done.
Qed.

(** ** The faces that belong to one cube only *)

Lemma raw_faces_elem maximal k g w :
  g ∈ raw_faces maximal k → w ∈ g → ∃ m, m ∈ maximal ∧ w ∈ m.
Proof.
  unfold raw_faces. intros (m & Hg & Hm)%list_elem_of_bind Hw.
  exists m. split; [done|].
  apply combinations_sublist in Hg.
  rewrite <-(merge_sort_Permutation Z.le m).
  by eapply elem_of_sublist.
Qed.

Lemma elem_of_faces_rename ψ maximal k vs :
  increasing ψ → (2 ≤ k)%nat →
  Simplex vs ∈ faces_of (rename ψ maximal) k ↔
    ∃ f0, f0 ∈ raw_faces maximal k ∧ vs = ψ <$> f0.
Proof.
  intros Hψ Hk. unfold faces_of.
  rewrite elem_of_list_to_set, faces_list_raw, raw_faces_fmap by done.
  unfold rename. rewrite <-list_fmap_compose, list_elem_of_fmap. simpl.
  split.
  - intros (f0 & [= ->] & Hf0). eauto.
  - intros (f0 & Hf0 & ->). eauto.
Qed.

Lemma faces_rename_simplex ψ maximal k f :
  increasing ψ → (2 ≤ k)%nat →
  f ∈ faces_of (rename ψ maximal) k → ∃ vs, f = Simplex vs.
Proof.
  intros Hψ Hk. unfold faces_of.
  rewrite elem_of_list_to_set, faces_list_raw by done.
  intros (vs & -> & _)%list_elem_of_fmap. eauto.
Qed.

Section template.
Variables (φ : Z → Z) (cube : list (list Z)) (top : Z) (shifts : list Z).
Variable k : nat.
Hypothesis Hk : (2 ≤ k)%nat.
Hypothesis Hφ : increasing φ.
Hypothesis Hshifts : Forall (λ t, t < 0) shifts.
Hypothesis Htop : Forall (Forall (λ w, w ≤ top)) cube.

(** The faces of the cube and those of its earlier neighbours. *)
Definition own : gset face := faces_of (rename φ cube) k.
Definition earlier : gset face :=
  ⋃ ((λ t, faces_of (rename (λ w, t + φ w) cube) k) <$> shifts).

(** The faces that contain the last corner of the cube. *)
Definition tops : list (list Z) :=
  remove_dups (filter (λ f0, top ∈ f0) (raw_faces cube k)).

(** Every face without the last corner is a face of an earlier cube. *)
Hypothesis Hlower : ∀ f0,
  f0 ∈ raw_faces cube k → top ∉ f0 →
  ∃ t g0, t ∈ shifts ∧ g0 ∈ raw_faces cube k ∧
          φ <$> f0 = (λ w, t + φ w) <$> g0.

Lemma increasing_shift t : increasing (λ w, t + φ w).
Proof. intros x y Hxy. apply Hφ in Hxy. lia. Qed.

Lemma template_faces :
  own ∖ earlier = list_to_set (Simplex <$> rename φ tops).
Proof.
  apply set_eq. intros f.
  rewrite elem_of_difference, elem_of_list_to_set, list_elem_of_fmap.
  unfold own, earlier. rewrite elem_of_union_list. split.
  - intros [Hown Hnot].
    destruct (faces_rename_simplex _ _ _ _ Hφ Hk Hown) as [vs ->].
    apply elem_of_faces_rename in Hown as (f0 & Hf0 & ->); [|done..].
    exists (φ <$> f0). split; [done|].
    unfold rename, tops. apply list_elem_of_fmap. exists f0. split; [done|].
    apply elem_of_remove_dups, list_elem_of_filter. split; [|done].
    destruct (decide (top ∈ f0)) as [|Hno]; [done|]. exfalso.
    destruct (Hlower f0 Hf0 Hno) as (t & g0 & Ht & Hg0 & Heq).
    apply Hnot. eexists. split.
    + apply list_elem_of_fmap. exists t. split; [reflexivity|done].
    + apply elem_of_faces_rename; [apply increasing_shift|done|]. eauto.
  - intros (vs & -> & Hvs). unfold rename, tops in Hvs.
    apply list_elem_of_fmap in Hvs as (f0 & -> & Hf0).
    apply elem_of_remove_dups, list_elem_of_filter in Hf0 as [Hin Hf0].
    split.
    + apply elem_of_faces_rename; [done..|]. eauto.
    + intros (X & (t & -> & Ht)%list_elem_of_fmap & HX).
      apply elem_of_faces_rename in HX as (g0 & Hg0 & Heq);
        [|apply increasing_shift|done].
      assert (φ top ∈ φ <$> f0) as Hφtop by (by apply list_elem_of_fmap_2).
      rewrite Heq in Hφtop.
      apply list_elem_of_fmap in Hφtop as (w & Hw & Hwg).
      destruct (raw_faces_elem _ _ _ _ Hg0 Hwg) as (m & Hm & Hwm).
      rewrite list.Forall_forall in Htop. apply Htop in Hm.
      rewrite list.Forall_forall in Hm. apply Hm in Hwm.
      apply (increasing_le φ) in Hwm; [|done].
      rewrite list.Forall_forall in Hshifts. apply Hshifts in Ht. lia.
Qed.

Lemma NoDup_template : NoDup (Simplex <$> rename φ tops).
Proof.
  unfold rename. rewrite <-list_fmap_compose.
  apply NoDup_fmap_2_strong; [|apply NoDup_remove_dups].
  pose proof (increasing_inj φ Hφ).
  intros x y _ _ [= Heq]. revert Heq. apply (inj (fmap φ)).
Qed.

Lemma template_elements :
  elements (own ∖ earlier) ≡ₚ Simplex <$> rename φ tops.
Proof.
  rewrite template_faces. apply elements_list_to_set, NoDup_template.
Qed.
End template.

(** A face without the last corner is found in an earlier cube by
    moving it by the number [n] of that cube, when adding [n] to its
    corners carries no digit. *)
Lemma lower_from_check φ (free : Z → Z → Prop) cube k top ns :
  (∀ n w, free n w → φ (n + w) = φ n + φ w) →
  Forall (λ f0, top ∈ f0 ∨
                Exists (λ n, Forall (free n) f0 ∧
                             (Z.add n <$> f0) ∈ raw_faces cube k) ns)
         (raw_faces cube k) →
  ∀ f0, f0 ∈ raw_faces cube k → top ∉ f0 →
        ∃ t g0, t ∈ ((λ n, - φ n) <$> ns) ∧ g0 ∈ raw_faces cube k ∧
                φ <$> f0 = (λ w, t + φ w) <$> g0.
Proof.
  intros Hadd Hall f0 Hf0 Hno. rewrite list.Forall_forall in Hall.
  destruct (Hall f0 Hf0) as [?|Hex]; [done|].
  apply list.Exists_exists in Hex as (n & Hn & Hfree & Hg0).
  exists (- φ n), (Z.add n <$> f0). split_and!; [|done|].
  - apply list_elem_of_fmap. by exists n.
  - rewrite <-list_fmap_compose. apply list_fmap_ext. intros i w Hw. simpl.
    rewrite list.Forall_forall in Hfree.
    rewrite Hadd; [lia|]. apply Hfree. by eapply list_elem_of_lookup_2.
Qed.

(** *** Three dimensions *)

Definition valid3 (s0 s1 s2 : Z) : Prop := 0 < s2 ∧ s2 < s1 ∧ s1 + s2 < s0.

Lemma phi3_digits s0 s1 s2 x :
  ∃ q b1 b0, x = 4 * q + 2 * b1 + b0 ∧ 0 ≤ b1 ≤ 1 ∧ 0 ≤ b0 ≤ 1 ∧
             phi3 s0 s1 s2 x = q * s0 + b1 * s1 + b0 * s2.
Proof.
  exists (x `div` 4), ((x `mod` 4) `div` 2), (x `mod` 2).
  unfold phi3. split_and!; try done; Z.div_mod_to_equations; lia.
Qed.

Lemma phi3_increasing s0 s1 s2 :
  valid3 s0 s1 s2 → increasing (phi3 s0 s1 s2).
Proof.
  intros (H2 & H1 & H0) x y Hxy.
  destruct (phi3_digits s0 s1 s2 x) as (q & b1 & b0 & -> & ? & ? & ->).
  destruct (phi3_digits s0 s1 s2 y) as (q' & c1 & c0 & -> & ? & ? & ->).
  assert (q ≤ q') by lia.
  destruct (decide (q = q')) as [->|].
  - assert (b1 = 0 ∨ b1 = 1) as [-> | ->] by lia;
    assert (c1 = 0 ∨ c1 = 1) as [-> | ->] by lia;
    assert (b0 = 0 ∨ b0 = 1) as [-> | ->] by lia;
    assert (c0 = 0 ∨ c0 = 1) as [-> | ->] by lia; lia.
  - assert (q * s0 + s0 ≤ q' * s0) by nia.
    assert (b1 = 0 ∨ b1 = 1) as [-> | ->] by lia;
    assert (c1 = 0 ∨ c1 = 1) as [-> | ->] by lia;
    assert (b0 = 0 ∨ b0 = 1) as [-> | ->] by lia;
    assert (c0 = 0 ∨ c0 = 1) as [-> | ->] by lia; lia.
Qed.

(** Adding [n] to [w] carries no digit. *)
Definition free3 (n w : Z) : Prop :=
  (n + w) `div` 4 = n `div` 4 + w `div` 4 ∧
  ((n + w) `mod` 4) `div` 2 = (n `mod` 4) `div` 2 + (w `mod` 4) `div` 2 ∧
  (n + w) `mod` 2 = n `mod` 2 + w `mod` 2.

#[global] Instance free3_dec n w : Decision (free3 n w).
Proof. unfold free3. apply _. Defined.

Lemma phi3_add s0 s1 s2 n w :
  free3 n w → phi3 s0 s1 s2 (n + w) = phi3 s0 s1 s2 n + phi3 s0 s1 s2 w.
Proof. intros (H0 & H1 & H2). unfold phi3. rewrite H0, H1, H2. lia. Qed.

(** The offsets of the seven earlier cubes, in the order of the source. *)
Definition offsets3 (s0 s1 s2 : Z) : list Z :=
  [0 * s0 + 0 * s1 + -1 * s2; 0 * s0 + -1 * s1 + 0 * s2;
   0 * s0 + -1 * s1 + -1 * s2; -1 * s0 + 0 * s1 + 0 * s2;
   -1 * s0 + 0 * s1 + -1 * s2; -1 * s0 + -1 * s1 + 0 * s2;
   -1 * s0 + -1 * s1 + -1 * s2].

Lemma offsets3_phi3 s0 s1 s2 :
  offsets3 s0 s1 s2 = (λ n, - phi3 s0 s1 s2 n) <$> [1; 2; 3; 4; 5; 6; 7].
Proof. unfold offsets3, phi3. simpl. list_eq; eval_divmod; lia. Qed.

Lemma bind_Ok {A B} (x : A) (f : A → result B) : Ok x ≫= f = f x.
Proof. done. Qed.

Ltac step_binds := repeat (rewrite bind_Ok; cbv beta).

(** [unique3] never raises. *)
Lemma unique3_levels s0 s1 s2 :
  unique3 [s0; s1; s2] =
    Ok (levels 4 (λ k, own (phi3 s0 s1 s2) cube3 k ∖
                       earlier (phi3 s0 s1 s2) cube3 (offsets3 s0 s1 s2) k)).
Proof.
  unfold unique3. rewrite !cube3_levels. step_binds.
  rewrite join_complexes_levels by done.
  cbn [fmap list_fmap]. rewrite !size_levels.
  change (max_list _) with 4%nat. step_binds.
  rewrite unique_faces_levels by done. apply (f_equal Ok).
  apply levels_ext. intros k Hk. unfold own, earlier, offsets3.
  cbn [fmap list_fmap]. rewrite !level_of_levels by done. reflexivity.
Qed.

Ltac by_compute := apply (bool_decide_unpack _); vm_compute; exact I.

Lemma cube3_check k :
  (2 ≤ k ≤ 4)%nat →
  Forall (λ f0, 7 ∈ f0 ∨
                Exists (λ n, Forall (free3 n) f0 ∧
                             (Z.add n <$> f0) ∈ raw_faces cube3 k)
                       [1; 2; 3; 4; 5; 6; 7])
         (raw_faces cube3 k).
Proof.
  intros Hk. destruct k as [|[|[|[|[|k]]]]]; try lia; by_compute.
Qed.

(** For strides that order the corners of a cube as their coordinates
    do, the faces that [unique3] keeps are the faces of the cube with
    the corner [(1, 1, 1)]. *)
Lemma template3 s0 s1 s2 k :
  valid3 s0 s1 s2 → (2 ≤ k ≤ 4)%nat →
  elements (own (phi3 s0 s1 s2) cube3 k ∖
            earlier (phi3 s0 s1 s2) cube3 (offsets3 s0 s1 s2) k)
    ≡ₚ Simplex <$> rename (phi3 s0 s1 s2) (tops cube3 7 k).
Proof.
  intros Hs Hk. apply template_elements.
  - lia.
  - by apply phi3_increasing.
  - destruct Hs as (? & ? & ?). unfold offsets3. repeat constructor; lia.
  - unfold cube3. repeat constructor; lia.
  - rewrite offsets3_phi3. apply lower_from_check with (free := free3).
    + apply phi3_add.
    + by apply cube3_check.
Qed.

(** *** Two dimensions *)

Definition valid2 (t0 t1 : Z) : Prop := 0 < t1 ∧ t1 < t0.

Lemma phi2_digits t0 t1 x :
  ∃ q b, x = 2 * q + b ∧ 0 ≤ b ≤ 1 ∧ phi2 t0 t1 x = q * t0 + b * t1.
Proof.
  exists (x `div` 2), (x `mod` 2).
  unfold phi2. split_and!; try done; Z.div_mod_to_equations; lia.
Qed.

Lemma phi2_increasing t0 t1 : valid2 t0 t1 → increasing (phi2 t0 t1).
Proof.
  intros (H1 & H0) x y Hxy.
  destruct (phi2_digits t0 t1 x) as (q & b & -> & ? & ->).
  destruct (phi2_digits t0 t1 y) as (q' & c & -> & ? & ->).
  assert (q ≤ q') by lia.
  destruct (decide (q = q')) as [->|].
  - assert (b = 0 ∨ b = 1) as [-> | ->] by lia;
    assert (c = 0 ∨ c = 1) as [-> | ->] by lia; lia.
  - assert (q * t0 + t0 ≤ q' * t0) by nia.
    assert (b = 0 ∨ b = 1) as [-> | ->] by lia;
    assert (c = 0 ∨ c = 1) as [-> | ->] by lia; lia.
Qed.

Definition free2 (n w : Z) : Prop :=
  (n + w) `div` 2 = n `div` 2 + w `div` 2 ∧
  (n + w) `mod` 2 = n `mod` 2 + w `mod` 2.

#[global] Instance free2_dec n w : Decision (free2 n w).
Proof. unfold free2. apply _. Defined.

Lemma phi2_add t0 t1 n w :
  free2 n w → phi2 t0 t1 (n + w) = phi2 t0 t1 n + phi2 t0 t1 w.
Proof. intros (H0 & H1). unfold phi2. rewrite H0, H1. lia. Qed.

(** The offsets of the three earlier squares, in the order of the source. *)
Definition offsets2 (t0 t1 : Z) : list Z :=
  [0 * t0 + -1 * t1; -1 * t0 + 0 * t1; -1 * t0 + -1 * t1].

Lemma offsets2_phi2 t0 t1 :
  offsets2 t0 t1 = (λ n, - phi2 t0 t1 n) <$> [1; 2; 3].
Proof. unfold offsets2, phi2. simpl. list_eq; eval_divmod; lia. Qed.

(** [unique2] never raises. *)
Lemma unique2_levels t0 t1 :
  unique2 [t0; t1] =
    Ok (levels 3 (λ k, own (phi2 t0 t1) cube2 k ∖
                       earlier (phi2 t0 t1) cube2 (offsets2 t0 t1) k)).
Proof.
  unfold unique2. rewrite !cube2_levels. step_binds.
  rewrite join_complexes_levels by done.
  cbn [fmap list_fmap]. rewrite !size_levels.
  change (max_list _) with 3%nat. step_binds.
  rewrite unique_faces_levels by done. apply (f_equal Ok).
  apply levels_ext. intros k Hk. unfold own, earlier, offsets2.
  cbn [fmap list_fmap]. rewrite !level_of_levels by done. reflexivity.
Qed.

Lemma cube2_check k :
  (2 ≤ k ≤ 3)%nat →
  Forall (λ f0, 3 ∈ f0 ∨
                Exists (λ n, Forall (free2 n) f0 ∧
                             (Z.add n <$> f0) ∈ raw_faces cube2 k)
                       [1; 2; 3])
         (raw_faces cube2 k).
Proof.
  intros Hk. destruct k as [|[|[|[|k]]]]; try lia; by_compute.
Qed.

Lemma template2 t0 t1 k :
  valid2 t0 t1 → (2 ≤ k ≤ 3)%nat →
  elements (own (phi2 t0 t1) cube2 k ∖
            earlier (phi2 t0 t1) cube2 (offsets2 t0 t1) k)
    ≡ₚ Simplex <$> rename (phi2 t0 t1) (tops cube2 3 k).
Proof.
  intros Hs Hk. apply template_elements.
  - lia.
  - by apply phi2_increasing.
  - destruct Hs as (? & ?). unfold offsets2. repeat constructor; lia.
  - unfold cube2. repeat constructor; lia.
  - rewrite offsets2_phi2. apply lower_from_check with (free := free2).
    + apply phi2_add.
    + by apply cube2_check.
Qed.

(** *** One dimension *)

Lemma phi1_increasing t : 0 < t → increasing (phi1 t).
Proof. intros Ht x y Hxy. unfold phi1. nia. Qed.

(** [unique1] never raises. *)
Lemma unique1_levels t :
  unique1 t =
    Ok (levels 2 (λ k, own (phi1 t) cube1 k ∖ earlier (phi1 t) cube1 [-1] k)).
Proof.
  unfold unique1. rewrite !cube1_levels. step_binds.
  rewrite unique_faces_levels by done. apply (f_equal Ok).
  apply levels_ext. intros k Hk. unfold own, earlier.
  cbn [fmap list_fmap]. simpl union_list.
  rewrite (right_id_L ∅ (∪)). reflexivity.
Qed.

Lemma template1 t :
  0 < t →
  elements (own (phi1 t) cube1 2 ∖ earlier (phi1 t) cube1 [-1] 2)
    ≡ₚ Simplex <$> rename (phi1 t) (tops cube1 1 2).
Proof.
  intros Ht. apply template_elements.
  - lia.
  - by apply phi1_increasing.
  - repeat constructor; lia.
  - unfold cube1. repeat constructor; lia.
  - intros f0 Hf0 Hno. exfalso. apply Hno.
    change (raw_faces cube1 2) with [[0; 1]] in Hf0.
    apply list_elem_of_singleton in Hf0 as ->. set_solver.
Qed.

(** * The streams of the decomposers *)

Lemma faces_of_simplex maximal k f :
  (2 ≤ k)%nat → f ∈ faces_of maximal k → ∃ vs, f = Simplex vs.
Proof.
  intros Hk. unfold faces_of.
  rewrite elem_of_list_to_set, faces_list_raw by done.
  intros (vs & -> & _)%list_elem_of_fmap. eauto.
Qed.

(** The faces of a template, moved to every position of a list. *)
Definition placed (template : list face) (indices : list Z) : list face :=
  index ← indices; face_map (Z.add index) <$> template.

Lemma placed_nil template : placed template [] = [].
Proof. done. Qed.

Lemma placed_Permutation t1 t2 indices :
  t1 ≡ₚ t2 → placed t1 indices ≡ₚ placed t2 indices.
Proof.
  intros Ht. unfold placed. induction indices as [|i l IH]; [done|].
  rewrite !bind_cons. by rewrite IH, Ht.
Qed.

Lemma length_placed template indices :
  length (placed template indices) = (length indices * length template)%nat.
Proof.
  unfold placed. induction indices as [|i l IH]; [done|].
  rewrite bind_cons, length_app, IH, length_fmap. simpl. lia.
Qed.

Lemma join_fmap {A B} (f : A → list B) (l : list A) :
  mjoin (f <$> l) = l ≫= f.
Proof. induction l as [|x l IH]; [done|]. csimpl. by rewrite IH. Qed.

Lemma forM_translate index (d : list face) :
  (∀ f, f ∈ d → ∃ vs, f = Simplex vs) →
  forM (translate index) d = Ok (face_map (Z.add index) <$> d).
Proof.
  intros Hd. apply forM_ok. intros f Hf.
  destruct (Hd f Hf) as [vs ->]. done.
Qed.

Lemma emit_levels_in n g (k : nat) indices :
  (2 ≤ k ≤ n)%nat → (∀ f, f ∈ g k → ∃ vs, f = Simplex vs) →
  emit (levels n g) (Z.of_nat k) indices = Ok (placed (elements (g k)) indices).
Proof.
  intros Hk Hg. unfold emit. rewrite lookup_levels_nat by lia.
  rewrite decide_True by lia.
  rewrite (forM_ok _ (λ index, face_map (Z.add index) <$> elements (g k))).
  - step_binds. f_equal. unfold placed. by rewrite join_fmap.
  - intros index _. apply forM_translate. intros f Hf. apply Hg.
    by apply elem_of_elements.
Qed.

Lemma emit_levels_out n g dim indices :
  ¬ (2 ≤ dim ≤ Z.of_nat n) → emit (levels n g) dim indices = Ok [].
Proof.
  intros Hdim. unfold emit. rewrite lookup_levels.
  case_decide; [|done]. rewrite decide_False by lia. done.
Qed.

(** The templates of the three kinds of strata. *)
Definition template_3 (s0 s1 s2 : Z) (k : nat) : gset face :=
  own (phi3 s0 s1 s2) cube3 k ∖
  earlier (phi3 s0 s1 s2) cube3 (offsets3 s0 s1 s2) k.
Definition template_2 (t0 t1 : Z) (k : nat) : gset face :=
  own (phi2 t0 t1) cube2 k ∖ earlier (phi2 t0 t1) cube2 (offsets2 t0 t1) k.
Definition template_1 (t : Z) (k : nat) : gset face :=
  own (phi1 t) cube1 k ∖ earlier (phi1 t) cube1 [-1] k.

Lemma own_simplex φ cube k f X :
  (2 ≤ k)%nat → f ∈ own φ cube k ∖ X → ∃ vs, f = Simplex vs.
Proof.
  intros Hk [Hf _]%elem_of_difference. by eapply faces_of_simplex.
Qed.

(** The positions of the strata. *)
Definition grid3 (a b c s0 s1 s2 : Z) : list Z :=
  i ← range (a - 1); j ← range (b - 1); k ← range (c - 1);
  [i * s0 + j * s1 + k * s2].
Definition grid2 (n0 n1 t0 t1 : Z) : list Z :=
  i ← range (n0 - 1); j ← range (n1 - 1); [i * t0 + j * t1].
Definition grid1 (n t : Z) : list Z := i ← range (n - 1); [i * t].

Lemma interior_ok dim s0 s1 s2 a b c :
  interior dim (s0, s1, s2) (a, b, c) =
    Ok (if decide (2 ≤ dim ≤ 4)
        then placed (elements (template_3 s0 s1 s2 (Z.to_nat dim)))
                    (grid3 a b c s0 s1 s2)
        else []).
Proof.
  unfold interior. rewrite unique3_levels. step_binds.
  destruct (decide (2 ≤ dim ≤ 4)) as [Hd|Hd].
  - rewrite <-(Z2Nat.id dim) at 1 by lia.
    rewrite emit_levels_in; [done|lia|].
    intros f. apply own_simplex. lia.
  - by rewrite emit_levels_out.
Qed.

Lemma slab_ok dim t0 t1 n0 n1 :
  slab dim (t0, t1) (n0, n1) =
    Ok (if decide (2 ≤ dim ≤ 3)
        then placed (elements (template_2 t0 t1 (Z.to_nat dim)))
                    (grid2 n0 n1 t0 t1)
        else []).
Proof.
  unfold slab. rewrite unique2_levels. step_binds.
  destruct (decide (2 ≤ dim ≤ 3)) as [Hd|Hd].
  - rewrite <-(Z2Nat.id dim) at 1 by lia.
    rewrite emit_levels_in; [done|lia|].
    intros f. apply own_simplex. lia.
  - by rewrite emit_levels_out.
Qed.

Lemma edge_ok dim t n :
  edge dim t n =
    Ok (if decide (dim = 2)
        then placed (elements (template_1 t 2)) (grid1 n t)
        else []).
Proof.
  unfold edge. rewrite unique1_levels. step_binds.
  destruct (decide (dim = 2)) as [->|Hd].
  - change 2 with (Z.of_nat 2).
    rewrite emit_levels_in; [done|lia|].
    intros f. apply own_simplex. lia.
  - rewrite emit_levels_out; [done|lia].
Qed.

(** The contributions of the strata. *)
Definition part3 (dim s0 s1 s2 a b c : Z) : list face :=
  if decide (2 ≤ dim ≤ 4)
  then placed (elements (template_3 s0 s1 s2 (Z.to_nat dim)))
              (grid3 a b c s0 s1 s2)
  else [].
Definition part2 (dim t0 t1 n0 n1 : Z) : list face :=
  if decide (2 ≤ dim ≤ 3)
  then placed (elements (template_2 t0 t1 (Z.to_nat dim))) (grid2 n0 n1 t0 t1)
  else [].
Definition part1 (dim t n : Z) : list face :=
  if decide (dim = 2)
  then placed (elements (template_1 t 2)) (grid1 n t)
  else [].

Definition stream3 (a b c dim : Z) : list face :=
  let s0 := (c_strides3 a b c).1.1 in
  let s1 := (c_strides3 a b c).1.2 in
  let s2 := (c_strides3 a b c).2 in
  part3 dim s0 s1 s2 a b c ++
  (part2 dim s0 s1 a b ++ part2 dim s0 s2 a c ++ part2 dim s1 s2 b c) ++
  (part1 dim s0 a ++ part1 dim s1 b ++ part1 dim s2 c) ++
  vertices dim (a * b * c).

Definition stream2 (a b dim : Z) : list face :=
  let s0 := (c_strides2 a b).1 in
  let s1 := (c_strides2 a b).2 in
  part2 dim s0 s1 a b ++
  (part1 dim s0 a ++ part1 dim s1 b) ++
  vertices dim (a * b).

(** [decompose3d] raises on no shape that NumPy accepts, whatever the
    requested dimension is. *)
Lemma decompose3d_ok a b c dim :
  0 ≤ a → 0 ≤ b → 0 ≤ c →
  decompose3d (a, b, c) dim = Ok (stream3 a b c dim).
Proof.
  intros Ha Hb Hc. unfold decompose3d, strides3, stream3.
  rewrite decide_False by lia. destruct (c_strides3 a b c) as [[s0 s1] s2].
  step_binds. cbn [fst snd].
  rewrite interior_ok. step_binds.
  cbn [zip zip_with forM fst snd]. rewrite !slab_ok. step_binds.
  rewrite !edge_ok. step_binds.
  unfold part3, part2, part1. cbn [mjoin list_join].
  by rewrite !app_nil_r.
Qed.

Lemma decompose2d_ok a b dim :
  0 ≤ a → 0 ≤ b →
  decompose2d (a, b) dim = Ok (stream2 a b dim).
Proof.
  intros Ha Hb. unfold decompose2d, strides2, stream2.
  rewrite decide_False by lia. destruct (c_strides2 a b) as [s0 s1].
  step_binds. cbn [fst snd].
  rewrite slab_ok. step_binds.
  cbn [zip zip_with forM fst snd]. rewrite !edge_ok. step_binds.
  unfold part2, part1. cbn [mjoin list_join].
  by rewrite !app_nil_r.
Qed.

(** ** The streams up to the order of iteration over the templates *)

Lemma bind_nil_r {A B} (f : A → list B) (l : list A) :
  (∀ x, f x = []) → l ≫= f = [].
Proof.
  intros Hf. induction l as [|x l IH]; [done|].
  by rewrite bind_cons, Hf, IH.
Qed.

Lemma length_bind_const {A B} (f : A → list B) (l : list A) m :
  (∀ x, length (f x) = m) → length (l ≫= f) = (length l * m)%nat.
Proof.
  intros Hf. induction l as [|x l IH]; [done|].
  rewrite bind_cons, length_app, Hf, IH. simpl. lia.
Qed.

Lemma range_nil n : n ≤ 0 → range n = [].
Proof. apply seqZ_nil. Qed.

Lemma length_range n : length (range n) = Z.to_nat n.
Proof. apply length_seqZ. Qed.

Lemma grid3_nil a b c s0 s1 s2 :
  a ≤ 1 ∨ b ≤ 1 ∨ c ≤ 1 → grid3 a b c s0 s1 s2 = [].
Proof.
  unfold grid3. intros [H|[H|H]].
  - by rewrite (range_nil (a - 1)) by lia.
  - apply bind_nil_r. intros i. by rewrite (range_nil (b - 1)) by lia.
  - apply bind_nil_r. intros i. apply bind_nil_r. intros j.
    by rewrite (range_nil (c - 1)) by lia.
Qed.

Lemma grid2_nil n0 n1 t0 t1 : n0 ≤ 1 ∨ n1 ≤ 1 → grid2 n0 n1 t0 t1 = [].
Proof.
  unfold grid2. intros [H|H].
  - by rewrite (range_nil (n0 - 1)) by lia.
  - apply bind_nil_r. intros i. by rewrite (range_nil (n1 - 1)) by lia.
Qed.

Lemma grid1_nil n t : n ≤ 1 → grid1 n t = [].
Proof. unfold grid1. intros H. by rewrite range_nil by lia. Qed.

Lemma length_grid3 a b c s0 s1 s2 :
  length (grid3 a b c s0 s1 s2) =
    (Z.to_nat (a - 1) * (Z.to_nat (b - 1) * Z.to_nat (c - 1)))%nat.
Proof.
  unfold grid3. erewrite length_bind_const; [by rewrite length_range|].
  intros i. erewrite length_bind_const; [by rewrite length_range|].
  intros j. erewrite length_bind_const; [by rewrite length_range, Nat.mul_1_r|].
  done.
Qed.

Lemma length_grid2 n0 n1 t0 t1 :
  length (grid2 n0 n1 t0 t1) = (Z.to_nat (n0 - 1) * Z.to_nat (n1 - 1))%nat.
Proof.
  unfold grid2. erewrite length_bind_const; [by rewrite length_range|].
  intros i. erewrite length_bind_const; [by rewrite length_range, Nat.mul_1_r|].
  done.
Qed.

Lemma length_grid1 n t : length (grid1 n t) = Z.to_nat (n - 1).
Proof.
  unfold grid1. erewrite length_bind_const; [by rewrite length_range, Nat.mul_1_r|].
  done.
Qed.

(** The faces with the last corner, as each kind of stratum renames
    them. *)
Definition faces3 (s0 s1 s2 : Z) (k : nat) : list face :=
  Simplex <$> rename (phi3 s0 s1 s2) (tops cube3 7 k).
Definition faces2 (t0 t1 : Z) (k : nat) : list face :=
  Simplex <$> rename (phi2 t0 t1) (tops cube2 3 k).
Definition faces1 (t : Z) : list face :=
  Simplex <$> rename (phi1 t) (tops cube1 1 2).

Definition canon3 (dim s0 s1 s2 a b c : Z) : list face :=
  if decide (2 ≤ dim ≤ 4)
  then placed (faces3 s0 s1 s2 (Z.to_nat dim)) (grid3 a b c s0 s1 s2)
  else [].
Definition canon2 (dim t0 t1 n0 n1 : Z) : list face :=
  if decide (2 ≤ dim ≤ 3)
  then placed (faces2 t0 t1 (Z.to_nat dim)) (grid2 n0 n1 t0 t1)
  else [].
Definition canon1 (dim t n : Z) : list face :=
  if decide (dim = 2) then placed (faces1 t) (grid1 n t) else [].

Lemma part3_canon dim s0 s1 s2 a b c :
  (a ≤ 1 ∨ b ≤ 1 ∨ c ≤ 1) ∨ valid3 s0 s1 s2 →
  part3 dim s0 s1 s2 a b c ≡ₚ canon3 dim s0 s1 s2 a b c.
Proof.
  intros H. unfold part3, canon3. case_decide; [|done].
  destruct H as [H|H].
  - by rewrite grid3_nil by done.
  - apply placed_Permutation, template3; [done|lia].
Qed.

Lemma part2_canon dim t0 t1 n0 n1 :
  (n0 ≤ 1 ∨ n1 ≤ 1) ∨ valid2 t0 t1 →
  part2 dim t0 t1 n0 n1 ≡ₚ canon2 dim t0 t1 n0 n1.
Proof.
  intros H. unfold part2, canon2. case_decide; [|done].
  destruct H as [H|H].
  - by rewrite grid2_nil by done.
  - apply placed_Permutation, template2; [done|lia].
Qed.

Lemma part1_canon dim t n :
  0 < t → part1 dim t n ≡ₚ canon1 dim t n.
Proof.
  intros H. unfold part1, canon1. case_decide; [|done].
  by apply placed_Permutation, template1.
Qed.

Definition canon_stream3 (a b c dim : Z) : list face :=
  canon3 dim (b * c) c 1 a b c ++
  (canon2 dim (b * c) c a b ++ canon2 dim (b * c) 1 a c ++
   canon2 dim c 1 b c) ++
  (canon1 dim (b * c) a ++ canon1 dim c b ++ canon1 dim 1 c) ++
  vertices dim (a * b * c).

Definition canon_stream2 (a b dim : Z) : list face :=
  canon2 dim b 1 a b ++
  (canon1 dim b a ++ canon1 dim 1 b) ++
  vertices dim (a * b).

Lemma c_strides3_pos a b c :
  0 < a → 0 < b → 0 < c → c_strides3 a b c = (b * c, c, 1).
Proof. intros. unfold c_strides3. by rewrite decide_False by lia. Qed.

Lemma c_strides2_pos a b : 0 < a → 0 < b → c_strides2 a b = (b, 1).
Proof. intros. unfold c_strides2. by rewrite decide_False by lia. Qed.

Ltac canon_part :=
  first [ apply part3_canon | apply part2_canon | apply part1_canon; nia ];
  match goal with
  | |- ?empty ∨ _ =>
      destruct (decide empty);
      [by left | right; unfold valid3, valid2; nia]
  end.

Lemma stream3_canon a b c dim :
  0 < a → 0 < b → 0 < c → stream3 a b c dim ≡ₚ canon_stream3 a b c dim.
Proof.
  intros Ha Hb Hc. unfold stream3, canon_stream3.
  rewrite c_strides3_pos by done. cbv zeta. cbn [fst snd].
  repeat apply Permutation_app; try reflexivity; canon_part.
Qed.

Lemma stream2_canon a b dim :
  0 < a → 0 < b → stream2 a b dim ≡ₚ canon_stream2 a b dim.
Proof.
  intros Ha Hb. unfold stream2, canon_stream2.
  rewrite c_strides2_pos by done. cbv zeta. cbn [fst snd].
  repeat apply Permutation_app; try reflexivity; canon_part.
Qed.

(** * The requested dimension *)

Lemma part3_out dim s0 s1 s2 a b c :
  ¬ (2 ≤ dim ≤ 4) → part3 dim s0 s1 s2 a b c = [].
Proof. intros. unfold part3. by rewrite decide_False. Qed.

Lemma part2_out dim t0 t1 n0 n1 :
  ¬ (2 ≤ dim ≤ 3) → part2 dim t0 t1 n0 n1 = [].
Proof. intros. unfold part2. by rewrite decide_False. Qed.

Lemma part1_out dim t n : dim ≠ 2 → part1 dim t n = [].
Proof. intros. unfold part1. by rewrite decide_False. Qed.

Lemma vertices_out dim n : dim ≠ 1 → vertices dim n = [].
Proof. intros. unfold vertices. by rewrite decide_False. Qed.

Lemma stream3_vertices a b c : stream3 a b c 1 = Vertex <$> range (a * b * c).
Proof.
  unfold stream3. cbv zeta.
  rewrite part3_out, !part2_out, !part1_out by lia. done.
Qed.

Lemma stream2_vertices a b : stream2 a b 1 = Vertex <$> range (a * b).
Proof.
  unfold stream2. cbv zeta.
  rewrite !part2_out, !part1_out by lia. done.
Qed.

Lemma vertex_stream n :
  let l := Vertex <$> range n in
  length l = Z.to_nat n ∧ NoDup l ∧
  ∀ f, f ∈ l ↔ ∃ i, f = Vertex i ∧ 0 ≤ i < n.
Proof.
  cbv zeta. split_and!.
  - by rewrite length_fmap, length_range.
  - apply NoDup_fmap_2; [by intros ?? [= ->]|apply NoDup_seqZ].
  - intros f. rewrite list_elem_of_fmap. unfold range.
    setoid_rewrite elem_of_seqZ. split; intros (i & ? & ?); exists i;
      (split; [done|lia]).
Qed.

(** C3: with [dim == 1] both decomposers yield the bare indices
    [0 .. prod(shape) - 1], each exactly once, and nothing else. *)
Theorem C3_vertices_exactly_once a b c :
  0 < a → 0 < b → 0 < c →
  (decompose3d (a, b, c) 1 = Ok (Vertex <$> range (a * b * c)) ∧
   length (Vertex <$> range (a * b * c)) = Z.to_nat (a * b * c) ∧
   NoDup (Vertex <$> range (a * b * c)) ∧
   ∀ f, f ∈ Vertex <$> range (a * b * c) ↔
        ∃ i, f = Vertex i ∧ 0 ≤ i < a * b * c) ∧
  (decompose2d (a, b) 1 = Ok (Vertex <$> range (a * b)) ∧
   length (Vertex <$> range (a * b)) = Z.to_nat (a * b) ∧
   NoDup (Vertex <$> range (a * b)) ∧
   ∀ f, f ∈ Vertex <$> range (a * b) ↔ ∃ i, f = Vertex i ∧ 0 ≤ i < a * b).
Proof.
  intros Ha Hb Hc. split.
  - rewrite decompose3d_ok, stream3_vertices by lia.
    split; [done|]. apply vertex_stream.
  - rewrite decompose2d_ok, stream2_vertices by lia.
    split; [done|]. apply vertex_stream.
Qed.

Lemma C3_vertices_exactly_once_witness :
  decompose3d (3, 3, 3) 1 = Ok (Vertex <$> range 27) ∧
  decompose2d (4, 4) 1 = Ok (Vertex <$> range 16).
Proof.
  destruct (C3_vertices_exactly_once 3 3 3) as [(H3 & _) _]; [lia..|].
  destruct (C3_vertices_exactly_once 4 4 3) as [_ (H2 & _)]; [lia..|].
  split; [exact H3|exact H2].
Defined.

(** C8: a requested dimension outside 1..4 (outside 1..3 for
    [decompose2d]) makes the decomposer yield nothing, without raising. *)
Theorem C8_unsupported_dim_is_empty a b c dim :
  0 ≤ a → 0 ≤ b → 0 ≤ c →
  (¬ (1 ≤ dim ≤ 4) → decompose3d (a, b, c) dim = Ok []) ∧
  (¬ (1 ≤ dim ≤ 3) → decompose2d (a, b) dim = Ok []).
Proof.
  intros Ha Hb Hc. split; intros Hdim.
  - rewrite decompose3d_ok by done. f_equal. unfold stream3. cbv zeta.
    rewrite part3_out, !part2_out, !part1_out, vertices_out by lia. done.
  - rewrite decompose2d_ok by done. f_equal. unfold stream2. cbv zeta.
    rewrite !part2_out, !part1_out, vertices_out by lia. done.
Qed.

Lemma C8_unsupported_dim_is_empty_witness :
  decompose3d (3, 4, 5) 5 = Ok [] ∧ decompose3d (3, 4, 5) 0 = Ok [] ∧
  decompose2d (3, 4) 4 = Ok [] ∧ decompose2d (3, 4) 0 = Ok [].
Proof.
  split_and!.
  - apply (C8_unsupported_dim_is_empty 3 4 5 5); lia.
  - apply (C8_unsupported_dim_is_empty 3 4 5 0); lia.
  - apply (C8_unsupported_dim_is_empty 3 4 5 4); lia.
  - apply (C8_unsupported_dim_is_empty 3 4 5 0); lia.
Defined.

(** * Degenerate axes *)

Lemma interior_degenerate dim s0 s1 s2 a b c :
  a ≤ 1 ∨ b ≤ 1 ∨ c ≤ 1 → interior dim (s0, s1, s2) (a, b, c) = Ok [].
Proof.
  intros H. rewrite interior_ok, grid3_nil by done. by case_decide.
Qed.

Lemma slab_degenerate dim t0 t1 n0 n1 :
  n0 ≤ 1 ∨ n1 ≤ 1 → slab dim (t0, t1) (n0, n1) = Ok [].
Proof.
  intros H. rewrite slab_ok, grid2_nil by done. by case_decide.
Qed.

Lemma edge_degenerate dim t n : n ≤ 1 → edge dim t n = Ok [].
Proof.
  intros H. rewrite edge_ok, grid1_nil by done. by case_decide.
Qed.

(** C9: on a shape with an axis of length at most 1, [decompose3d]
    returns normally for every requested dimension; with the strides
    that it takes from NumPy, the interior stratum, the two slabs that
    contain the degenerate axis and the edge stratum along it
    contribute nothing. *)
Theorem C9_degenerate_axis a b c dim :
  0 ≤ a → 0 ≤ b → 0 ≤ c → a ≤ 1 ∨ b ≤ 1 ∨ c ≤ 1 →
  ∃ s0 s1 s2,
    strides3 (a, b, c) = Ok (s0, s1, s2) ∧
    (∃ l, decompose3d (a, b, c) dim = Ok l) ∧
    interior dim (s0, s1, s2) (a, b, c) = Ok [] ∧
    (a ≤ 1 → slab dim (s0, s1) (a, b) = Ok [] ∧
             slab dim (s0, s2) (a, c) = Ok [] ∧ edge dim s0 a = Ok []) ∧
    (b ≤ 1 → slab dim (s0, s1) (a, b) = Ok [] ∧
             slab dim (s1, s2) (b, c) = Ok [] ∧ edge dim s1 b = Ok []) ∧
    (c ≤ 1 → slab dim (s0, s2) (a, c) = Ok [] ∧
             slab dim (s1, s2) (b, c) = Ok [] ∧ edge dim s2 c = Ok []).
Proof.
  intros Ha Hb Hc Hdeg.
  destruct (c_strides3 a b c) as [[s0 s1] s2] eqn:Hs.
  exists s0, s1, s2. split_and!.
  - unfold strides3. by rewrite decide_False, Hs by lia.
  - eexists. by apply decompose3d_ok.
  - by apply interior_degenerate.
  - intros. split_and!;
      [apply slab_degenerate; lia..|by apply edge_degenerate].
  - intros. split_and!;
      [apply slab_degenerate; lia..|by apply edge_degenerate].
  - intros. split_and!;
      [apply slab_degenerate; lia..|by apply edge_degenerate].
Qed.

Lemma C9_degenerate_axis_witness :
  (∃ s0 s1 s2,
     strides3 (3, 1, 4) = Ok (s0, s1, s2) ∧
     (∃ l, decompose3d (3, 1, 4) 3 = Ok l) ∧
     interior 3 (s0, s1, s2) (3, 1, 4) = Ok [] ∧
     (3 ≤ 1 → slab 3 (s0, s1) (3, 1) = Ok [] ∧
              slab 3 (s0, s2) (3, 4) = Ok [] ∧ edge 3 s0 3 = Ok []) ∧
     (1 ≤ 1 → slab 3 (s0, s1) (3, 1) = Ok [] ∧
              slab 3 (s1, s2) (1, 4) = Ok [] ∧ edge 3 s1 1 = Ok []) ∧
     (4 ≤ 1 → slab 3 (s0, s2) (3, 4) = Ok [] ∧
              slab 3 (s1, s2) (1, 4) = Ok [] ∧ edge 3 s2 4 = Ok [])) ∧
  (∃ s0 s1 s2,
     strides3 (3, 0, 4) = Ok (s0, s1, s2) ∧
     (∃ l, decompose3d (3, 0, 4) 2 = Ok l) ∧
     interior 2 (s0, s1, s2) (3, 0, 4) = Ok [] ∧
     (3 ≤ 1 → slab 2 (s0, s1) (3, 0) = Ok [] ∧
              slab 2 (s0, s2) (3, 4) = Ok [] ∧ edge 2 s0 3 = Ok []) ∧
     (0 ≤ 1 → slab 2 (s0, s1) (3, 0) = Ok [] ∧
              slab 2 (s1, s2) (0, 4) = Ok [] ∧ edge 2 s1 0 = Ok []) ∧
     (4 ≤ 1 → slab 2 (s0, s2) (3, 4) = Ok [] ∧
              slab 2 (s1, s2) (0, 4) = Ok [] ∧ edge 2 s2 4 = Ok [])).
Proof.
  split.
  - apply (C9_degenerate_axis 3 1 4 3); lia.
  - apply (C9_degenerate_axis 3 0 4 2); lia.
Defined.

(** * Counting the simplices *)

Lemma tally_length sign ec stream :
  tally sign ec stream =
    (Z.of_nat (length stream), ec + sign * Z.of_nat (length stream)).
Proof.
  unfold tally.
  enough (∀ n, foldl (λ '(n, ec) _, (n + 1, ec + sign)) (n, ec) stream =
               (n + Z.of_nat (length stream),
                ec + sign * Z.of_nat (length stream))) as ->
    by (f_equal; lia).
  revert ec. induction stream as [|f l IH]; intros ec n.
  - simpl. f_equal; lia.
  - cbn [foldl length]. rewrite IH. f_equal; lia.
Qed.

Lemma length_faces3 s0 s1 s2 (k : nat) :
  length (faces3 s0 s1 s2 k) = length (tops cube3 7 k).
Proof. unfold faces3, rename. by rewrite !length_fmap. Qed.

Lemma length_faces2 t0 t1 (k : nat) :
  length (faces2 t0 t1 k) = length (tops cube2 3 k).
Proof. unfold faces2, rename. by rewrite !length_fmap. Qed.

Lemma length_faces1 t : length (faces1 t) = 1%nat.
Proof. unfold faces1, rename. by rewrite !length_fmap. Qed.

(** The number of simplices of each stratum. *)
Definition count3 (dim : Z) : Z :=
  if decide (dim = 4) then 6 else if decide (dim = 3) then 12
  else if decide (dim = 2) then 7 else 0.
Definition count2 (dim : Z) : Z :=
  if decide (dim = 3) then 2 else if decide (dim = 2) then 3 else 0.
Definition count1 (dim : Z) : Z := if decide (dim = 2) then 1 else 0.

Lemma length_canon3 dim s0 s1 s2 a b c :
  1 ≤ a → 1 ≤ b → 1 ≤ c →
  Z.of_nat (length (canon3 dim s0 s1 s2 a b c)) =
    (a - 1) * (b - 1) * (c - 1) * count3 dim.
Proof.
  intros Ha Hb Hc. unfold canon3, count3. case_decide as Hd.
  - rewrite length_placed, length_grid3, length_faces3.
    assert (dim = 2 ∨ dim = 3 ∨ dim = 4) as [-> | [-> | ->]] by lia;
      simpl; nia.
  - repeat case_decide; simpl; lia.
Qed.

Lemma length_canon2 dim t0 t1 n0 n1 :
  1 ≤ n0 → 1 ≤ n1 →
  Z.of_nat (length (canon2 dim t0 t1 n0 n1)) =
    (n0 - 1) * (n1 - 1) * count2 dim.
Proof.
  intros Ha Hb. unfold canon2, count2. case_decide as Hd.
  - rewrite length_placed, length_grid2, length_faces2.
    assert (dim = 2 ∨ dim = 3) as [-> | ->] by lia; simpl; nia.
  - repeat case_decide; simpl; lia.
Qed.

Lemma length_canon1 dim t n :
  1 ≤ n → Z.of_nat (length (canon1 dim t n)) = (n - 1) * count1 dim.
Proof.
  intros Ha. unfold canon1, count1. case_decide as Hd.
  - rewrite length_placed, length_grid1, length_faces1. lia.
  - simpl. lia.
Qed.

Lemma length_vertices dim n :
  0 ≤ n →
  Z.of_nat (length (vertices dim n)) = if decide (dim = 1) then n else 0.
Proof.
  intros. unfold vertices. case_decide; [|done].
  rewrite length_fmap, length_range. lia.
Qed.

Lemma length_stream3 a b c dim :
  1 ≤ a → 1 ≤ b → 1 ≤ c →
  Z.of_nat (length (stream3 a b c dim)) =
    (a - 1) * (b - 1) * (c - 1) * count3 dim +
    ((a - 1) * (b - 1) + (a - 1) * (c - 1) + (b - 1) * (c - 1)) * count2 dim +
    ((a - 1) + (b - 1) + (c - 1)) * count1 dim +
    (if decide (dim = 1) then a * b * c else 0).
Proof.
  intros Ha Hb Hc. rewrite stream3_canon by lia. unfold canon_stream3.
  rewrite !length_app, !Nat2Z.inj_add, length_canon3, !length_canon2,
    !length_canon1, length_vertices by nia.
  lia.
Qed.

Lemma length_stream2 a b dim :
  1 ≤ a → 1 ≤ b →
  Z.of_nat (length (stream2 a b dim)) =
    (a - 1) * (b - 1) * count2 dim +
    ((a - 1) + (b - 1)) * count1 dim +
    (if decide (dim = 1) then a * b else 0).
Proof.
  intros Ha Hb. rewrite stream2_canon by lia. unfold canon_stream2.
  rewrite !length_app, !Nat2Z.inj_add, !length_canon2,
    !length_canon1, length_vertices by nia.
  lia.
Qed.

(** C1: the alternating count of the simplices of a grid is 1. *)
Theorem C1_euler_characteristic a b c :
  2 ≤ a → 2 ≤ b → 2 ≤ c →
  (∃ ts fs es vs, test_EC3 (a, b, c) = Ok (ts, fs, es, vs, 1)) ∧
  (∃ fs es vs, test_EC2 (a, b) = Ok (fs, es, vs, 1)).
Proof.
  intros Ha Hb Hc. split.
  - unfold test_EC3. rewrite !decompose3d_ok by lia.
    repeat first [ rewrite bind_Ok | rewrite tally_length
                 | progress cbv beta iota zeta ].
    rewrite !length_stream3 by lia.
    do 4 eexists. do 2 f_equal. unfold count3, count2, count1. simpl. lia.
  - unfold test_EC2. rewrite !decompose2d_ok by lia.
    repeat first [ rewrite bind_Ok | rewrite tally_length
                 | progress cbv beta iota zeta ].
    rewrite !length_stream2 by lia.
    do 3 eexists. do 2 f_equal. unfold count2, count1. simpl. lia.
Qed.

Lemma C1_euler_characteristic_witness :
  (∃ ts fs es vs, test_EC3 (2, 3, 4) = Ok (ts, fs, es, vs, 1)) ∧
  (∃ fs es vs, test_EC2 (2, 3) = Ok (fs, es, vs, 1)).
Proof. apply (C1_euler_characteristic 2 3 4); lia. Defined.

(** * The simplices of a stratum *)

(** A tuple of [k] strictly increasing indices between [lo] and [hi]
    that ends with [hi]. *)
Definition anchored (k : nat) (lo hi : Z) (f : face) : Prop :=
  ∃ vs, f = Simplex vs ∧ length vs = k ∧ StronglySorted Z.lt vs ∧
        last vs = Some hi ∧ Forall (λ v, lo ≤ v ≤ hi) vs.

(** What the renaming of a template needs from it. *)
Definition good_template (top : Z) (k : nat) (T : list (list Z)) : Prop :=
  Forall (λ f0, length f0 = k ∧ StronglySorted Z.lt f0 ∧
                last f0 = Some top ∧ Forall (λ w, 0 ≤ w ≤ top) f0) T.

#[global] Instance good_template_dec top k T : Decision (good_template top k T).
Proof. unfold good_template. apply _. Defined.

Lemma good_tops3 k : (2 ≤ k ≤ 4)%nat → good_template 7 k (tops cube3 7 k).
Proof. intros Hk. destruct k as [|[|[|[|[|k]]]]]; try lia; by_compute. Qed.

Lemma good_tops2 k : (2 ≤ k ≤ 3)%nat → good_template 3 k (tops cube2 3 k).
Proof. intros Hk. destruct k as [|[|[|[|k]]]]; try lia; by_compute. Qed.

Lemma good_tops1 : good_template 1 2 (tops cube1 1 2).
Proof. by_compute. Qed.

Lemma elem_of_placed φ T grid f :
  f ∈ placed (Simplex <$> rename φ T) grid ↔
    ∃ index f0, index ∈ grid ∧ f0 ∈ T ∧
                f = Simplex ((λ w, index + φ w) <$> f0).
Proof.
  unfold placed, rename. rewrite list_elem_of_bind. split.
  - intros (index & Hf & Hindex).
    apply list_elem_of_fmap in Hf as (f1 & -> & Hf1).
    apply list_elem_of_fmap in Hf1 as (vs & -> & Hvs).
    apply list_elem_of_fmap in Hvs as (f0 & -> & Hf0).
    exists index, f0. split_and!; [done..|].
    simpl. by rewrite <-list_fmap_compose.
  - intros (index & f0 & Hindex & Hf0 & ->). exists index.
    split; [|done]. apply list_elem_of_fmap. exists (Simplex (φ <$> f0)).
    split; [simpl; by rewrite <-list_fmap_compose|].
    apply list_elem_of_fmap_2, list_elem_of_fmap_2, Hf0.
Qed.

Section placed.
Variables (φ : Z → Z) (top : Z) (k : nat) (T : list (list Z)).
Hypothesis Hφ : increasing φ.
Hypothesis Hφ0 : φ 0 = 0.
Hypothesis HT : good_template top k T.

Lemma renamed_anchored index f0 :
  f0 ∈ T →
  anchored k index (index + φ top) (Simplex ((λ w, index + φ w) <$> f0)).
Proof.
  intros Hf0. unfold good_template in HT.
  rewrite list.Forall_forall in HT.
  destruct (HT f0 Hf0) as (Hlen & Hsort & Hlast & Hrange).
  exists ((λ w, index + φ w) <$> f0). split_and!; [done| | | |].
  - by rewrite length_fmap.
  - eapply StronglySorted_fmap; [|done]. intros x y Hxy. simpl.
    apply Hφ in Hxy. lia.
  - by rewrite fmap_last, Hlast.
  - apply Forall_fmap. eapply Forall_impl; [done|]. intros w [Hw0 Hw].
    simpl. apply (increasing_le φ) in Hw0, Hw; [|done..]. lia.
Qed.

Lemma placed_anchored grid f :
  f ∈ placed (Simplex <$> rename φ T) grid →
  ∃ index, index ∈ grid ∧ anchored k index (index + φ top) f.
Proof.
  intros (index & f0 & Hindex & Hf0 & ->)%elem_of_placed.
  exists index. split; [done|]. by apply renamed_anchored.
Qed.

Lemma NoDup_placed grid :
  NoDup T → NoDup grid → NoDup (placed (Simplex <$> rename φ T) grid).
Proof.
  intros HTnd Hgrid. unfold placed. apply NoDup_bind; [| |done].
  - intros i1 i2 f _ _ Hf1 Hf2.
    assert (f ∈ placed (Simplex <$> rename φ T) [i1]) as H1
      by (unfold placed; by rewrite bind_singleton).
    assert (f ∈ placed (Simplex <$> rename φ T) [i2]) as H2
      by (unfold placed; by rewrite bind_singleton).
    apply placed_anchored in H1 as (? & ->%list_elem_of_singleton & H1).
    apply placed_anchored in H2 as (? & ->%list_elem_of_singleton & H2).
    destruct H1 as (vs & -> & _ & _ & Hl1 & _).
    destruct H2 as (vs' & [= <-] & _ & _ & Hl2 & _).
    rewrite Hl1 in Hl2. injection Hl2. lia.
  - intros index _. pose proof (increasing_inj φ Hφ).
    apply NoDup_fmap_2; [apply face_map_inj; by intros ???; lia|].
    unfold rename. rewrite <-list_fmap_compose.
    apply NoDup_fmap_2_strong; [|done].
    intros x y _ _ [= Heq]. revert Heq. apply (inj (fmap φ)).
Qed.
End placed.

Lemma anchored_weaken k lo lo' hi hi' f :
  anchored k lo hi f → lo' ≤ lo → hi = hi' → anchored k lo' hi' f.
Proof.
  intros (vs & -> & Hlen & Hsort & Hlast & Hall) Hlo <-.
  exists vs. split_and!; try done.
  eapply Forall_impl; [done|]. intros v ?. simpl in *. lia.
Qed.

(** ** The positions of a stratum *)

Lemma elem_of_range n i : i ∈ range n ↔ 0 ≤ i < n.
Proof. unfold range. rewrite elem_of_seqZ. lia. Qed.

Lemma elem_of_grid3 a b c s0 s1 s2 index :
  index ∈ grid3 a b c s0 s1 s2 ↔
    ∃ i j k, 0 ≤ i < a - 1 ∧ 0 ≤ j < b - 1 ∧ 0 ≤ k < c - 1 ∧
             index = i * s0 + j * s1 + k * s2.
Proof.
  unfold grid3. split.
  - intros (i & (j & (k & ->%list_elem_of_singleton & Hk)%list_elem_of_bind
                  & Hj)%list_elem_of_bind & Hi)%list_elem_of_bind.
    apply elem_of_range in Hi, Hj, Hk. by exists i, j, k.
  - intros (i & j & k & Hi & Hj & Hk & ->).
    apply list_elem_of_bind. exists i. split; [|by apply elem_of_range].
    apply list_elem_of_bind. exists j. split; [|by apply elem_of_range].
    apply list_elem_of_bind. exists k. split; [|by apply elem_of_range].
    by apply list_elem_of_singleton.
Qed.

Lemma elem_of_grid2 n0 n1 t0 t1 index :
  index ∈ grid2 n0 n1 t0 t1 ↔
    ∃ i j, 0 ≤ i < n0 - 1 ∧ 0 ≤ j < n1 - 1 ∧ index = i * t0 + j * t1.
Proof.
  unfold grid2. split.
  - intros (i & (j & ->%list_elem_of_singleton & Hj)%list_elem_of_bind
              & Hi)%list_elem_of_bind.
    apply elem_of_range in Hi, Hj. by exists i, j.
  - intros (i & j & Hi & Hj & ->).
    apply list_elem_of_bind. exists i. split; [|by apply elem_of_range].
    apply list_elem_of_bind. exists j. split; [|by apply elem_of_range].
    by apply list_elem_of_singleton.
Qed.

Lemma elem_of_grid1 n t index :
  index ∈ grid1 n t ↔ ∃ i, 0 ≤ i < n - 1 ∧ index = i * t.
Proof.
  unfold grid1. split.
  - intros (i & ->%list_elem_of_singleton & Hi)%list_elem_of_bind.
    apply elem_of_range in Hi. by exists i.
  - intros (i & Hi & ->).
    apply list_elem_of_bind. exists i. split; [|by apply elem_of_range].
    by apply list_elem_of_singleton.
Qed.

Lemma NoDup_range n : NoDup (range n).
Proof. apply NoDup_seqZ. Qed.

Lemma NoDup_grid1 n t : t ≠ 0 → NoDup (grid1 n t).
Proof.
  intros Ht. unfold grid1. apply NoDup_bind; [| |apply NoDup_range].
  - intros i i' x _ _ ->%list_elem_of_singleton ?%list_elem_of_singleton. nia.
  - intros. apply NoDup_singleton.
Qed.

Lemma NoDup_grid2 n0 n1 t0 t1 :
  (∀ i j i' j', 0 ≤ i < n0 - 1 → 0 ≤ j < n1 - 1 →
                0 ≤ i' < n0 - 1 → 0 ≤ j' < n1 - 1 →
                i * t0 + j * t1 = i' * t0 + j' * t1 → i = i' ∧ j = j') →
  NoDup (grid2 n0 n1 t0 t1).
Proof.
  intros Hinj. unfold grid2. apply NoDup_bind; [| |apply NoDup_range].
  - intros i i' x Hi Hi' (j & ->%list_elem_of_singleton & Hj)%list_elem_of_bind
      (j' & Hx%list_elem_of_singleton & Hj')%list_elem_of_bind.
    apply elem_of_range in Hi, Hi', Hj, Hj'.
    by destruct (Hinj i j i' j').
  - intros i Hi. apply NoDup_bind; [| |apply NoDup_range].
    + intros j j' x Hj Hj' ->%list_elem_of_singleton Hx%list_elem_of_singleton.
      apply elem_of_range in Hi, Hj, Hj'. by destruct (Hinj i j i j').
    + intros. apply NoDup_singleton.
Qed.

Lemma NoDup_grid3 a b c s0 s1 s2 :
  (∀ i j k i' j' k',
     0 ≤ i < a - 1 → 0 ≤ j < b - 1 → 0 ≤ k < c - 1 →
     0 ≤ i' < a - 1 → 0 ≤ j' < b - 1 → 0 ≤ k' < c - 1 →
     i * s0 + j * s1 + k * s2 = i' * s0 + j' * s1 + k' * s2 →
     i = i' ∧ j = j' ∧ k = k') →
  NoDup (grid3 a b c s0 s1 s2).
Proof.
  intros Hinj. unfold grid3. apply NoDup_bind; [| |apply NoDup_range].
  - intros i i' x Hi Hi' (j & (k & ->%list_elem_of_singleton & Hk)
                            %list_elem_of_bind & Hj)%list_elem_of_bind
      (j' & (k' & Hx%list_elem_of_singleton & Hk')
         %list_elem_of_bind & Hj')%list_elem_of_bind.
    apply elem_of_range in Hi, Hi', Hj, Hj', Hk, Hk'.
    by destruct (Hinj i j k i' j' k') as (? & ? & ?).
  - intros i Hi. apply NoDup_bind; [| |apply NoDup_range].
    + intros j j' x Hj Hj' (k & ->%list_elem_of_singleton & Hk)%list_elem_of_bind
        (k' & Hx%list_elem_of_singleton & Hk')%list_elem_of_bind.
      apply elem_of_range in Hi, Hj, Hj', Hk, Hk'.
      by destruct (Hinj i j k i j' k') as (? & ? & ?).
    + intros j Hj. apply NoDup_bind; [| |apply NoDup_range].
      * intros k k' x Hk Hk' ->%list_elem_of_singleton
          Hx%list_elem_of_singleton.
        apply elem_of_range in Hi, Hj, Hk, Hk'.
        by destruct (Hinj i j k i j k') as (? & ? & ?).
      * intros. apply NoDup_singleton.
Qed.

(** The flattened index of the grid point [(I, J, K)]. *)
Definition flat (b c I J K : Z) : Z := I * (b * c) + J * c + K.

Lemma flat_inj b c I J K I' J' K' :
  0 ≤ J < b → 0 ≤ K < c → 0 ≤ J' < b → 0 ≤ K' < c →
  flat b c I J K = flat b c I' J' K' → I = I' ∧ J = J' ∧ K = K'.
Proof.
  unfold flat. intros HJ HK HJ' HK' Heq.
  assert ((I - I') * b + (J - J') = 0) as H0 by nia.
  assert (I - I' = 0) by nia. lia.
Qed.

(** ** The simplices of each kind of stratum *)

Lemma phi3_0 s0 s1 s2 : phi3 s0 s1 s2 0 = 0.
Proof. unfold phi3. eval_divmod. lia. Qed.
Lemma phi3_7 s0 s1 s2 : phi3 s0 s1 s2 7 = s0 + s1 + s2.
Proof. unfold phi3. eval_divmod. lia. Qed.
Lemma phi2_0 t0 t1 : phi2 t0 t1 0 = 0.
Proof. unfold phi2. eval_divmod. lia. Qed.
Lemma phi2_3 t0 t1 : phi2 t0 t1 3 = t0 + t1.
Proof. unfold phi2. eval_divmod. lia. Qed.

Lemma NoDup_tops cube top k : NoDup (tops cube top k).
Proof. apply NoDup_remove_dups. Qed.

Lemma canon3_anchored dim s0 s1 s2 a b c f :
  valid3 s0 s1 s2 → f ∈ canon3 dim s0 s1 s2 a b c →
  ∃ i j k, 2 ≤ dim ∧ 0 ≤ i < a - 1 ∧ 0 ≤ j < b - 1 ∧ 0 ≤ k < c - 1 ∧
           anchored (Z.to_nat dim) (i * s0 + j * s1 + k * s2)
                    ((i + 1) * s0 + (j + 1) * s1 + (k + 1) * s2) f.
Proof.
  intros Hs. unfold canon3. case_decide as Hd; [|by intros ?%elem_of_nil].
  intros (index & Hindex & Hf)%(placed_anchored _ 7 (Z.to_nat dim)).
  - apply elem_of_grid3 in Hindex as (i & j & k & Hi & Hj & Hk & ->).
    exists i, j, k. split; [lia|]. do 3 (split; [done|]).
    eapply anchored_weaken; [done|lia|]. rewrite phi3_7. lia.
  - by apply phi3_increasing.
  - apply phi3_0.
  - apply good_tops3. lia.
Qed.

Lemma canon2_anchored dim t0 t1 n0 n1 f :
  valid2 t0 t1 → f ∈ canon2 dim t0 t1 n0 n1 →
  ∃ i j, 2 ≤ dim ∧ 0 ≤ i < n0 - 1 ∧ 0 ≤ j < n1 - 1 ∧
         anchored (Z.to_nat dim) (i * t0 + j * t1)
                  ((i + 1) * t0 + (j + 1) * t1) f.
Proof.
  intros Hs. unfold canon2. case_decide as Hd; [|by intros ?%elem_of_nil].
  intros (index & Hindex & Hf)%(placed_anchored _ 3 (Z.to_nat dim)).
  - apply elem_of_grid2 in Hindex as (i & j & Hi & Hj & ->).
    exists i, j. split; [lia|]. do 2 (split; [done|]).
    eapply anchored_weaken; [done|lia|]. rewrite phi2_3. lia.
  - by apply phi2_increasing.
  - apply phi2_0.
  - apply good_tops2. lia.
Qed.

Lemma canon1_anchored dim t n f :
  0 < t → f ∈ canon1 dim t n →
  ∃ i, 2 ≤ dim ∧ 0 ≤ i < n - 1 ∧ anchored (Z.to_nat dim) (i * t) ((i + 1) * t) f.
Proof.
  intros Hs. unfold canon1. case_decide as Hd; [|by intros ?%elem_of_nil].
  subst dim. intros (index & Hindex & Hf)%(placed_anchored _ 1 2).
  - apply elem_of_grid1 in Hindex as (i & Hi & ->).
    exists i. split; [lia|]. split; [done|].
    eapply anchored_weaken; [done|lia|]. unfold phi1. lia.
  - by apply phi1_increasing.
  - done.
  - apply good_tops1.
Qed.

Lemma NoDup_canon3 dim s0 s1 s2 a b c :
  valid3 s0 s1 s2 → NoDup (grid3 a b c s0 s1 s2) →
  NoDup (canon3 dim s0 s1 s2 a b c).
Proof.
  intros Hs Hgrid. unfold canon3. case_decide; [|apply NoDup_nil_2].
  eapply (NoDup_placed _ 7 (Z.to_nat dim));
    [by apply phi3_increasing|apply phi3_0|apply good_tops3; lia
    |apply NoDup_tops|done].
Qed.

Lemma NoDup_canon2 dim t0 t1 n0 n1 :
  valid2 t0 t1 → NoDup (grid2 n0 n1 t0 t1) →
  NoDup (canon2 dim t0 t1 n0 n1).
Proof.
  intros Hs Hgrid. unfold canon2. case_decide; [|apply NoDup_nil_2].
  eapply (NoDup_placed _ 3 (Z.to_nat dim));
    [by apply phi2_increasing|apply phi2_0|apply good_tops2; lia
    |apply NoDup_tops|done].
Qed.

Lemma NoDup_canon1 dim t n : 0 < t → NoDup (canon1 dim t n).
Proof.
  intros Hs. unfold canon1. case_decide; [|apply NoDup_nil_2].
  eapply (NoDup_placed _ 1 2);
    [by apply phi1_increasing|done|apply good_tops1|apply NoDup_tops|].
  apply NoDup_grid1. lia.
Qed.

Lemma canon3_nil dim s0 s1 s2 a b c :
  a ≤ 1 ∨ b ≤ 1 ∨ c ≤ 1 → canon3 dim s0 s1 s2 a b c = [].
Proof. intros. unfold canon3. rewrite grid3_nil by done. by case_decide. Qed.

Lemma canon2_nil dim t0 t1 n0 n1 :
  n0 ≤ 1 ∨ n1 ≤ 1 → canon2 dim t0 t1 n0 n1 = [].
Proof. intros. unfold canon2. rewrite grid2_nil by done. by case_decide. Qed.

(** ** Streams made of parts that are told apart by a tag *)

Lemma NoDup_parts {A T} (tag : T → A → Prop) (parts : list (list A))
    (tags : list T) :
  (∀ x t t', tag t x → tag t' x → t = t') →
  Forall2 (λ p t, NoDup p ∧ Forall (tag t) p) parts tags →
  NoDup tags → NoDup (mjoin parts).
Proof.
  intros Hfun Hparts. induction Hparts as [|p t ps ts [Hp Ht] Hrest IH];
    intros Htags; [constructor|].
  apply NoDup_cons in Htags as [Hnotin Htags]. csimpl.
  apply NoDup_app. split_and!; [done| |by apply IH].
  intros x Hx (p' & Hxp' & Hp')%list_elem_of_join.
  apply Hnotin. clear IH Htags Hnotin.
  rewrite list.Forall_forall in Ht. apply Ht in Hx.
  induction Hrest as [|q t' qs ts' [_ Hq] Hrest IH]; [by apply elem_of_nil in Hp'|].
  apply elem_of_cons in Hp' as [->|Hp'].
  - rewrite list.Forall_forall in Hq. apply Hq in Hxp'.
    rewrite (Hfun x t t' Hx Hxp'). left.
  - right. by apply IH.
Qed.

Lemma Forall_parts {A T} (tag : T → A → Prop) (P : A → Prop)
    (parts : list (list A)) (tags : list T) :
  (∀ x t, tag t x → P x) →
  Forall2 (λ p t, NoDup p ∧ Forall (tag t) p) parts tags →
  Forall P (mjoin parts).
Proof.
  intros HP Hparts. apply Forall_join.
  induction Hparts as [|p t ps ts [_ Ht] Hrest IH]; constructor; [|done].
  eapply Forall_impl; [done|]. intros x. apply HP.
Qed.

(** ** The simplices of the grid of shape [(a, b, c)] *)

(** A simplex whose last vertex is the grid point [(I, J, K)]; the
    flags say which of its coordinates are positive. *)
Definition cell (a b c : Z) (k : nat) (e : bool * bool * bool) (f : face)
  : Prop :=
  ∃ I J K, (2 ≤ k)%nat ∧ 0 ≤ I < a ∧ 0 ≤ J < b ∧ 0 ≤ K < c ∧
           (e.1.1 ↔ 0 < I) ∧ (e.1.2 ↔ 0 < J) ∧ (e.2 ↔ 0 < K) ∧
           anchored k 0 (flat b c I J K) f.

(** The tag of a part: the flags of its cells, or none for the part of
    the bare vertices. *)
Definition tagged (a b c : Z) (k : nat) (t : option (bool * bool * bool))
    (f : face) : Prop :=
  match t with
  | Some e => cell a b c k e f
  | None => k = 1%nat ∧ ∃ i, f = Vertex i ∧ 0 ≤ i < a * b * c
  end.

Lemma bool_iff_eq (x y : bool) (P : Prop) : (x ↔ P) → (y ↔ P) → x = y.
Proof. destruct x, y; simpl; tauto. Qed.

Lemma tagged_fun a b c k f t t' :
  tagged a b c k t f → tagged a b c k t' f → t = t'.
Proof.
  destruct t as [[[e0 e1] e2]|], t' as [[[e0' e1'] e2']|]; simpl; try done.
  - intros (I & J & K & _ & HI & HJ & HK & H0 & H1 & H2
              & vs & -> & _ & _ & Hl & _)
           (I' & J' & K' & _ & HI' & HJ' & HK' & H0' & H1' & H2' & vs' & [= <-]
              & _ & _ & Hl' & _).
    simpl in *. rewrite Hl in Hl'. injection Hl' as Heq.
    apply flat_inj in Heq as (-> & -> & ->); [|done..].
    by rewrite (bool_iff_eq e0 e0' _ H0 H0'), (bool_iff_eq e1 e1' _ H1 H1'),
      (bool_iff_eq e2 e2' _ H2 H2').
  - by intros (I & J & K & _ & _ & _ & _ & _ & _ & _ & vs & -> & _)
              (_ & i & ? & _).
  - by intros (_ & i & -> & _)
              (I & J & K & _ & _ & _ & _ & _ & _ & _ & vs & ? & _).
Qed.

Section grid.
Variables (a b c dim : Z).
Hypothesis Ha : 0 < a.
Hypothesis Hb : 0 < b.
Hypothesis Hc : 0 < c.

Lemma cell_111 f :
  f ∈ canon3 dim (b * c) c 1 a b c → cell a b c (Z.to_nat dim) (true, true, true) f.
Proof.
  destruct (decide (a ≤ 1 ∨ b ≤ 1 ∨ c ≤ 1)) as [H|H].
  { rewrite canon3_nil by done. by intros ?%elem_of_nil. }
  intros (i & j & l & Hd & Hi & Hj & Hl & Hf)%canon3_anchored;
    [|unfold valid3; nia].
  exists (i + 1), (j + 1), (l + 1). simpl.
  split_and!; try lia. eapply anchored_weaken; [done|nia|unfold flat; lia].
Qed.

Lemma cell_110 f :
  f ∈ canon2 dim (b * c) c a b → cell a b c (Z.to_nat dim) (true, true, false) f.
Proof.
  destruct (decide (a ≤ 1 ∨ b ≤ 1)) as [H|H].
  { rewrite canon2_nil by done. by intros ?%elem_of_nil. }
  intros (i & j & Hd & Hi & Hj & Hf)%canon2_anchored; [|unfold valid2; nia].
  exists (i + 1), (j + 1), 0. simpl.
  split_and!; try lia. eapply anchored_weaken; [done|nia|unfold flat; lia].
Qed.

Lemma cell_101 f :
  f ∈ canon2 dim (b * c) 1 a c → cell a b c (Z.to_nat dim) (true, false, true) f.
Proof.
  destruct (decide (a ≤ 1 ∨ c ≤ 1)) as [H|H].
  { rewrite canon2_nil by done. by intros ?%elem_of_nil. }
  intros (i & j & Hd & Hi & Hj & Hf)%canon2_anchored; [|unfold valid2; nia].
  exists (i + 1), 0, (j + 1). simpl.
  split_and!; try lia. eapply anchored_weaken; [done|nia|unfold flat; lia].
Qed.

Lemma cell_011 f :
  f ∈ canon2 dim c 1 b c → cell a b c (Z.to_nat dim) (false, true, true) f.
Proof.
  destruct (decide (b ≤ 1 ∨ c ≤ 1)) as [H|H].
  { rewrite canon2_nil by done. by intros ?%elem_of_nil. }
  intros (i & j & Hd & Hi & Hj & Hf)%canon2_anchored; [|unfold valid2; nia].
  exists 0, (i + 1), (j + 1). simpl.
  split_and!; try lia. eapply anchored_weaken; [done|nia|unfold flat; lia].
Qed.

Lemma cell_100 f :
  f ∈ canon1 dim (b * c) a → cell a b c (Z.to_nat dim) (true, false, false) f.
Proof.
  intros (i & Hd & Hi & Hf)%canon1_anchored; [|nia].
  exists (i + 1), 0, 0. simpl.
  split_and!; try lia. eapply anchored_weaken; [done|nia|unfold flat; lia].
Qed.

Lemma cell_010 f :
  f ∈ canon1 dim c b → cell a b c (Z.to_nat dim) (false, true, false) f.
Proof.
  intros (i & Hd & Hi & Hf)%canon1_anchored; [|nia].
  exists 0, (i + 1), 0. simpl.
  split_and!; try lia. eapply anchored_weaken; [done|nia|unfold flat; lia].
Qed.

Lemma cell_001 f :
  f ∈ canon1 dim 1 c → cell a b c (Z.to_nat dim) (false, false, true) f.
Proof.
  intros (i & Hd & Hi & Hf)%canon1_anchored; [|nia].
  exists 0, 0, (i + 1). simpl.
  split_and!; try lia. eapply anchored_weaken; [done|nia|unfold flat; lia].
Qed.
End grid.

(** The parts of the stream of [decompose3d] and their tags. *)
Definition parts3 (a b c dim : Z) : list (list face) :=
  [canon3 dim (b * c) c 1 a b c;
   canon2 dim (b * c) c a b; canon2 dim (b * c) 1 a c; canon2 dim c 1 b c;
   canon1 dim (b * c) a; canon1 dim c b; canon1 dim 1 c;
   vertices dim (a * b * c)].

Definition tags3 : list (option (bool * bool * bool)) :=
  [Some (true, true, true);
   Some (true, true, false); Some (true, false, true);
   Some (false, true, true);
   Some (true, false, false); Some (false, true, false);
   Some (false, false, true);
   None].

Lemma canon_stream3_parts a b c dim :
  canon_stream3 a b c dim = mjoin (parts3 a b c dim).
Proof.
  unfold canon_stream3, parts3. cbn [mjoin list_join].
  by rewrite <-!app_assoc, app_nil_r.
Qed.

Section parts.
Variables (a b c dim : Z).
Hypothesis Ha : 0 < a.
Hypothesis Hb : 0 < b.
Hypothesis Hc : 0 < c.

Lemma NoDup_part_111 : NoDup (canon3 dim (b * c) c 1 a b c).
Proof.
  destruct (decide (a ≤ 1 ∨ b ≤ 1 ∨ c ≤ 1)) as [H|H].
  { rewrite canon3_nil by done. constructor. }
  apply NoDup_canon3; [unfold valid3; nia|].
  apply NoDup_grid3. intros i j l i' j' l' ?????? Heq.
  apply (flat_inj b c); [lia..|]. unfold flat. lia.
Qed.

Lemma NoDup_part_110 : NoDup (canon2 dim (b * c) c a b).
Proof.
  destruct (decide (a ≤ 1 ∨ b ≤ 1)) as [H|H].
  { rewrite canon2_nil by done. constructor. }
  apply NoDup_canon2; [unfold valid2; nia|].
  apply NoDup_grid2. intros i j i' j' ???? Heq.
  destruct (flat_inj b c i j 0 i' j' 0) as (? & ? & _);
    [lia..|unfold flat; lia|done].
Qed.

Lemma NoDup_part_101 : NoDup (canon2 dim (b * c) 1 a c).
Proof.
  destruct (decide (a ≤ 1 ∨ c ≤ 1)) as [H|H].
  { rewrite canon2_nil by done. constructor. }
  apply NoDup_canon2; [unfold valid2; nia|].
  apply NoDup_grid2. intros i j i' j' ???? Heq.
  destruct (flat_inj b c i 0 j i' 0 j') as (? & _ & ?);
    [lia..|unfold flat; lia|done].
Qed.

Lemma NoDup_part_011 : NoDup (canon2 dim c 1 b c).
Proof.
  destruct (decide (b ≤ 1 ∨ c ≤ 1)) as [H|H].
  { rewrite canon2_nil by done. constructor. }
  apply NoDup_canon2; [unfold valid2; nia|].
  apply NoDup_grid2. intros i j i' j' ???? Heq.
  destruct (flat_inj b c 0 i j 0 i' j') as (_ & ? & ?);
    [lia..|unfold flat; lia|done].
Qed.

Lemma parts3_tagged :
  Forall2 (λ p t, NoDup p ∧ Forall (tagged a b c (Z.to_nat dim) t) p)
          (parts3 a b c dim) tags3.
Proof.
  unfold parts3, tags3.
  repeat match goal with
         | |- Forall2 _ (_ :: _) (_ :: _) => constructor
         | |- Forall2 _ [] [] => constructor
         end;
    (split; [|apply list.Forall_forall; intros f Hf; simpl]).
  - apply NoDup_part_111.
  - by apply cell_111.
  - apply NoDup_part_110.
  - by apply cell_110.
  - apply NoDup_part_101.
  - by apply cell_101.
  - apply NoDup_part_011.
  - by apply cell_011.
  - apply NoDup_canon1. nia.
  - by apply cell_100.
  - by apply NoDup_canon1.
  - by apply cell_010.
  - by apply NoDup_canon1.
  - by apply cell_001.
  - unfold vertices. case_decide; [apply vertex_stream|constructor].
  - unfold vertices in Hf. case_decide; [|by apply elem_of_nil in Hf].
    subst dim. split; [done|]. by apply vertex_stream in Hf.
Qed.

Lemma NoDup_canon_stream3 : NoDup (canon_stream3 a b c dim).
Proof.
  rewrite canon_stream3_parts.
  eapply (NoDup_parts (tagged a b c (Z.to_nat dim)));
    [|apply parts3_tagged|].
  - intros f t t'. apply tagged_fun.
  - unfold tags3. by_compute.
Qed.
End parts.

(** ** Every yielded simplex is well formed *)

(** A list of [dim] strictly increasing indices of the grid. *)
Definition wf_simplex (n dim : Z) (f : face) : Prop :=
  ∃ vs, f = Simplex vs ∧ Z.of_nat (length vs) = dim ∧
        StronglySorted Z.lt vs ∧ Forall (λ v, 0 ≤ v < n) vs.

(** What a decomposer may yield for the dimension [dim]. *)
Definition stream_elem (n dim : Z) (f : face) : Prop :=
  (dim = 1 ∧ ∃ i, f = Vertex i ∧ 0 ≤ i < n) ∨ (2 ≤ dim ∧ wf_simplex n dim f).

Lemma cell_wf a b c dim e f :
  0 < a → 0 < b → 0 < c →
  cell a b c (Z.to_nat dim) e f → 2 ≤ dim ∧ wf_simplex (a * b * c) dim f.
Proof.
  intros Ha Hb Hc (I & J & K & Hk & HI & HJ & HK & _ & _ & _
                     & vs & -> & Hlen & Hsort & _ & Hall).
  split; [lia|]. exists vs. split_and!; [done|lia|done|].
  assert (flat b c I J K < a * b * c).
  { unfold flat.
    assert (I * (b * c) ≤ (a - 1) * (b * c)) by nia.
    assert (J * c ≤ (b - 1) * c) by nia. nia. }
  eapply Forall_impl; [done|]. intros v. simpl. lia.
Qed.

Lemma tagged_stream_elem a b c dim t f :
  0 < a → 0 < b → 0 < c →
  tagged a b c (Z.to_nat dim) t f → 0 ≤ dim → stream_elem (a * b * c) dim f.
Proof.
  intros Ha Hb Hc Ht Hdim. destruct t as [e|]; simpl in Ht.
  - right. by eapply cell_wf.
  - left. destruct Ht as (Hk & Hi). split; [lia|done].
Qed.

Lemma canon_stream3_nonneg a b c dim :
  dim < 0 → canon_stream3 a b c dim = [].
Proof.
  intros. unfold canon_stream3, canon3, canon2, canon1, vertices.
  by rewrite !decide_False by lia.
Qed.

Lemma Forall_canon_stream3 a b c dim :
  0 < a → 0 < b → 0 < c →
  Forall (stream_elem (a * b * c) dim) (canon_stream3 a b c dim).
Proof.
  intros Ha Hb Hc. destruct (decide (dim < 0)) as [Hd|Hd].
  { rewrite canon_stream3_nonneg by done. constructor. }
  rewrite canon_stream3_parts.
  eapply (Forall_parts (tagged a b c (Z.to_nat dim)));
    [|by apply parts3_tagged].
  intros f t Ht. eapply tagged_stream_elem; [done..|lia].
Qed.

(** The stream of [decompose2d] on [(a, b)] is the stream of
    [decompose3d] on [(1, a, b)]. *)
Lemma canon_stream2_as3 a b dim :
  canon_stream2 a b dim = canon_stream3 1 a b dim.
Proof.
  unfold canon_stream2, canon_stream3.
  rewrite canon3_nil, (canon2_nil _ _ _ 1 a), (canon2_nil _ _ _ 1 b),
    Z.mul_1_l by lia.
  unfold canon1 at 3. rewrite grid1_nil by lia.
  by case_decide.
Qed.

(** ** The vertex sets of the yielded simplices *)

(** The unordered set of the vertices of a yielded element. *)
Definition vertex_set (f : face) : gset Z :=
  match f with
  | Vertex v => {[ v ]}
  | Simplex vs => list_to_set vs
  end.

Lemma StronglySorted_lt_NoDup (vs : list Z) :
  StronglySorted Z.lt vs → NoDup vs.
Proof.
  induction 1 as [|x l Hl IH Hx]; constructor; [|done].
  intros Hin. rewrite list.Forall_forall in Hx. apply Hx in Hin. lia.
Qed.

Lemma sorted_vertex_set (vs ws : list Z) :
  StronglySorted Z.lt vs → StronglySorted Z.lt ws →
  list_to_set (C := gset Z) vs = list_to_set ws → vs = ws.
Proof.
  intros Hvs Hws Heq.
  apply (StronglySorted_unique_strong Z.lt); [|done..|].
  - intros. lia.
  - apply NoDup_Permutation; [by apply StronglySorted_lt_NoDup..|].
    intros x. by rewrite <-!(elem_of_list_to_set (C := gset Z)), Heq.
Qed.

Lemma stream_elem_vertex_set n dim f g :
  stream_elem n dim f → stream_elem n dim g →
  vertex_set f = vertex_set g → f = g.
Proof.
  intros [(Hd & i & -> & _)|(Hd & vs & -> & _ & Hvs & _)]
         [(Hd' & j & -> & _)|(Hd' & ws & -> & _ & Hws & _)]; try lia.
  - simpl. intros Heq. f_equal. set_solver.
  - simpl. intros Heq. f_equal. by apply sorted_vertex_set.
Qed.

Lemma NoDup_vertex_sets n dim l :
  NoDup l → Forall (stream_elem n dim) l → NoDup (vertex_set <$> l).
Proof.
  intros Hl Hall. apply NoDup_fmap_2_strong; [|done].
  rewrite list.Forall_forall in Hall.
  intros f g Hf Hg. apply (stream_elem_vertex_set n dim); by apply Hall.
Qed.

Lemma stream3_facts a b c dim :
  0 < a → 0 < b → 0 < c →
  NoDup (stream3 a b c dim) ∧
  Forall (stream_elem (a * b * c) dim) (stream3 a b c dim).
Proof.
  intros Ha Hb Hc. rewrite stream3_canon by done. split.
  - by apply NoDup_canon_stream3.
  - by apply Forall_canon_stream3.
Qed.

Lemma stream2_facts a b dim :
  0 < a → 0 < b →
  NoDup (stream2 a b dim) ∧ Forall (stream_elem (a * b) dim) (stream2 a b dim).
Proof.
  intros Ha Hb. rewrite stream2_canon, canon_stream2_as3 by done. split.
  - apply NoDup_canon_stream3; lia.
  - rewrite <-(Z.mul_1_l a) at 1. apply Forall_canon_stream3; lia.
Qed.

(** * Uniqueness and well-formedness of the yielded simplices *)

(** C2: no two elements of the stream of a decomposer have the same
    set of vertices, so collecting these sets loses no element. *)
Theorem C2_no_duplicate_simplices a b c dim :
  0 < a → 0 < b → 0 < c →
  (∃ l, decompose3d (a, b, c) dim = Ok l ∧ NoDup (vertex_set <$> l) ∧
        size (list_to_set (C := gset (gset Z)) (vertex_set <$> l)) = length l) ∧
  (∃ l, decompose2d (a, b) dim = Ok l ∧ NoDup (vertex_set <$> l) ∧
        size (list_to_set (C := gset (gset Z)) (vertex_set <$> l)) = length l).
Proof.
  intros Ha Hb Hc. split.
  - exists (stream3 a b c dim). split; [apply decompose3d_ok; lia|].
    destruct (stream3_facts a b c dim) as [Hnd Hall]; [done..|].
    assert (NoDup (vertex_set <$> stream3 a b c dim)) as Hsets
      by (by eapply NoDup_vertex_sets).
    split; [done|]. by rewrite size_list_to_set, length_fmap.
  - exists (stream2 a b dim). split; [apply decompose2d_ok; lia|].
    destruct (stream2_facts a b dim) as [Hnd Hall]; [done..|].
    assert (NoDup (vertex_set <$> stream2 a b dim)) as Hsets
      by (by eapply NoDup_vertex_sets).
    split; [done|]. by rewrite size_list_to_set, length_fmap.
Qed.

Lemma C2_no_duplicate_simplices_witness :
  (∃ l, decompose3d (3, 2, 4) 3 = Ok l ∧ NoDup (vertex_set <$> l) ∧
        size (list_to_set (C := gset (gset Z)) (vertex_set <$> l)) = length l) ∧
  (∃ l, decompose2d (3, 2) 3 = Ok l ∧ NoDup (vertex_set <$> l) ∧
        size (list_to_set (C := gset (gset Z)) (vertex_set <$> l)) = length l).
Proof. apply (C2_no_duplicate_simplices 3 2 4 3); lia. Defined.

(** The simplices that a decomposer yields for a dimension above 1. *)
Definition simplex_ok (n dim : Z) (f : face) : Prop :=
  ∃ vs, f = Simplex vs ∧ Z.of_nat (length vs) = dim ∧
        StronglySorted Z.lt vs ∧ NoDup vs ∧ Forall (λ v, 0 ≤ v < n) vs.

Lemma stream_elem_simplex_ok n dim f :
  2 ≤ dim → stream_elem n dim f → simplex_ok n dim f.
Proof.
  intros Hd [[? _]|(_ & vs & -> & Hlen & Hsort & Hall)]; [lia|].
  exists vs. split_and!; try done. by apply StronglySorted_lt_NoDup.
Qed.

(** C10: for a dimension above 1 every yielded simplex is a list of
    exactly [dim] strictly increasing, hence distinct, vertex indices
    of the grid. *)
Theorem C10_simplices_well_formed a b c dim :
  0 < a → 0 < b → 0 < c → 2 ≤ dim →
  (∃ l, decompose3d (a, b, c) dim = Ok l ∧
        Forall (simplex_ok (a * b * c) dim) l) ∧
  (∃ l, decompose2d (a, b) dim = Ok l ∧ Forall (simplex_ok (a * b) dim) l).
Proof.
  intros Ha Hb Hc Hd. split.
  - exists (stream3 a b c dim). split; [apply decompose3d_ok; lia|].
    destruct (stream3_facts a b c dim) as [_ Hall]; [done..|].
    eapply Forall_impl; [done|]. intros f. by apply stream_elem_simplex_ok.
  - exists (stream2 a b dim). split; [apply decompose2d_ok; lia|].
    destruct (stream2_facts a b dim) as [_ Hall]; [done..|].
    eapply Forall_impl; [done|]. intros f. by apply stream_elem_simplex_ok.
Qed.

Lemma C10_simplices_well_formed_witness :
  (∃ l, decompose3d (3, 2, 4) 3 = Ok l ∧ Forall (simplex_ok 24 3) l) ∧
  (∃ l, decompose2d (3, 2) 3 = Ok l ∧ Forall (simplex_ok 6 3) l).
Proof. apply (C10_simplices_well_formed 3 2 4 3); lia. Defined.

(** * The corners of a cube *)

(** The corners as the documentation of [cube_with_strides_center]
    describes them: the corner with the bits [(bit_0, ..., bit_{d-1})]
    has the index [sum_i (center[i] + bit_i) * strides[i]], and the bit
    of the first axis varies fastest. *)
Fixpoint documented_corners (center strides : list Z) : list Z :=
  match center, strides with
  | c :: center', s :: strides' =>
      rest ← documented_corners center' strides';
      bit ← [0; 1];
      [(c + bit) * s + rest]
  | _, _ => [0]
  end.

(** In two and three dimensions the corners are the documented ones. *)
Lemma cube_vertices_3 c0 c1 c2 s0 s1 s2 :
  ∃ l, cube_vertices [c0; c1; c2] [s0; s1; s2] = Ok (maximal3, l) ∧
       l = documented_corners [c0; c1; c2] [s0; s1; s2] ∧ length l = 8%nat.
Proof.
  eexists. split; [reflexivity|]. change (range 2) with [0; 1].
  split; [|done]. simpl. list_eq; lia.
Qed.

Lemma cube_vertices_2 c0 c1 s0 s1 :
  ∃ l, cube_vertices [c0; c1] [s0; s1] = Ok (maximal2, l) ∧
       l = documented_corners [c0; c1] [s0; s1] ∧ length l = 4%nat.
Proof.
  eexists. split; [reflexivity|]. change (range 2) with [0; 1].
  split; [|done]. simpl. list_eq; lia.
Qed.

(** C4, at the input that [decompose3d] passes for a shape such as
    (2, 5, 1): in one dimension the center is not multiplied by the
    stride, and the two corners are not the documented ones. *)
Theorem C4_one_dimensional_corners :
  cube_vertices [-1] [5] = Ok (maximal1, [-1; 4]) ∧
  documented_corners [-1] [5] = [-5; 0] ∧
  (∃ l, cube_vertices [-1] [5] = Ok (maximal1, l) ∧
        l ≠ documented_corners [-1] [5]) ∧
  (∃ c, cube_with_strides_center [-1] [5] = Ok c ∧
        c !! 1 = Some {[Vertex (-1); Vertex 4]} ∧
        c !! 2 = Some {[Simplex [-1; 4]]}).
Proof.
  split; [vm_compute; reflexivity|]. split; [vm_compute; reflexivity|].
  split.
  - exists [-1; 4]. split; [vm_compute; reflexivity|]. by intros [=].
  - eexists. split; [apply cube1_levels|]. split; vm_compute; reflexivity.
Qed.

(** * [join_complexes] on face complexes *)

(** A face complex has the dimensions 1 to its size as its keys. *)
Definition well_keyed (c : gmap Z (gset face)) : Prop :=
  dom c = list_to_set (seqZ 1 (Z.of_nat (size c))).

#[global] Instance well_keyed_dec c : Decision (well_keyed c).
Proof. unfold well_keyed. apply _. Defined.

(** The set of a complex at a dimension; an absent dimension has no
    faces. *)
Definition dim_set (c : gmap Z (gset face)) (z : Z) : gset face :=
  default ∅ (c !! z).

Lemma well_keyed_lookup c z :
  well_keyed c → is_Some (c !! z) ↔ 1 ≤ z ≤ Z.of_nat (size c).
Proof.
  unfold well_keyed. intros Hc.
  rewrite <-elem_of_dom, Hc, elem_of_list_to_set, elem_of_seqZ. lia.
Qed.

Lemma well_keyed_levels n g : well_keyed (levels n g).
Proof.
  unfold well_keyed. apply set_eq. intros z.
  rewrite elem_of_dom, lookup_levels, size_levels, elem_of_list_to_set,
    elem_of_seqZ.
  case_decide; split; intros H'; try done; try lia; by destruct H'.
Qed.

Lemma dim_set_join cs z :
  Forall well_keyed cs →
  dim_set (levels (max_list (size <$> cs))
                  (λ k, ⋃ ((λ c, level_of c k) <$> cs))) z =
    ⋃ ((λ c, dim_set c z) <$> cs).
Proof.
  intros Hcs. unfold dim_set at 1. rewrite lookup_levels. case_decide as Hz.
  - simpl. f_equal. apply list_fmap_ext. intros _ c _.
    unfold level_of, dim_set. by rewrite Z2Nat.id by lia.
  - simpl. symmetry. apply empty_union_list_L.
    apply list.Forall_forall. intros X (c & -> & Hc)%list_elem_of_fmap.
    unfold dim_set. destruct (c !! z) eqn:Hl; [|done]. exfalso.
    rewrite list.Forall_forall in Hcs.
    assert (is_Some (c !! z)) as Hsome by eauto.
    apply well_keyed_lookup in Hsome; [|by apply Hcs].
    assert (size c ≤ max_list (size <$> cs))%nat; [|lia].
    apply max_list_elem_of_le, list_elem_of_fmap. eauto.
Qed.

(** C6: joining a single face complex returns it; joining several
    returns, at every dimension, the union of their sets. *)
Theorem C6_join_complexes :
  (∀ c, well_keyed c → join_complexes [c] = Ok c) ∧
  (∀ cs, cs ≠ [] → Forall well_keyed cs →
         ∃ r, join_complexes cs = Ok r ∧
              ∀ z, dim_set r z = ⋃ ((λ c, dim_set c z) <$> cs)).
Proof.
  split.
  - intros c Hc. rewrite join_complexes_levels by done. f_equal.
    apply map_eq. intros z. simpl. rewrite Nat.max_0_r, lookup_levels.
    pose proof (well_keyed_lookup c z Hc) as Hz. case_decide as Hin.
    + destruct (proj2 Hz Hin) as [s Hs]. rewrite Hs. f_equal.
      unfold level_of. rewrite Z2Nat.id by lia. rewrite Hs. simpl. set_solver.
    + destruct (c !! z) eqn:Hl; [|done]. exfalso. apply Hin, Hz. eauto.
  - intros cs Hne Hcs. eexists. split; [by apply join_complexes_levels|].
    intros z. by apply dim_set_join.
Qed.

Lemma C6_join_complexes_witness :
  let c1 : gmap Z (gset face) :=
    <[1 := {[Vertex 0; Vertex 1]}]> (<[2 := {[Simplex [0; 1]]}]> ∅) in
  let c2 : gmap Z (gset face) := <[1 := {[Vertex 1; Vertex 2]}]> ∅ in
  join_complexes [c1] = Ok c1 ∧
  ∃ r, join_complexes [c1; c2] = Ok r ∧
       ∀ z, dim_set r z = ⋃ ((λ c, dim_set c z) <$> [c1; c2]).
Proof.
  intros c1 c2. destruct C6_join_complexes as [H1 H2]. split.
  - apply H1. by_compute.
  - apply H2; [done|]. repeat constructor; by_compute.
Defined.

(** * The faces of the default template *)

(** Every face of [vs] with one vertex less is in the complex [d] one
    dimension below [z]. *)
Definition boundary_in (d : gmap Z (gset face)) (z : Z) (f : face) : Prop :=
  match f with
  | Simplex vs =>
      Forall (λ sub, as_face sub ∈ dim_set d (z - 1))
             (combinations vs (Z.to_nat (z - 1)))
  | Vertex _ => True
  end.

#[global] Instance boundary_in_dec d z f : Decision (boundary_in d z f).
Proof. destruct f; simpl; apply _. Defined.

Lemma default_closed z :
  2 ≤ z ≤ 4 →
  Forall (boundary_in (levels 4 (faces_of default_maximal)) z)
         (elements (dim_set (levels 4 (faces_of default_maximal)) z)).
Proof.
  intros Hz.
  assert (z = 2 ∨ z = 3 ∨ z = 4) as [-> | [-> | ->]] by lia; by_compute.
Qed.

(** C7: in the complex of the default template every face of a stored
    simplex with one vertex less is stored one dimension below. *)
Theorem C7_default_complex_closed :
  ∃ d, complex default_maximal = Ok d ∧
       ∀ z vs sub, 2 ≤ z → Simplex vs ∈ dim_set d z →
                   sub ∈ combinations vs (Z.to_nat (z - 1)) →
                   as_face sub ∈ dim_set d (z - 1).
Proof.
  exists (levels 4 (faces_of default_maximal)).
  split; [by rewrite complex_levels|].
  intros z vs sub Hz Hvs Hsub.
  destruct (decide (z ≤ 4)) as [Hz4|Hz4].
  - pose proof (default_closed z (conj Hz Hz4)) as Hall.
    rewrite list.Forall_forall in Hall.
    apply elem_of_elements, Hall in Hvs. simpl in Hvs.
    rewrite list.Forall_forall in Hvs. by apply Hvs.
  - unfold dim_set in Hvs. rewrite lookup_levels, decide_False in Hvs by lia.
    by apply not_elem_of_empty in Hvs.
Qed.

Lemma C7_default_complex_closed_witness :
  ∃ d, complex default_maximal = Ok d ∧
       Simplex [0; 1; 3; 7] ∈ dim_set d 4 ∧ Simplex [1; 3; 7] ∈ dim_set d 3.
Proof.
  destruct C7_default_complex_closed as (d & Hd & Hclosed).
  exists d. split; [exact Hd|].
  assert (Simplex [0; 1; 3; 7] ∈ dim_set d 4) as Hin.
  { revert Hd. rewrite complex_levels by done. intros [= <-]. by_compute. }
  split; [exact Hin|].
  apply (Hclosed 4 [0; 1; 3; 7] [1; 3; 7]); [lia|exact Hin|by_compute].
Defined.

(** * The grid of one voxel *)

(** The six tetrahedra of the default template, with the corners of the
    cube numbered by the strides (4, 2, 1). *)
Definition tetrahedra : list face :=
  Simplex <$> [[0; 1; 3; 7]; [0; 2; 3; 7]; [0; 2; 6; 7];
               [0; 4; 6; 7]; [0; 1; 5; 7]; [0; 4; 5; 7]].

(** C5: on the shape (2, 2, 2) the tetrahedra that [decompose3d] yields
    are the six tetrahedra of the cube at the origin, which are those
    of the default template; they all come from the interior, and the
    slabs and the edges yield none. *)
Theorem C5_single_voxel_tetrahedra :
  ∃ l,
    decompose3d (2, 2, 2) 4 = Ok l ∧
    length l = 6%nat ∧
    Forall (λ f, ∃ vs, f = Simplex vs ∧ length vs = 4%nat) l ∧
    l ≡ₚ tetrahedra ∧
    (∃ c, cube_with_strides_center [0; 0; 0] [4; 2; 1] = Ok c ∧
          dim_set c 4 = list_to_set tetrahedra) ∧
    (∃ d, complex default_maximal = Ok d ∧
          dim_set d 4 = list_to_set tetrahedra) ∧
    interior 4 (4, 2, 1) (2, 2, 2) = Ok l ∧
    slab 4 (4, 2) (2, 2) = Ok [] ∧ slab 4 (4, 1) (2, 2) = Ok [] ∧
    slab 4 (2, 1) (2, 2) = Ok [] ∧
    edge 4 4 2 = Ok [] ∧ edge 4 2 2 = Ok [] ∧ edge 4 1 2 = Ok [].
Proof.
  exists tetrahedra.
  split; [vm_compute; reflexivity|]. split; [reflexivity|].
  split; [repeat constructor; by eexists|]. split; [reflexivity|].
  split.
  { eexists. split; [apply cube3_levels|]. vm_compute. reflexivity. }
  split.
  { eexists. split; [by apply complex_levels|]. vm_compute. reflexivity. }
  repeat split; vm_compute; reflexivity.
Qed.

(** * Further properties of [complex] *)

Lemma dim_set_levels n g z :
  dim_set (levels n g) z =
    if decide (1 ≤ z ≤ Z.of_nat n) then g (Z.to_nat z) else ∅.
Proof. unfold dim_set. rewrite lookup_levels. by case_decide. Qed.

(** [itertools.combinations(l, k)] yields every subsequence of [l] of
    length [k]. *)
Lemma sublist_combinations {A} (l : list A) k v :
  sublist v l → length v = k → v ∈ combinations l k.
Proof.
  revert k v. induction l as [|x l IH]; intros k v Hv Hlen.
  - apply sublist_nil_r in Hv as ->. simpl in Hlen. subst k. simpl.
    by apply list_elem_of_singleton.
  - destruct k as [|k].
    + apply nil_length_inv in Hlen as ->. simpl.
      by apply list_elem_of_singleton.
    + simpl. rewrite elem_of_app, list_elem_of_fmap.
      apply sublist_cons_r in Hv as [Hv|(v' & -> & Hv)].
      * right. by apply IH.
      * left. exists v'. split; [done|]. apply IH; [done|].
        simpl in Hlen. lia.
Qed.

Lemma elem_of_combinations {A} (l : list A) k v :
  v ∈ combinations l k ↔ sublist v l ∧ length v = k.
Proof.
  split.
  - intros Hv. split; [by eapply combinations_sublist|].
    by eapply length_combinations.
  - intros [Hv Hlen]. by apply sublist_combinations.
Qed.

Lemma elem_of_faces_of maximal k f :
  f ∈ faces_of maximal k ↔
    ∃ m v, m ∈ maximal ∧ sublist v (merge_sort Z.le m) ∧ length v = k ∧
           f = as_face v.
Proof.
  unfold faces_of, faces_list.
  rewrite elem_of_list_to_set, list_elem_of_fmap. split.
  - intros (v & -> & (m & Hv & Hm)%list_elem_of_bind).
    apply elem_of_combinations in Hv as [Hv Hlen]. eauto 10.
  - intros (m & v & Hm & Hv & Hlen & ->). exists v. split; [done|].
    apply list_elem_of_bind. exists m. split; [|done].
    by apply sublist_combinations.
Qed.

Lemma as_face_simplex v vs : as_face v = Simplex vs → v = vs.
Proof. destruct v as [|x [|y v]]; simpl; congruence. Qed.

(** X1: [complex] raises, a [ValueError], exactly when it is given no
    maximal simplex; otherwise the keys of the complex it returns are
    the dimensions from 1 to the length of the longest simplex. *)
Theorem complex_keys maximal :
  (maximal = [] ∧ complex maximal = Raise ValueError) ∨
  (maximal ≠ [] ∧
   ∃ d, complex maximal = Ok d ∧ well_keyed d ∧
        size d = max_list (length <$> maximal)).
Proof.
  destruct maximal as [|m maximal]; [left; by split|right].
  split; [done|]. eexists. split; [by apply complex_levels|].
  split; [apply well_keyed_levels|apply size_levels].
Qed.

(** X2: the set of the dimension [z] of the complex holds exactly the
    subsequences of length [z] of the sorted maximal simplices, a
    subsequence of length 1 as a bare index. *)
Theorem complex_faces maximal :
  maximal ≠ [] →
  ∃ d, complex maximal = Ok d ∧
       ∀ z f, 1 ≤ z →
              (f ∈ dim_set d z ↔
               ∃ m v, m ∈ maximal ∧ sublist v (merge_sort Z.le m) ∧
                      Z.of_nat (length v) = z ∧ f = as_face v).
Proof.
  intros Hne. eexists. split; [by apply complex_levels|].
  intros z f Hz. rewrite dim_set_levels. case_decide as Hin.
  - rewrite elem_of_faces_of. split.
    + intros (m & v & Hm & Hv & Hlen & ->). exists m, v. split_and!; [done..|lia|done].
    + intros (m & v & Hm & Hv & Hlen & ->). exists m, v. split_and!; [done..|lia|done].
  - split; [by intros ?%not_elem_of_empty|].
    intros (m & v & Hm & Hv & Hlen & ->). exfalso. apply Hin.
    split; [done|]. rewrite <-Hlen. apply inj_le.
    trans (length (merge_sort Z.le m)); [by apply sublist_length|].
    rewrite merge_sort_Permutation.
    apply max_list_elem_of_le, list_elem_of_fmap. eauto.
Qed.

Lemma complex_faces_witness :
  ∃ d, complex [[5; 2; 9]] = Ok d ∧ Simplex [2; 9] ∈ dim_set d 2.
Proof.
  destruct (complex_faces [[5; 2; 9]]) as (d & Hd & Hfaces); [done|].
  exists d. split; [done|]. apply Hfaces; [done|].
  exists [5; 2; 9], [2; 9]. split_and!; [by_compute| |done..].
  vm_compute. apply sublist_skip, sublist_cons, sublist_skip, sublist_nil.
Defined.

(** X3: the complex of any list of maximal simplices is closed: with a
    simplex of the dimension [z] it holds every subsequence of it with
    one vertex less, in the dimension below. *)
Theorem complex_closed maximal :
  maximal ≠ [] →
  ∃ d, complex maximal = Ok d ∧
       ∀ z vs sub, 2 ≤ z → Simplex vs ∈ dim_set d z →
                   sub ∈ combinations vs (Z.to_nat (z - 1)) →
                   as_face sub ∈ dim_set d (z - 1).
Proof.
  intros Hne. eexists. split; [by apply complex_levels|].
  intros z vs sub Hz. rewrite !dim_set_levels.
  case_decide as Hin; [|by intros ?%not_elem_of_empty].
  rewrite decide_True by lia. rewrite !elem_of_faces_of.
  intros (m & v & Hm & Hv & Hlen & Hf) Hsub.
  symmetry in Hf. apply as_face_simplex in Hf as ->.
  apply elem_of_combinations in Hsub as [Hsub Hlen'].
  exists m, sub. split_and!; [done| |lia|done]. by trans vs.
Qed.

Lemma complex_closed_witness :
  ∃ d, complex [[5; 2; 9]; [2; 4]] = Ok d ∧ Simplex [5; 9] ∈ dim_set d 2.
Proof.
  destruct (complex_closed [[5; 2; 9]; [2; 4]]) as (d & Hd & Hclosed);
    [done|].
  exists d. split; [done|].
  apply (Hclosed 3 [2; 5; 9] [5; 9]); [lia| |by_compute].
  revert Hd. rewrite complex_levels by done. intros [= <-]. by_compute.
Defined.

(** * Further properties of [cube_with_strides_center] *)

Lemma rename_compose φ ψ maximal :
  rename (φ ∘ ψ) maximal = rename φ (rename ψ maximal).
Proof.
  unfold rename. rewrite <-list_fmap_compose. apply list_fmap_ext.
  intros _ m _. simpl. by rewrite list_fmap_compose.
Qed.

Lemma list_to_set_fmap (f : face → face) (l : list face) :
  list_to_set (C := gset face) (f <$> l) = set_map f (list_to_set (C := gset face) l).
Proof.
  apply set_eq. intros x.
  rewrite elem_of_map, elem_of_list_to_set, list_elem_of_fmap.
  by setoid_rewrite elem_of_list_to_set.
Qed.

(** Moving the vertices of the maximal simplices moves the faces. *)
Lemma faces_of_moved t φ cube k :
  faces_of (rename (λ w, t + φ w) cube) k =
    set_map (face_map (Z.add t)) (faces_of (rename φ cube) k).
Proof.
  unfold faces_of. rewrite <-list_to_set_fmap. f_equal.
  rewrite <-faces_list_fmap by (intros x y; lia).
  by rewrite <-rename_compose.
Qed.

(** X4: [cube_with_strides_center] raises, a [ValueError], exactly when
    the center has no or more than three coordinates or the strides are
    not as many as these; otherwise the complex it returns has the
    dimensions from 1 to one more than the number of coordinates. *)
Theorem cube_dimensionality center strides :
  let d := length center in
  ((1 ≤ d ≤ 3)%nat ∧ length strides = d ∧
   ∃ c, cube_with_strides_center center strides = Ok c ∧
        well_keyed c ∧ size c = S d) ∨
  (¬ ((1 ≤ d ≤ 3)%nat ∧ length strides = d) ∧
   cube_with_strides_center center strides = Raise ValueError).
Proof.
  destruct center as [|c0 [|c1 [|c2 [|c3 center]]]].
  - right. split; [simpl; lia|done].
  - destruct strides as [|s0 [|s1 strides]];
      [right; split; [simpl; lia|done]| |right; split; [simpl; lia|done]].
    left. split; [simpl; lia|]. split; [done|]. rewrite cube1_levels.
    eexists. split; [done|]. split; [apply well_keyed_levels|apply size_levels].
  - destruct strides as [|s0 [|s1 [|s2 strides]]];
      [right; split; [simpl; lia|done]..| |right; split; [simpl; lia|done]].
    left. split; [simpl; lia|]. split; [done|]. rewrite cube2_levels.
    eexists. split; [done|]. split; [apply well_keyed_levels|apply size_levels].
  - destruct strides as [|s0 [|s1 [|s2 [|s3 strides]]]];
      [right; split; [simpl; lia|done]..| |right; split; [simpl; lia|done]].
    left. split; [simpl; lia|]. split; [done|]. rewrite cube3_levels.
    eexists. split; [done|]. split; [apply well_keyed_levels|apply size_levels].
  - right. split; [simpl; lia|done].
Qed.

(** X5: in two and three dimensions the complex of the cube at a center
    is the complex of the cube at the origin with every vertex index
    moved by the scalar product of the center and the strides. *)
Theorem cube_translation :
  (∀ c0 c1 c2 s0 s1 s2,
     ∃ base moved,
       cube_with_strides_center [0; 0; 0] [s0; s1; s2] = Ok base ∧
       cube_with_strides_center [c0; c1; c2] [s0; s1; s2] = Ok moved ∧
       ∀ z, dim_set moved z =
            set_map (face_map (Z.add (c0 * s0 + c1 * s1 + c2 * s2)))
                    (dim_set base z)) ∧
  (∀ c0 c1 s0 s1,
     ∃ base moved,
       cube_with_strides_center [0; 0] [s0; s1] = Ok base ∧
       cube_with_strides_center [c0; c1] [s0; s1] = Ok moved ∧
       ∀ z, dim_set moved z =
            set_map (face_map (Z.add (c0 * s0 + c1 * s1))) (dim_set base z)).
Proof.
  split.
  - intros. eexists _, _. rewrite !cube3_levels. split; [done|].
    split; [done|]. intros z. rewrite !dim_set_levels.
    case_decide; [|by rewrite set_map_empty].
    rewrite faces_of_moved. reflexivity.
  - intros. eexists _, _. rewrite !cube2_levels. split; [done|].
    split; [done|]. intros z. rewrite !dim_set_levels.
    case_decide; [|by rewrite set_map_empty].
    rewrite faces_of_moved. reflexivity.
Qed.

(** * Further properties of [join_complexes] *)

Lemma max_list_Permutation (l l' : list nat) :
  l ≡ₚ l' → max_list l = max_list l'.
Proof. induction 1; simpl; lia. Qed.

Lemma max_list_app (l1 l2 : list nat) :
  max_list (l1 ++ l2) = (max_list l1 `max` max_list l2)%nat.
Proof. induction l1 as [|x l1 IH]; simpl; lia. Qed.

Lemma union_list_Permutation (Xs Ys : list (gset face)) :
  Xs ≡ₚ Ys → ⋃ Xs = ⋃ Ys.
Proof.
  intros HP. apply set_eq. intros x. rewrite !elem_of_union_list.
  by setoid_rewrite HP.
Qed.

(** A face complex has no faces above its size. *)
Lemma well_keyed_level_of c (k : nat) :
  well_keyed c → (size c < k)%nat → level_of c k = ∅.
Proof.
  intros Hc Hk. unfold level_of.
  destruct (c !! Z.of_nat k) eqn:Hl; [|done]. exfalso.
  assert (is_Some (c !! Z.of_nat k)) as Hsome by eauto.
  apply well_keyed_lookup in Hsome; [lia|done].
Qed.

(** X6: [join_complexes] raises, a [ValueError], exactly when it is
    given no complex; otherwise the keys of the complex it returns are
    the dimensions from 1 to the largest number of keys of an argument,
    whatever the keys of the arguments are. *)
Theorem join_complexes_keys cs :
  (cs = [] ∧ join_complexes cs = Raise ValueError) ∨
  (cs ≠ [] ∧
   ∃ r, join_complexes cs = Ok r ∧ well_keyed r ∧
        size r = max_list (size <$> cs)).
Proof.
  destruct cs as [|c cs]; [left; by split|right].
  split; [done|]. eexists. split; [by apply join_complexes_levels|].
  split; [apply well_keyed_levels|apply size_levels].
Qed.

(** X7: the result of [join_complexes] does not depend on the order of
    its arguments. *)
Theorem join_complexes_permutation cs cs' :
  cs ≡ₚ cs' → join_complexes cs = join_complexes cs'.
Proof.
  intros HP. destruct cs as [|c cs].
  - by apply Permutation_nil_l in HP as ->.
  - assert (cs' ≠ []) as Hne'.
    { intros ->. by apply Permutation_nil_r in HP. }
    rewrite !join_complexes_levels by done. f_equal.
    rewrite (max_list_Permutation (size <$> c :: cs) (size <$> cs'))
      by by rewrite HP.
    apply levels_ext. intros k _. apply union_list_Permutation.
    by rewrite HP.
Qed.

Lemma join_complexes_permutation_witness :
  let c1 : gmap Z (gset face) :=
    <[1 := {[Vertex 0; Vertex 1]}]> (<[2 := {[Simplex [0; 1]]}]> ∅) in
  let c2 : gmap Z (gset face) := <[1 := {[Vertex 1; Vertex 2]}]> ∅ in
  join_complexes [c1; c2] = join_complexes [c2; c1].
Proof.
  intros c1 c2. apply join_complexes_permutation. apply Permutation_swap.
Defined.

(** X8: joining face complexes in two steps gives the same complex as
    joining them at once. *)
Theorem join_complexes_nested cs1 cs2 :
  cs1 ≠ [] → Forall well_keyed cs1 →
  ∃ r1, join_complexes cs1 = Ok r1 ∧
        join_complexes (r1 :: cs2) = join_complexes (cs1 ++ cs2).
Proof.
  intros Hne Hcs1. eexists. split; [by apply join_complexes_levels|].
  rewrite !join_complexes_levels by (by destruct cs1). f_equal.
  rewrite !fmap_cons, !fmap_app, max_list_app. simpl.
  rewrite size_levels. apply levels_ext. intros k Hk.
  rewrite fmap_app, union_list_app_L. f_equal.
  destruct (decide (k ≤ max_list (size <$> cs1))%nat) as [Hle|Hgt].
  - by rewrite level_of_levels by lia.
  - unfold level_of at 1. rewrite lookup_levels, decide_False by lia.
    simpl. symmetry. apply empty_union_list_L.
    apply list.Forall_forall. intros X (c & -> & Hc)%list_elem_of_fmap.
    rewrite list.Forall_forall in Hcs1.
    apply well_keyed_level_of; [by apply Hcs1|].
    assert (size c ≤ max_list (size <$> cs1))%nat; [|lia].
    apply max_list_elem_of_le, list_elem_of_fmap. eauto.
Qed.

Lemma join_complexes_nested_witness :
  let c1 : gmap Z (gset face) :=
    <[1 := {[Vertex 0; Vertex 1]}]> (<[2 := {[Simplex [0; 1]]}]> ∅) in
  let c2 : gmap Z (gset face) := <[1 := {[Vertex 1; Vertex 2]}]> ∅ in
  let c3 : gmap Z (gset face) := <[1 := {[Vertex 7]}]> ∅ in
  ∃ r1, join_complexes [c1; c2] = Ok r1 ∧
        join_complexes [r1; c3] = join_complexes [c1; c2; c3].
Proof.
  intros c1 c2 c3.
  apply (join_complexes_nested [c1; c2] [c3]); [done|].
  repeat constructor; by_compute.
Defined.

(** * Further properties of the decomposers *)

(** X9: on a shape without an empty axis [test_EC3] counts six
    tetrahedra for each voxel, twelve triangles for each voxel and two
    for each pixel of the three slabs, seven edges for each voxel,
    three for each pixel of the slabs and one for each step along the
    three axes, and all the vertices; the alternating sum is 1, also
    when an axis has the length 1. *)
Theorem test_EC3_counts a b c :
  1 ≤ a → 1 ≤ b → 1 ≤ c →
  let v := (a - 1) * (b - 1) * (c - 1) in
  let p := (a - 1) * (b - 1) + (a - 1) * (c - 1) + (b - 1) * (c - 1) in
  let s := (a - 1) + (b - 1) + (c - 1) in
  test_EC3 (a, b, c) =
    Ok (6 * v, 12 * v + 2 * p, 7 * v + 3 * p + s, a * b * c, 1).
Proof.
  intros Ha Hb Hc v p s. unfold test_EC3. rewrite !decompose3d_ok by lia.
  repeat first [ rewrite bind_Ok | rewrite tally_length
               | progress cbv beta iota zeta ].
  rewrite !length_stream3 by lia.
  unfold count3, count2, count1, v, p, s. simpl.
  repeat (apply (f_equal2 pair) || apply (f_equal Ok)); lia.
Qed.

Lemma test_EC3_counts_witness :
  test_EC3 (2, 1, 3) = Ok (0, 4, 9, 6, 1).
Proof. apply (test_EC3_counts 2 1 3); lia. Defined.

(** X10: on a shape without an empty axis [test_EC2] counts two
    triangles for each pixel, three edges for each pixel and one for
    each step along the two axes, and all the vertices; the alternating
    sum is 1. *)
Theorem test_EC2_counts a b :
  1 ≤ a → 1 ≤ b →
  let p := (a - 1) * (b - 1) in
  let s := (a - 1) + (b - 1) in
  test_EC2 (a, b) = Ok (2 * p, 3 * p + s, a * b, 1).
Proof.
  intros Ha Hb p s. unfold test_EC2. rewrite !decompose2d_ok by lia.
  repeat first [ rewrite bind_Ok | rewrite tally_length
               | progress cbv beta iota zeta ].
  rewrite !length_stream2 by lia.
  unfold count2, count1, p, s. simpl.
  repeat (apply (f_equal2 pair) || apply (f_equal Ok)); lia.
Qed.

Lemma test_EC2_counts_witness : test_EC2 (3, 4) = Ok (12, 23, 12, 1).
Proof. apply (test_EC2_counts 3 4); lia. Defined.

(** X11: the decomposers raise only for a shape with a negative axis,
    which NumPy refuses with a [ValueError] (the memory that [np.empty]
    needs for a large shape is not modelled); for every other shape and
    every requested dimension they run to the end: no key is missing
    in the complexes and no bare vertex is iterated over. *)
Theorem decompose_raises_iff_negative dim :
  (∀ a b c,
     (0 ≤ a ∧ 0 ≤ b ∧ 0 ≤ c ∧ ∃ l, decompose3d (a, b, c) dim = Ok l) ∨
     ((a < 0 ∨ b < 0 ∨ c < 0) ∧
      decompose3d (a, b, c) dim = Raise ValueError)) ∧
  (∀ a b,
     (0 ≤ a ∧ 0 ≤ b ∧ ∃ l, decompose2d (a, b) dim = Ok l) ∨
     ((a < 0 ∨ b < 0) ∧ decompose2d (a, b) dim = Raise ValueError)).
Proof.
  split.
  - intros a b c. destruct (decide (a < 0 ∨ b < 0 ∨ c < 0)) as [Hneg|Hpos].
    + right. split; [done|]. unfold decompose3d, strides3.
      by rewrite decide_True.
    + left. split_and!; [lia..|]. eexists. apply decompose3d_ok; lia.
  - intros a b. destruct (decide (a < 0 ∨ b < 0)) as [Hneg|Hpos].
    + right. split; [done|]. unfold decompose2d, strides2.
      by rewrite decide_True.
    + left. split_and!; [lia..|]. eexists. apply decompose2d_ok; lia.
Qed.

Lemma part3_flat dim s0 s1 s2 a b c :
  a = 1 ∨ b = 1 ∨ c = 1 → part3 dim s0 s1 s2 a b c = [].
Proof.
  intros H. unfold part3. case_decide; [|done]. by rewrite grid3_nil by lia.
Qed.

Lemma part2_flat dim t0 t1 n0 n1 :
  n0 = 1 ∨ n1 = 1 → part2 dim t0 t1 n0 n1 = [].
Proof.
  intros H. unfold part2. case_decide; [|done]. by rewrite grid2_nil by lia.
Qed.

Lemma part1_flat dim t : part1 dim t 1 = [].
Proof. unfold part1. case_decide; [|done]. by rewrite grid1_nil by lia. Qed.

(** X12: [decompose2d] yields for the shape (a, b) what [decompose3d]
    yields for the shapes (1, a, b), (a, 1, b) and (a, b, 1). *)
Theorem decompose2d_as_decompose3d a b dim :
  0 ≤ a → 0 ≤ b →
  ∃ l l0 l1 l2,
    decompose2d (a, b) dim = Ok l ∧
    decompose3d (1, a, b) dim = Ok l0 ∧
    decompose3d (a, 1, b) dim = Ok l1 ∧
    decompose3d (a, b, 1) dim = Ok l2 ∧
    l ≡ₚ l0 ∧ l ≡ₚ l1 ∧ l ≡ₚ l2.
Proof.
  intros Ha Hb. eexists _, _, _, _.
  split; [by apply decompose2d_ok|]. do 3 (split; [apply decompose3d_ok; lia|]).
  unfold stream2, stream3, c_strides2, c_strides3.
  rewrite !part3_flat, !(part2_flat _ _ _ 1), !(part2_flat _ _ _ _ 1),
    !part1_flat by auto.
  replace (1 * a * b) with (a * b) by lia.
  replace (a * 1 * b) with (a * b) by lia.
  replace (a * b * 1) with (a * b) by lia.
  destruct (decide (a = 0 ∨ b = 0)) as [Hz|Hz].
  - rewrite !decide_True by lia. cbn [fst snd app].
    by rewrite !app_nil_r.
  - rewrite !decide_False by lia. cbn [fst snd app].
    by rewrite !Z.mul_1_l, !Z.mul_1_r, !app_nil_r.
Qed.

Lemma decompose2d_as_decompose3d_witness :
  (∃ l l0 l1 l2,
     decompose2d (3, 4) 3 = Ok l ∧
     decompose3d (1, 3, 4) 3 = Ok l0 ∧
     decompose3d (3, 1, 4) 3 = Ok l1 ∧
     decompose3d (3, 4, 1) 3 = Ok l2 ∧
     l ≡ₚ l0 ∧ l ≡ₚ l1 ∧ l ≡ₚ l2) ∧
  (∃ l l0 l1 l2,
     decompose2d (0, 4) 2 = Ok l ∧
     decompose3d (1, 0, 4) 2 = Ok l0 ∧
     decompose3d (0, 1, 4) 2 = Ok l1 ∧
     decompose3d (0, 4, 1) 2 = Ok l2 ∧
     l ≡ₚ l0 ∧ l ≡ₚ l1 ∧ l ≡ₚ l2).
Proof.
  split.
  - apply (decompose2d_as_decompose3d 3 4 3); lia.
  - apply (decompose2d_as_decompose3d 0 4 2); lia.
Defined.

(** * The faces that a cube does not share with an earlier cube *)

Lemma template3_set s0 s1 s2 k :
  valid3 s0 s1 s2 → (2 ≤ k ≤ 4)%nat →
  template_3 s0 s1 s2 k =
    list_to_set (Simplex <$> rename (phi3 s0 s1 s2) (tops cube3 7 k)).
Proof.
  intros Hs Hk. apply template_faces.
  - lia.
  - by apply phi3_increasing.
  - destruct Hs as (? & ? & ?). unfold offsets3. repeat constructor; lia.
  - unfold cube3. repeat constructor; lia.
  - rewrite offsets3_phi3. apply lower_from_check with (free := free3).
    + apply phi3_add.
    + by apply cube3_check.
Qed.

Lemma template2_set t0 t1 k :
  valid2 t0 t1 → (2 ≤ k ≤ 3)%nat →
  template_2 t0 t1 k =
    list_to_set (Simplex <$> rename (phi2 t0 t1) (tops cube2 3 k)).
Proof.
  intros Hs Hk. apply template_faces.
  - lia.
  - by apply phi2_increasing.
  - destruct Hs as (? & ?). unfold offsets2. repeat constructor; lia.
  - unfold cube2. repeat constructor; lia.
  - rewrite offsets2_phi2. apply lower_from_check with (free := free2).
    + apply phi2_add.
    + by apply cube2_check.
Qed.

Lemma elem_of_tops cube top k f0 :
  f0 ∈ tops cube top k ↔ f0 ∈ raw_faces cube k ∧ top ∈ f0.
Proof.
  unfold tops. rewrite elem_of_remove_dups, list_elem_of_filter. tauto.
Qed.

(** The faces of a template are the faces of the cube that contain its
    last corner. *)
Lemma elem_of_template φ cube top k f :
  increasing φ → (2 ≤ k)%nat →
  f ∈ list_to_set (C := gset face) (Simplex <$> rename φ (tops cube top k)) ↔
    f ∈ faces_of (rename φ cube) k ∧ ∃ vs, f = Simplex vs ∧ φ top ∈ vs.
Proof.
  intros Hφ Hk. pose proof (increasing_inj φ Hφ) as Hinj.
  rewrite elem_of_list_to_set, list_elem_of_fmap. unfold rename at 1.
  setoid_rewrite list_elem_of_fmap. setoid_rewrite elem_of_tops. split.
  - intros (vs & -> & f0 & -> & Hf0 & Htop). split.
    + apply elem_of_faces_rename; eauto.
    + eexists. split; [done|]. by apply list_elem_of_fmap_2.
  - intros (Hf & vs & -> & Htop).
    apply elem_of_faces_rename in Hf as (f0 & Hf0 & ->); [|done..].
    exists (φ <$> f0). split; [done|]. exists f0. split; [done|].
    split; [done|]. by apply (list_elem_of_fmap_inj_2 φ).
Qed.

(** X13: for the strides of an array whose last two axes are longer
    than 1, the faces with two or more vertices that [decompose3d] and
    [decompose2d] keep for a voxel or a pixel, after the faces of its
    earlier neighbours are taken away, are the faces that contain its
    last corner. *)
Theorem unique_faces_contain_last_corner :
  (∀ s0 s1 s2,
     valid3 s0 s1 s2 →
     ∃ u c, unique3 [s0; s1; s2] = Ok u ∧
            cube_with_strides_center [0; 0; 0] [s0; s1; s2] = Ok c ∧
            ∀ z f, 2 ≤ z →
                   (f ∈ dim_set u z ↔
                    f ∈ dim_set c z ∧
                    ∃ vs, f = Simplex vs ∧ s0 + s1 + s2 ∈ vs)) ∧
  (∀ t0 t1,
     valid2 t0 t1 →
     ∃ u c, unique2 [t0; t1] = Ok u ∧
            cube_with_strides_center [0; 0] [t0; t1] = Ok c ∧
            ∀ z f, 2 ≤ z →
                   (f ∈ dim_set u z ↔
                    f ∈ dim_set c z ∧ ∃ vs, f = Simplex vs ∧ t0 + t1 ∈ vs)).
Proof.
  split.
  - intros s0 s1 s2 Hs. eexists _, _.
    split; [apply unique3_levels|]. split; [apply cube3_levels|].
    intros z f Hz. rewrite !dim_set_levels. case_decide as Hin.
    + fold (template_3 s0 s1 s2 (Z.to_nat z)).
      rewrite template3_set by (done || lia).
      rewrite elem_of_template by (by apply phi3_increasing || lia).
      by rewrite phi3_7.
    + split; [by intros ?%not_elem_of_empty|].
      by intros [?%not_elem_of_empty _].
  - intros t0 t1 Hs. eexists _, _.
    split; [apply unique2_levels|]. split; [apply cube2_levels|].
    intros z f Hz. rewrite !dim_set_levels. case_decide as Hin.
    + fold (template_2 t0 t1 (Z.to_nat z)).
      rewrite template2_set by (done || lia).
      rewrite elem_of_template by (by apply phi2_increasing || lia).
      by rewrite phi2_3.
    + split; [by intros ?%not_elem_of_empty|].
      by intros [?%not_elem_of_empty _].
Qed.

Lemma unique_faces_contain_last_corner_witness :
  (∃ u c, unique3 [12; 4; 1] = Ok u ∧
          cube_with_strides_center [0; 0; 0] [12; 4; 1] = Ok c ∧
          ∀ z f, 2 ≤ z →
                 (f ∈ dim_set u z ↔
                  f ∈ dim_set c z ∧ ∃ vs, f = Simplex vs ∧ 12 + 4 + 1 ∈ vs)) ∧
  (∃ u c, unique2 [4; 1] = Ok u ∧
          cube_with_strides_center [0; 0] [4; 1] = Ok c ∧
          ∀ z f, 2 ≤ z →
                 (f ∈ dim_set u z ↔
                  f ∈ dim_set c z ∧ ∃ vs, f = Simplex vs ∧ 4 + 1 ∈ vs)).
Proof.
  destruct unique_faces_contain_last_corner as [H3 H2]. split.
  - apply H3. unfold valid3. lia.
  - apply H2. unfold valid2. lia.
Defined.

(** * The simplices of the triangulated grid *)

(** ** The strata in the numbering of the corners of a voxel *)

(** A template [T] of a stratum, numbered by [ι] as the corners of a
    voxel, is the set of the faces of the voxel whose last corner is
    [m]. *)
Definition embeds (ι : Z → Z) (m top : Z) (T : list (list Z)) (k : nat)
  : Prop :=
  Forall (λ h, Forall (λ w, 0 ≤ w ≤ top) h ∧
               (ι <$> h) ∈ raw_faces cube3 k ∧ last (ι <$> h) = Some m) T ∧
  Forall (λ g, last g = Some m → Exists (λ h, g = ι <$> h) T)
         (raw_faces cube3 k).

#[global] Instance embeds_dec ι m top T k : Decision (embeds ι m top T k).
Proof. unfold embeds. apply _. Defined.

(** The corner of a voxel for a corner of its pixel along the first and
    the last axis. *)
Definition spread (w : Z) : Z := 4 * (w `div` 2) + w `mod` 2.

Ltac each_dim k Hk :=
  destruct k as [|[|[|[|[|k]]]]]; try (exfalso; clear -Hk; lia).

Lemma embeds_111 k :
  (2 ≤ k ≤ 4)%nat → embeds id 7 7 (tops cube3 7 k) k.
Proof. intros Hk. each_dim k Hk; by_compute. Qed.

Lemma embeds_110 k :
  (2 ≤ k ≤ 4)%nat → embeds (Z.mul 2) 6 3 (tops cube2 3 k) k.
Proof. intros Hk. each_dim k Hk; by_compute. Qed.

Lemma embeds_101 k :
  (2 ≤ k ≤ 4)%nat → embeds spread 5 3 (tops cube2 3 k) k.
Proof. intros Hk. each_dim k Hk; by_compute. Qed.

Lemma embeds_011 k :
  (2 ≤ k ≤ 4)%nat → embeds id 3 3 (tops cube2 3 k) k.
Proof. intros Hk. each_dim k Hk; by_compute. Qed.

Lemma embeds_100 k :
  (2 ≤ k ≤ 4)%nat → embeds (Z.mul 4) 4 1 (tops cube1 1 k) k.
Proof. intros Hk. each_dim k Hk; by_compute. Qed.

Lemma embeds_010 k :
  (2 ≤ k ≤ 4)%nat → embeds (Z.mul 2) 2 1 (tops cube1 1 k) k.
Proof. intros Hk. each_dim k Hk; by_compute. Qed.

Lemma embeds_001 k :
  (2 ≤ k ≤ 4)%nat → embeds id 1 1 (tops cube1 1 k) k.
Proof. intros Hk. each_dim k Hk; by_compute. Qed.

(** The faces of a stratum, placed on a grid, in the numbering of the
    corners of a voxel. *)
Lemma placed_embedded ψ ι m top T s0 s1 s2 grid k f :
  (∀ w, 0 ≤ w ≤ top → phi3 s0 s1 s2 (ι w) = ψ w) →
  embeds ι m top T k →
  f ∈ placed (Simplex <$> rename ψ T) grid ↔
    ∃ index g, index ∈ grid ∧ g ∈ raw_faces cube3 k ∧ last g = Some m ∧
               f = Simplex ((λ w, index + phi3 s0 s1 s2 w) <$> g).
Proof.
  intros Hψ [HT Hg]. rewrite elem_of_placed.
  rewrite list.Forall_forall in HT. rewrite list.Forall_forall in Hg.
  assert (∀ index h, h ∈ T →
            (λ w, index + ψ w) <$> h =
            (λ w, index + phi3 s0 s1 s2 w) <$> (ι <$> h)) as Heq.
  { intros index h Hh. rewrite <-list_fmap_compose.
    apply Forall_fmap_ext. destruct (HT h Hh) as (Hw & _).
    eapply Forall_impl; [exact Hw|]. intros w Hw'. simpl.
    by rewrite Hψ. }
  split.
  - intros (index & h & Hindex & Hh & ->).
    destruct (HT h Hh) as (_ & Hmem & Hlast).
    exists index, (ι <$> h). by rewrite Heq.
  - intros (index & g & Hindex & Hmem & Hlast & ->).
    destruct (proj1 (list.Exists_exists _ _) (Hg g Hmem Hlast))
      as (h & Hh & ->).
    exists index, h. by rewrite Heq.
Qed.

Ltac each_corner w Hw :=
  match type of Hw with
  | 0 ≤ w ≤ 3 =>
      assert (w = 0 ∨ w = 1 ∨ w = 2 ∨ w = 3) as [->|[->|[->| ->]]] by lia
  | 0 ≤ w ≤ 1 => assert (w = 0 ∨ w = 1) as [->| ->] by lia
  end;
  unfold phi3, phi2, phi1, spread, id; eval_divmod; lia.

Lemma phi3_110 s0 s1 s2 w :
  0 ≤ w ≤ 3 → phi3 s0 s1 s2 (2 * w) = phi2 s0 s1 w.
Proof. intros Hw. each_corner w Hw. Qed.

Lemma phi3_101 s0 s1 s2 w :
  0 ≤ w ≤ 3 → phi3 s0 s1 s2 (spread w) = phi2 s0 s2 w.
Proof. intros Hw. each_corner w Hw. Qed.

Lemma phi3_011 s0 s1 s2 w :
  0 ≤ w ≤ 3 → phi3 s0 s1 s2 (id w) = phi2 s1 s2 w.
Proof. intros Hw. each_corner w Hw. Qed.

Lemma phi3_100 s0 s1 s2 w :
  0 ≤ w ≤ 1 → phi3 s0 s1 s2 (4 * w) = phi1 s0 w.
Proof. intros Hw. each_corner w Hw. Qed.

Lemma phi3_010 s0 s1 s2 w :
  0 ≤ w ≤ 1 → phi3 s0 s1 s2 (2 * w) = phi1 s1 w.
Proof. intros Hw. each_corner w Hw. Qed.

Lemma phi3_001 s0 s1 s2 w :
  0 ≤ w ≤ 1 → phi3 s0 s1 s2 (id w) = phi1 s2 w.
Proof. intros Hw. each_corner w Hw. Qed.

Lemma placed_empty grid : placed [] grid = [].
Proof. unfold placed. by apply bind_nil_r. Qed.

(** For the dimensions that a stratum does not have, its template is
    empty. *)
Lemma canon3_placed dim s0 s1 s2 a b c :
  2 ≤ dim ≤ 4 →
  canon3 dim s0 s1 s2 a b c =
    placed (Simplex <$> rename (phi3 s0 s1 s2) (tops cube3 7 (Z.to_nat dim)))
           (grid3 a b c s0 s1 s2).
Proof. intros Hd. unfold canon3. by rewrite decide_True. Qed.

Lemma canon2_placed dim t0 t1 n0 n1 :
  2 ≤ dim ≤ 4 →
  canon2 dim t0 t1 n0 n1 =
    placed (Simplex <$> rename (phi2 t0 t1) (tops cube2 3 (Z.to_nat dim)))
           (grid2 n0 n1 t0 t1).
Proof.
  intros Hd. unfold canon2. case_decide; [done|].
  assert (dim = 4) as -> by lia.
  assert (tops cube2 3 (Z.to_nat 4) = []) as -> by by vm_compute.
  by rewrite placed_empty.
Qed.

Lemma canon1_placed dim t n :
  2 ≤ dim ≤ 4 →
  canon1 dim t n =
    placed (Simplex <$> rename (phi1 t) (tops cube1 1 (Z.to_nat dim)))
           (grid1 n t).
Proof.
  intros Hd. unfold canon1. case_decide as Hdim; [by subst dim|].
  assert (dim = 3 ∨ dim = 4) as [-> | ->] by lia.
  - assert (tops cube1 1 (Z.to_nat 3) = []) as -> by by vm_compute.
    by rewrite placed_empty.
  - assert (tops cube1 1 (Z.to_nat 4) = []) as -> by by vm_compute.
    by rewrite placed_empty.
Qed.

(** ** The owner of a face *)

(** The position of a stratum along an axis of length [n]: any position
    of a voxel when the stratum extends along the axis ([e = 1]), the
    first one when it does not ([e = 0]). *)
Definition pos (n e X : Z) : Prop :=
  (e = 1 ∧ 0 ≤ X < n - 1) ∨ (e = 0 ∧ X = 0).

(** The face [f] is a face of a voxel at a position of the stratum with
    the flags [(e0, e1, e2)], and its last corner is the last corner of
    the stratum there. *)
Definition site_at (a b c : Z) (k : nat) (e0 e1 e2 : Z) (f : face) : Prop :=
  ∃ I J K index g,
    pos a e0 I ∧ pos b e1 J ∧ pos c e2 K ∧
    index = I * (b * c) + J * c + K ∧
    g ∈ raw_faces cube3 k ∧ last g = Some (4 * e0 + 2 * e1 + e2) ∧
    f = Simplex ((λ w, index + phi3 (b * c) c 1 w) <$> g).

Definition site (a b c : Z) (k : nat) (f : face) : Prop :=
  ∃ e0 e1 e2, 0 ≤ e0 ≤ 1 ∧ 0 ≤ e1 ≤ 1 ∧ 0 ≤ e2 ≤ 1 ∧
              0 < e0 + e1 + e2 ∧ site_at a b c k e0 e1 e2 f.

Ltac solve_pos := first [left; lia | right; lia].

Section sites.
Variables (a b c dim : Z).
Hypothesis Hdim : 2 ≤ dim ≤ 4.

Lemma site_111 f :
  f ∈ canon3 dim (b * c) c 1 a b c ↔ site_at a b c (Z.to_nat dim) 1 1 1 f.
Proof.
  rewrite canon3_placed by done.
  rewrite (placed_embedded _ id 7 7 _ (b * c) c 1);
    [|done|apply embeds_111; lia].
  setoid_rewrite elem_of_grid3. unfold site_at, pos. split.
  - intros (index & g & (i & j & k & Hi & Hj & Hk & ->) & Hg & Hlast & ->).
    exists i, j, k, (i * (b * c) + j * c + k * 1), g. split_and!; [solve_pos..|lia|done|done|done].
  - intros (I & J & K & index & g & HI & HJ & HK & -> & Hg & Hlast & ->).
    eexists _, g. split; [|done]. exists I, J, K. lia.
Qed.

Lemma site_110 f :
  f ∈ canon2 dim (b * c) c a b ↔ site_at a b c (Z.to_nat dim) 1 1 0 f.
Proof.
  rewrite canon2_placed by done.
  rewrite (placed_embedded _ (Z.mul 2) 6 3 _ (b * c) c 1);
    [|apply phi3_110|apply embeds_110; lia].
  setoid_rewrite elem_of_grid2. unfold site_at, pos. split.
  - intros (index & g & (i & j & Hi & Hj & ->) & Hg & Hlast & ->).
    exists i, j, 0, (i * (b * c) + j * c), g. split_and!; [solve_pos..|lia|done|done|done].
  - intros (I & J & K & index & g & HI & HJ & HK & -> & Hg & Hlast & ->).
    eexists _, g. split; [|done]. exists I, J. lia.
Qed.

Lemma site_101 f :
  f ∈ canon2 dim (b * c) 1 a c ↔ site_at a b c (Z.to_nat dim) 1 0 1 f.
Proof.
  rewrite canon2_placed by done.
  rewrite (placed_embedded _ spread 5 3 _ (b * c) c 1);
    [|apply phi3_101|apply embeds_101; lia].
  setoid_rewrite elem_of_grid2. unfold site_at, pos. split.
  - intros (index & g & (i & j & Hi & Hj & ->) & Hg & Hlast & ->).
    exists i, 0, j, (i * (b * c) + j * 1), g. split_and!; [solve_pos..|lia|done|done|done].
  - intros (I & J & K & index & g & HI & HJ & HK & -> & Hg & Hlast & ->).
    eexists _, g. split; [|done]. exists I, K. lia.
Qed.

Lemma site_011 f :
  f ∈ canon2 dim c 1 b c ↔ site_at a b c (Z.to_nat dim) 0 1 1 f.
Proof.
  rewrite canon2_placed by done.
  rewrite (placed_embedded _ id 3 3 _ (b * c) c 1);
    [|apply phi3_011|apply embeds_011; lia].
  setoid_rewrite elem_of_grid2. unfold site_at, pos. split.
  - intros (index & g & (i & j & Hi & Hj & ->) & Hg & Hlast & ->).
    exists 0, i, j, (i * c + j * 1), g. split_and!; [solve_pos..|lia|done|done|done].
  - intros (I & J & K & index & g & HI & HJ & HK & -> & Hg & Hlast & ->).
    eexists _, g. split; [|done]. exists J, K. lia.
Qed.

Lemma site_100 f :
  f ∈ canon1 dim (b * c) a ↔ site_at a b c (Z.to_nat dim) 1 0 0 f.
Proof.
  rewrite canon1_placed by done.
  rewrite (placed_embedded _ (Z.mul 4) 4 1 _ (b * c) c 1);
    [|apply phi3_100|apply embeds_100; lia].
  setoid_rewrite elem_of_grid1. unfold site_at, pos. split.
  - intros (index & g & (i & Hi & ->) & Hg & Hlast & ->).
    exists i, 0, 0, (i * (b * c)), g. split_and!; [solve_pos..|lia|done|done|done].
  - intros (I & J & K & index & g & HI & HJ & HK & -> & Hg & Hlast & ->).
    eexists _, g. split; [|done]. exists I. lia.
Qed.

Lemma site_010 f :
  f ∈ canon1 dim c b ↔ site_at a b c (Z.to_nat dim) 0 1 0 f.
Proof.
  rewrite canon1_placed by done.
  rewrite (placed_embedded _ (Z.mul 2) 2 1 _ (b * c) c 1);
    [|apply phi3_010|apply embeds_010; lia].
  setoid_rewrite elem_of_grid1. unfold site_at, pos. split.
  - intros (index & g & (i & Hi & ->) & Hg & Hlast & ->).
    exists 0, i, 0, (i * c), g. split_and!; [solve_pos..|lia|done|done|done].
  - intros (I & J & K & index & g & HI & HJ & HK & -> & Hg & Hlast & ->).
    eexists _, g. split; [|done]. exists J. lia.
Qed.

Lemma site_001 f :
  f ∈ canon1 dim 1 c ↔ site_at a b c (Z.to_nat dim) 0 0 1 f.
Proof.
  rewrite canon1_placed by done.
  rewrite (placed_embedded _ id 1 1 _ (b * c) c 1);
    [|apply phi3_001|apply embeds_001; lia].
  setoid_rewrite elem_of_grid1. unfold site_at, pos. split.
  - intros (index & g & (i & Hi & ->) & Hg & Hlast & ->).
    exists 0, 0, i, (i * 1), g. split_and!; [solve_pos..|lia|done|done|done].
  - intros (I & J & K & index & g & HI & HJ & HK & -> & Hg & Hlast & ->).
    eexists _, g. split; [|done]. exists K. lia.
Qed.

(** The stream of [decompose3d] holds the faces at the sites of its
    seven strata. *)
Lemma canon_stream3_sites f :
  f ∈ canon_stream3 a b c dim ↔ site a b c (Z.to_nat dim) f.
Proof.
  unfold canon_stream3. rewrite !elem_of_app, vertices_out by lia.
  rewrite site_111, site_110, site_101, site_011, site_100, site_010,
    site_001, elem_of_nil.
  unfold site. split.
  - intros [H|[[H|[H|H]]|[[H|[H|H]]|[]]]];
      [exists 1, 1, 1|exists 1, 1, 0|exists 1, 0, 1|exists 0, 1, 1
      |exists 1, 0, 0|exists 0, 1, 0|exists 0, 0, 1];
      (split_and!; [lia..|done]).
  - intros (e0 & e1 & e2 & H0 & H1 & H2 & Hne & H).
    assert (e0 = 0 ∨ e0 = 1) as [-> | ->] by lia;
      assert (e1 = 0 ∨ e1 = 1) as [-> | ->] by lia;
      assert (e2 = 0 ∨ e2 = 1) as [-> | ->] by lia;
      try lia; tauto.
Qed.
End sites.

(** ** Every face of a voxel has an owner *)

(** Along an axis a face is moved by [d] voxels towards the origin and
    its owner extends along the axis or not ([e]); [z] tells that the
    voxel is the first one along the axis. *)
Definition axis_ok (z : bool) (d e : Z) : Prop :=
  (d = 1 → z = false) ∧ (e = 0 → z = true ∧ d = 0).

(** The face [g] of a voxel is, moved by the corner number
    [4 * d0 + 2 * d1 + d2], a face of the voxel that ends with the last
    corner of a stratum. *)
Definition shift_ok (k : nat) (zI zJ zK : bool) (g : list Z) : Prop :=
  Exists (λ d0, Exists (λ d1, Exists (λ d2,
  Exists (λ e0, Exists (λ e1, Exists (λ e2,
    0 < e0 + e1 + e2 ∧
    axis_ok zI d0 e0 ∧ axis_ok zJ d1 e1 ∧ axis_ok zK d2 e2 ∧
    Forall (free3 (4 * d0 + 2 * d1 + d2)) g ∧
    (Z.add (4 * d0 + 2 * d1 + d2) <$> g) ∈ raw_faces cube3 k ∧
    last (Z.add (4 * d0 + 2 * d1 + d2) <$> g) = Some (4 * e0 + 2 * e1 + e2))
  [0; 1]) [0; 1]) [0; 1]) [0; 1]) [0; 1]) [0; 1].

#[global] Instance shift_ok_dec k zI zJ zK g :
  Decision (shift_ok k zI zJ zK g).
Proof. unfold shift_ok, axis_ok. apply _. Defined.

Lemma shift_check k zI zJ zK :
  (2 ≤ k ≤ 4)%nat → Forall (shift_ok k zI zJ zK) (raw_faces cube3 k).
Proof.
  intros Hk. each_dim k Hk; destruct zI, zJ, zK; by_compute.
Qed.

Lemma elem_of_bits (x : Z) : x ∈ [0; 1] → 0 ≤ x ≤ 1.
Proof. rewrite !elem_of_cons, elem_of_nil. lia. Qed.

Lemma phi3_bits s0 s1 s2 d0 d1 d2 :
  0 ≤ d0 ≤ 1 → 0 ≤ d1 ≤ 1 → 0 ≤ d2 ≤ 1 →
  phi3 s0 s1 s2 (4 * d0 + 2 * d1 + d2) = d0 * s0 + d1 * s1 + d2 * s2.
Proof.
  intros H0 H1 H2.
  assert (d0 = 0 ∨ d0 = 1) as [-> | ->] by lia;
    assert (d1 = 0 ∨ d1 = 1) as [-> | ->] by lia;
    assert (d2 = 0 ∨ d2 = 1) as [-> | ->] by lia;
    unfold phi3; eval_divmod; lia.
Qed.

Lemma axis_ok_pos n X d e :
  axis_ok (bool_decide (X = 0)) d e →
  0 ≤ d ≤ 1 → 0 ≤ e ≤ 1 → 0 ≤ X < n - 1 → pos n e (X - d).
Proof.
  intros [H1 H2] Hd He HX. unfold pos.
  destruct (decide (e = 1)) as [->|Hne].
  - left. split; [done|]. destruct (decide (d = 1)) as [->|Hd1]; [|lia].
    specialize (H1 eq_refl). apply bool_decide_eq_false in H1. lia.
  - right. assert (e = 0) as -> by lia. destruct (H2 eq_refl) as [Hz ->].
    apply bool_decide_eq_true in Hz. lia.
Qed.

(** Every face of a voxel of the grid is at a site of a stratum. *)
Lemma voxel_face_site a b c k I J K g :
  (2 ≤ k ≤ 4)%nat →
  0 ≤ I < a - 1 → 0 ≤ J < b - 1 → 0 ≤ K < c - 1 →
  g ∈ raw_faces cube3 k →
  site a b c k
       (Simplex ((λ w, (I * (b * c) + J * c + K * 1) + phi3 (b * c) c 1 w)
                 <$> g)).
Proof.
  intros Hk HI HJ HK Hg.
  pose proof (shift_check k (bool_decide (I = 0)) (bool_decide (J = 0))
                          (bool_decide (K = 0)) Hk) as Hall.
  rewrite list.Forall_forall in Hall. specialize (Hall g Hg).
  unfold shift_ok in Hall.
  apply list.Exists_exists in Hall as (d0 & Hd0%elem_of_bits & Hall).
  apply list.Exists_exists in Hall as (d1 & Hd1%elem_of_bits & Hall).
  apply list.Exists_exists in Hall as (d2 & Hd2%elem_of_bits & Hall).
  apply list.Exists_exists in Hall as (e0 & He0%elem_of_bits & Hall).
  apply list.Exists_exists in Hall as (e1 & He1%elem_of_bits & Hall).
  apply list.Exists_exists in Hall as (e2 & He2%elem_of_bits & Hall).
  destruct Hall as (Hne & HzI & HzJ & HzK & Hfree & Hmem & Hlast).
  exists e0, e1, e2. do 4 (split; [done|]).
  exists (I - d0), (J - d1), (K - d2),
         ((I - d0) * (b * c) + (J - d1) * c + (K - d2)),
         (Z.add (4 * d0 + 2 * d1 + d2) <$> g).
  split; [by apply axis_ok_pos|]. split; [by apply axis_ok_pos|].
  split; [by apply axis_ok_pos|]. do 3 (split; [done|]).
  f_equal. rewrite <-list_fmap_compose. apply Forall_fmap_ext.
  eapply Forall_impl; [exact Hfree|]. intros w Hw. simpl.
  rewrite phi3_add, phi3_bits by done. lia.
Qed.

(** ** The vertices of the grid *)

Lemma elem_of_faces_of_1 maximal f :
  f ∈ faces_of maximal 1 ↔ ∃ m x, m ∈ maximal ∧ x ∈ m ∧ f = Vertex x.
Proof.
  rewrite elem_of_faces_of. split.
  - intros (m & v & Hm & Hv & Hlen & ->).
    destruct v as [|x [|y v]]; try done. exists m, x.
    split; [done|]. split; [|done].
    rewrite <-(merge_sort_Permutation Z.le m).
    eapply elem_of_sublist; [|exact Hv]. by left.
  - intros (m & x & Hm & Hx & ->). exists m, [x].
    split; [done|]. split; [|done].
    apply singleton_sublist_l. by rewrite merge_sort_Permutation.
Qed.

(** The corners of a voxel are the numbers from 0 to 7. *)
Lemma corners3 w : 0 ≤ w ≤ 7 ↔ ∃ m, m ∈ cube3 ∧ w ∈ m.
Proof.
  split.
  - intros Hw.
    assert (Forall (λ w, Exists (λ m, w ∈ m) cube3) (seqZ 0 8)) as Hall
      by by_compute.
    rewrite list.Forall_forall in Hall.
    apply list.Exists_exists, Hall, elem_of_seqZ. lia.
  - intros (m & Hm & Hw).
    assert (Forall (Forall (λ w, 0 ≤ w ≤ 7)) cube3) as Hall by by_compute.
    rewrite list.Forall_forall in Hall. specialize (Hall m Hm).
    rewrite list.Forall_forall in Hall. by apply Hall.
Qed.

(** The indices of the grid are the corners of its voxels. *)
Lemma voxel_vertices a b c f :
  2 ≤ a → 2 ≤ b → 2 ≤ c →
  f ∈ Vertex <$> range (a * b * c) ↔
    ∃ i j k,
      0 ≤ i < a - 1 ∧ 0 ≤ j < b - 1 ∧ 0 ≤ k < c - 1 ∧
      f ∈ faces_of
            (rename (λ w, (i * (b * c) + j * c + k * 1) + phi3 (b * c) c 1 w)
                    cube3) 1.
Proof.
  intros Ha Hb Hc. rewrite list_elem_of_fmap.
  setoid_rewrite elem_of_range. setoid_rewrite elem_of_faces_of_1. split.
  - intros (v & -> & Hv).
    assert (0 < b * c) as Hbc by nia.
    pose proof (Z.div_mod v (b * c) ltac:(lia)) as Hv1.
    pose proof (Z.mod_pos_bound v (b * c) Hbc) as Hr.
    pose proof (Z.div_mod (v `mod` (b * c)) c ltac:(lia)) as Hv2.
    pose proof (Z.mod_pos_bound (v `mod` (b * c)) c ltac:(lia)) as HK.
    set (I := v `div` (b * c)) in *. set (r := v `mod` (b * c)) in *.
    set (J := r `div` c) in *. set (K := r `mod` c) in *.
    assert (0 ≤ I < a) as HI by (split; nia).
    assert (0 ≤ J < b) as HJ by (split; nia).
    set (i := Z.min I (a - 2)). set (j := Z.min J (b - 2)).
    set (k := Z.min K (c - 2)).
    exists i, j, k. split_and!; try lia.
    destruct (proj1 (corners3 (4 * (I - i) + 2 * (J - j) + (K - k))))
      as (m & Hm & Hw); [lia|].
    eexists _, _. split; [by apply list_elem_of_fmap_2|].
    split; [by apply list_elem_of_fmap_2|]. f_equal.
    rewrite phi3_bits by lia. lia.
  - intros (i & j & k & Hi & Hj & Hk & m & x & Hm & Hx & ->).
    apply list_elem_of_fmap in Hm as (m0 & -> & Hm0).
    apply list_elem_of_fmap in Hx as (w & -> & Hw).
    assert (0 ≤ w ≤ 7) as Hw7 by (apply corners3; eauto).
    destruct (phi3_digits (b * c) c 1 w) as (q & b1 & b0 & -> & H1 & H0 & ->).
    eexists. split; [done|].
    assert (0 ≤ i + q ≤ a - 1) as HI by lia.
    assert (0 ≤ j + b1 ≤ b - 1) as HJ by lia.
    assert (0 ≤ k + b0 ≤ c - 1) as HK by lia.
    assert ((i + q) * (b * c) ≤ (a - 1) * (b * c)) by nia.
    assert (0 ≤ (i + q) * (b * c)) by nia.
    assert ((j + b1) * c ≤ (b - 1) * c) by nia.
    assert (0 ≤ (j + b1) * c) by nia.
    nia.
Qed.

Lemma Ok_inj {A} (x y : A) : Ok x = Ok y → x = y.
Proof. congruence. Qed.

Lemma stream3_above a b c dim : 4 < dim → stream3 a b c dim = [].
Proof.
  intros Hd. unfold stream3.
  by rewrite part3_out, !part2_out, !part1_out, vertices_out by lia.
Qed.

(** X14: on a grid with two or more points along each axis,
    [decompose3d] yields for a dimension the faces of that dimension of
    the cubes at the voxels of the grid, as [cube_with_strides_center]
    triangulates them: every such face, each one once, and nothing
    else. *)
Theorem decompose3d_faces_of_the_grid a b c dim :
  2 ≤ a → 2 ≤ b → 2 ≤ c → 1 ≤ dim →
  ∃ l, decompose3d (a, b, c) dim = Ok l ∧ NoDup l ∧
       ∀ f, f ∈ l ↔
            ∃ i j k cube,
              0 ≤ i < a - 1 ∧ 0 ≤ j < b - 1 ∧ 0 ≤ k < c - 1 ∧
              cube_with_strides_center [i; j; k] [b * c; c; 1] = Ok cube ∧
              f ∈ dim_set cube dim.
Proof.
  intros Ha Hb Hc Hdim. exists (stream3 a b c dim).
  split; [apply decompose3d_ok; lia|].
  split; [apply stream3_facts; lia|]. intros f.
  assert (∀ i j k, increasing
            (λ w, (i * (b * c) + j * c + k * 1) + phi3 (b * c) c 1 w)) as Hinc.
  { intros i j k x y Hxy.
    apply (phi3_increasing (b * c) c 1) in Hxy; [lia|]. unfold valid3. nia. }
  destruct (decide (dim = 1)) as [->|Hd1].
  { rewrite stream3_vertices, voxel_vertices by done. split.
    - intros (i & j & k & Hi & Hj & Hk & Hf). exists i, j, k. eexists.
      split_and!; [lia..|apply cube3_levels|].
      by rewrite dim_set_levels.
    - intros (i & j & k & cube & Hi & Hj & Hk & Hcube & Hf).
      rewrite cube3_levels in Hcube. apply Ok_inj in Hcube. subst cube.
      rewrite dim_set_levels in Hf. by exists i, j, k. }
  destruct (decide (dim ≤ 4)) as [Hd4|Hd4].
  - rewrite (stream3_canon a b c dim) by lia.
    rewrite canon_stream3_sites by lia. split.
    + intros (e0 & e1 & e2 & H0 & H1 & H2 & Hne & Hsite).
      destruct Hsite
        as (I & J & K & index & g & HI & HJ & HK & -> & Hg & Hlast & ->).
      exists I, J, K. eexists.
      unfold pos in HI, HJ, HK. split_and!; [lia..|apply cube3_levels|].
      rewrite dim_set_levels, decide_True by lia.
      apply elem_of_faces_rename; [done|lia|]. exists g. split; [done|].
      apply list_fmap_ext. intros _ w _. lia.
    + intros (i & j & k & cube & Hi & Hj & Hk & Hcube & Hf).
      rewrite cube3_levels in Hcube. apply Ok_inj in Hcube. subst cube.
      rewrite dim_set_levels, decide_True in Hf by lia.
      destruct (faces_rename_simplex _ _ (Z.to_nat dim) _ (Hinc i j k)
                  ltac:(lia) Hf) as [vs ->].
      apply elem_of_faces_rename in Hf as (g & Hg & ->); [|done|lia].
      apply voxel_face_site; [lia|done..].
  - rewrite stream3_above by lia. split; [by intros ?%elem_of_nil|].
    intros (i & j & k & cube & Hi & Hj & Hk & Hcube & Hf).
    rewrite cube3_levels in Hcube. apply Ok_inj in Hcube. subst cube.
    rewrite dim_set_levels, decide_False in Hf by lia.
    by apply not_elem_of_empty in Hf.
Qed.

Lemma decompose3d_faces_of_the_grid_witness :
  ∃ l, decompose3d (3, 2, 4) 3 = Ok l ∧ NoDup l ∧
       ∀ f, f ∈ l ↔
            ∃ i j k cube,
              0 ≤ i < 3 - 1 ∧ 0 ≤ j < 2 - 1 ∧ 0 ≤ k < 4 - 1 ∧
              cube_with_strides_center [i; j; k] [2 * 4; 4; 1] = Ok cube ∧
              f ∈ dim_set cube 3.
Proof. apply (decompose3d_faces_of_the_grid 3 2 4 3); lia. Defined.

(** ** The simplices of the triangulated rectangle *)

(** The same for the pixels of [decompose2d]: a template [T] of a
    stratum, numbered by [ι] as the corners of a pixel, is the set of
    the faces of the pixel whose last corner is [m]. *)
Definition embeds2 (ι : Z → Z) (m top : Z) (T : list (list Z)) (k : nat)
  : Prop :=
  Forall (λ h, Forall (λ w, 0 ≤ w ≤ top) h ∧
               (ι <$> h) ∈ raw_faces cube2 k ∧ last (ι <$> h) = Some m) T ∧
  Forall (λ g, last g = Some m → Exists (λ h, g = ι <$> h) T)
         (raw_faces cube2 k).

#[global] Instance embeds2_dec ι m top T k : Decision (embeds2 ι m top T k).
Proof. unfold embeds2. apply _. Defined.

Lemma embeds2_11 k :
  (2 ≤ k ≤ 3)%nat → embeds2 id 3 3 (tops cube2 3 k) k.
Proof. intros Hk. each_dim k Hk; by_compute. Qed.

Lemma embeds2_10 k :
  (2 ≤ k ≤ 3)%nat → embeds2 (Z.mul 2) 2 1 (tops cube1 1 k) k.
Proof. intros Hk. each_dim k Hk; by_compute. Qed.

Lemma embeds2_01 k :
  (2 ≤ k ≤ 3)%nat → embeds2 id 1 1 (tops cube1 1 k) k.
Proof. intros Hk. each_dim k Hk; by_compute. Qed.

Lemma placed_embedded2 ψ ι m top T t0 t1 grid k f :
  (∀ w, 0 ≤ w ≤ top → phi2 t0 t1 (ι w) = ψ w) →
  embeds2 ι m top T k →
  f ∈ placed (Simplex <$> rename ψ T) grid ↔
    ∃ index g, index ∈ grid ∧ g ∈ raw_faces cube2 k ∧ last g = Some m ∧
               f = Simplex ((λ w, index + phi2 t0 t1 w) <$> g).
Proof.
  intros Hψ [HT Hg]. rewrite elem_of_placed.
  rewrite list.Forall_forall in HT. rewrite list.Forall_forall in Hg.
  assert (∀ index h, h ∈ T →
            (λ w, index + ψ w) <$> h =
            (λ w, index + phi2 t0 t1 w) <$> (ι <$> h)) as Heq.
  { intros index h Hh. rewrite <-list_fmap_compose.
    apply Forall_fmap_ext. destruct (HT h Hh) as (Hw & _).
    eapply Forall_impl; [exact Hw|]. intros w Hw'. simpl.
    by rewrite Hψ. }
  split.
  - intros (index & h & Hindex & Hh & ->).
    destruct (HT h Hh) as (_ & Hmem & Hlast).
    exists index, (ι <$> h). by rewrite Heq.
  - intros (index & g & Hindex & Hmem & Hlast & ->).
    destruct (proj1 (list.Exists_exists _ _) (Hg g Hmem Hlast))
      as (h & Hh & ->).
    exists index, h. by rewrite Heq.
Qed.

Lemma phi2_10 t0 t1 w : 0 ≤ w ≤ 1 → phi2 t0 t1 (2 * w) = phi1 t0 w.
Proof. intros Hw. each_corner w Hw. Qed.

Lemma phi2_01 t0 t1 w : 0 ≤ w ≤ 1 → phi2 t0 t1 (id w) = phi1 t1 w.
Proof. intros Hw. each_corner w Hw. Qed.

Definition site2_at (a b : Z) (k : nat) (e0 e1 : Z) (f : face) : Prop :=
  ∃ I J index g,
    pos a e0 I ∧ pos b e1 J ∧ index = I * b + J ∧
    g ∈ raw_faces cube2 k ∧ last g = Some (2 * e0 + e1) ∧
    f = Simplex ((λ w, index + phi2 b 1 w) <$> g).

Definition site2 (a b : Z) (k : nat) (f : face) : Prop :=
  ∃ e0 e1, 0 ≤ e0 ≤ 1 ∧ 0 ≤ e1 ≤ 1 ∧ 0 < e0 + e1 ∧ site2_at a b k e0 e1 f.

Section sites2.
Variables (a b dim : Z).
Hypothesis Hdim : 2 ≤ dim ≤ 3.

Lemma site2_11 f :
  f ∈ canon2 dim b 1 a b ↔ site2_at a b (Z.to_nat dim) 1 1 f.
Proof.
  rewrite canon2_placed by lia.
  rewrite (placed_embedded2 _ id 3 3 _ b 1); [|done|apply embeds2_11; lia].
  setoid_rewrite elem_of_grid2. unfold site2_at, pos. split.
  - intros (index & g & (i & j & Hi & Hj & ->) & Hg & Hlast & ->).
    exists i, j, (i * b + j * 1), g.
    split_and!; [solve_pos..|lia|done|done|done].
  - intros (I & J & index & g & HI & HJ & -> & Hg & Hlast & ->).
    eexists _, g. split; [|done]. exists I, J. lia.
Qed.

Lemma site2_10 f :
  f ∈ canon1 dim b a ↔ site2_at a b (Z.to_nat dim) 1 0 f.
Proof.
  rewrite canon1_placed by lia.
  rewrite (placed_embedded2 _ (Z.mul 2) 2 1 _ b 1);
    [|apply phi2_10|apply embeds2_10; lia].
  setoid_rewrite elem_of_grid1. unfold site2_at, pos. split.
  - intros (index & g & (i & Hi & ->) & Hg & Hlast & ->).
    exists i, 0, (i * b), g. split_and!; [solve_pos..|lia|done|done|done].
  - intros (I & J & index & g & HI & HJ & -> & Hg & Hlast & ->).
    eexists _, g. split; [|done]. exists I. lia.
Qed.

Lemma site2_01 f :
  f ∈ canon1 dim 1 b ↔ site2_at a b (Z.to_nat dim) 0 1 f.
Proof.
  rewrite canon1_placed by lia.
  rewrite (placed_embedded2 _ id 1 1 _ b 1);
    [|apply phi2_01|apply embeds2_01; lia].
  setoid_rewrite elem_of_grid1. unfold site2_at, pos. split.
  - intros (index & g & (i & Hi & ->) & Hg & Hlast & ->).
    exists 0, i, (i * 1), g. split_and!; [solve_pos..|lia|done|done|done].
  - intros (I & J & index & g & HI & HJ & -> & Hg & Hlast & ->).
    eexists _, g. split; [|done]. exists J. lia.
Qed.

Lemma canon_stream2_sites f :
  f ∈ canon_stream2 a b dim ↔ site2 a b (Z.to_nat dim) f.
Proof.
  unfold canon_stream2. rewrite !elem_of_app, vertices_out by lia.
  rewrite site2_11, site2_10, site2_01, elem_of_nil.
  unfold site2. split.
  - intros [H|[[H|H]|[]]]; [exists 1, 1|exists 1, 0|exists 0, 1];
      (split_and!; [lia..|done]).
  - intros (e0 & e1 & H0 & H1 & Hne & H).
    assert (e0 = 0 ∨ e0 = 1) as [-> | ->] by lia;
      assert (e1 = 0 ∨ e1 = 1) as [-> | ->] by lia;
      try lia; tauto.
Qed.
End sites2.

Definition shift_ok2 (k : nat) (zI zJ : bool) (g : list Z) : Prop :=
  Exists (λ d0, Exists (λ d1, Exists (λ e0, Exists (λ e1,
    0 < e0 + e1 ∧ axis_ok zI d0 e0 ∧ axis_ok zJ d1 e1 ∧
    Forall (free2 (2 * d0 + d1)) g ∧
    (Z.add (2 * d0 + d1) <$> g) ∈ raw_faces cube2 k ∧
    last (Z.add (2 * d0 + d1) <$> g) = Some (2 * e0 + e1))
  [0; 1]) [0; 1]) [0; 1]) [0; 1].

#[global] Instance shift_ok2_dec k zI zJ g : Decision (shift_ok2 k zI zJ g).
Proof. unfold shift_ok2, axis_ok. apply _. Defined.

Lemma shift_check2 k zI zJ :
  (2 ≤ k ≤ 3)%nat → Forall (shift_ok2 k zI zJ) (raw_faces cube2 k).
Proof. intros Hk. each_dim k Hk; destruct zI, zJ; by_compute. Qed.

Lemma phi2_bits t0 t1 d0 d1 :
  0 ≤ d0 ≤ 1 → 0 ≤ d1 ≤ 1 → phi2 t0 t1 (2 * d0 + d1) = d0 * t0 + d1 * t1.
Proof.
  intros H0 H1.
  assert (d0 = 0 ∨ d0 = 1) as [-> | ->] by lia;
    assert (d1 = 0 ∨ d1 = 1) as [-> | ->] by lia;
    unfold phi2; eval_divmod; lia.
Qed.

(** Every face of a pixel of the grid is at a site of a stratum. *)
Lemma pixel_face_site a b k I J g :
  (2 ≤ k ≤ 3)%nat → 0 ≤ I < a - 1 → 0 ≤ J < b - 1 →
  g ∈ raw_faces cube2 k →
  site2 a b k (Simplex ((λ w, (I * b + J * 1) + phi2 b 1 w) <$> g)).
Proof.
  intros Hk HI HJ Hg.
  pose proof (shift_check2 k (bool_decide (I = 0)) (bool_decide (J = 0)) Hk)
    as Hall.
  rewrite list.Forall_forall in Hall. specialize (Hall g Hg).
  unfold shift_ok2 in Hall.
  apply list.Exists_exists in Hall as (d0 & Hd0%elem_of_bits & Hall).
  apply list.Exists_exists in Hall as (d1 & Hd1%elem_of_bits & Hall).
  apply list.Exists_exists in Hall as (e0 & He0%elem_of_bits & Hall).
  apply list.Exists_exists in Hall as (e1 & He1%elem_of_bits & Hall).
  destruct Hall as (Hne & HzI & HzJ & Hfree & Hmem & Hlast).
  exists e0, e1. do 3 (split; [done|]).
  exists (I - d0), (J - d1), ((I - d0) * b + (J - d1)),
         (Z.add (2 * d0 + d1) <$> g).
  split; [by apply axis_ok_pos|]. split; [by apply axis_ok_pos|].
  do 3 (split; [done|]).
  f_equal. rewrite <-list_fmap_compose. apply Forall_fmap_ext.
  eapply Forall_impl; [exact Hfree|]. intros w Hw. simpl.
  rewrite phi2_add, phi2_bits by done. lia.
Qed.

(** The corners of a pixel are the numbers from 0 to 3. *)
Lemma corners2 w : 0 ≤ w ≤ 3 ↔ ∃ m, m ∈ cube2 ∧ w ∈ m.
Proof.
  split.
  - intros Hw.
    assert (Forall (λ w, Exists (λ m, w ∈ m) cube2) (seqZ 0 4)) as Hall
      by by_compute.
    rewrite list.Forall_forall in Hall.
    apply list.Exists_exists, Hall, elem_of_seqZ. lia.
  - intros (m & Hm & Hw).
    assert (Forall (Forall (λ w, 0 ≤ w ≤ 3)) cube2) as Hall by by_compute.
    rewrite list.Forall_forall in Hall. specialize (Hall m Hm).
    rewrite list.Forall_forall in Hall. by apply Hall.
Qed.

(** The indices of the grid are the corners of its pixels. *)
Lemma pixel_vertices a b f :
  2 ≤ a → 2 ≤ b →
  f ∈ Vertex <$> range (a * b) ↔
    ∃ i j,
      0 ≤ i < a - 1 ∧ 0 ≤ j < b - 1 ∧
      f ∈ faces_of (rename (λ w, (i * b + j * 1) + phi2 b 1 w) cube2) 1.
Proof.
  intros Ha Hb. rewrite list_elem_of_fmap.
  setoid_rewrite elem_of_range. setoid_rewrite elem_of_faces_of_1. split.
  - intros (v & -> & Hv).
    pose proof (Z.div_mod v b ltac:(lia)) as Hv1.
    pose proof (Z.mod_pos_bound v b ltac:(lia)) as HJ.
    set (I := v `div` b) in *. set (J := v `mod` b) in *.
    assert (0 ≤ I < a) as HI by (split; nia).
    set (i := Z.min I (a - 2)). set (j := Z.min J (b - 2)).
    exists i, j. split_and!; try lia.
    destruct (proj1 (corners2 (2 * (I - i) + (J - j)))) as (m & Hm & Hw);
      [lia|].
    eexists _, _. split; [by apply list_elem_of_fmap_2|].
    split; [by apply list_elem_of_fmap_2|]. f_equal.
    rewrite phi2_bits by lia. lia.
  - intros (i & j & Hi & Hj & m & x & Hm & Hx & ->).
    apply list_elem_of_fmap in Hm as (m0 & -> & Hm0).
    apply list_elem_of_fmap in Hx as (w & -> & Hw).
    assert (0 ≤ w ≤ 3) as Hw3 by (apply corners2; eauto).
    destruct (phi2_digits b 1 w) as (q & b0 & -> & H0 & ->).
    eexists. split; [done|].
    assert (0 ≤ i + q ≤ a - 1) as HI by lia.
    assert ((i + q) * b ≤ (a - 1) * b) by nia.
    assert (0 ≤ (i + q) * b) by nia.
    nia.
Qed.

Lemma stream2_above a b dim : 3 < dim → stream2 a b dim = [].
Proof.
  intros Hd. unfold stream2.
  by rewrite part2_out, !part1_out, vertices_out by lia.
Qed.

(** X15: on a grid with two or more points along each axis,
    [decompose2d] yields for a dimension the faces of that dimension of
    the squares at the pixels of the grid, as
    [cube_with_strides_center] triangulates them: every such face, each
    one once, and nothing else. *)
Theorem decompose2d_faces_of_the_grid a b dim :
  2 ≤ a → 2 ≤ b → 1 ≤ dim →
  ∃ l, decompose2d (a, b) dim = Ok l ∧ NoDup l ∧
       ∀ f, f ∈ l ↔
            ∃ i j square,
              0 ≤ i < a - 1 ∧ 0 ≤ j < b - 1 ∧
              cube_with_strides_center [i; j] [b; 1] = Ok square ∧
              f ∈ dim_set square dim.
Proof.
  intros Ha Hb Hdim. exists (stream2 a b dim).
  split; [apply decompose2d_ok; lia|].
  split; [apply stream2_facts; lia|]. intros f.
  assert (∀ i j, increasing (λ w, (i * b + j * 1) + phi2 b 1 w)) as Hinc.
  { intros i j x y Hxy.
    apply (phi2_increasing b 1) in Hxy; [lia|]. unfold valid2. lia. }
  destruct (decide (dim = 1)) as [->|Hd1].
  { rewrite stream2_vertices, pixel_vertices by done. split.
    - intros (i & j & Hi & Hj & Hf). exists i, j. eexists.
      split_and!; [lia..|apply cube2_levels|].
      by rewrite dim_set_levels.
    - intros (i & j & square & Hi & Hj & Hsquare & Hf).
      rewrite cube2_levels in Hsquare. apply Ok_inj in Hsquare.
      subst square. rewrite dim_set_levels in Hf. by exists i, j. }
  destruct (decide (dim ≤ 3)) as [Hd3|Hd3].
  - rewrite (stream2_canon a b dim) by lia.
    rewrite canon_stream2_sites by lia. split.
    + intros (e0 & e1 & H0 & H1 & Hne & Hsite).
      destruct Hsite as (I & J & index & g & HI & HJ & -> & Hg & Hlast & ->).
      exists I, J. eexists.
      unfold pos in HI, HJ. split_and!; [lia..|apply cube2_levels|].
      rewrite dim_set_levels, decide_True by lia.
      apply elem_of_faces_rename; [done|lia|]. exists g. split; [done|].
      apply list_fmap_ext. intros _ w _. lia.
    + intros (i & j & square & Hi & Hj & Hsquare & Hf).
      rewrite cube2_levels in Hsquare. apply Ok_inj in Hsquare.
      subst square.
      rewrite dim_set_levels, decide_True in Hf by lia.
      destruct (faces_rename_simplex _ _ (Z.to_nat dim) _ (Hinc i j)
                  ltac:(lia) Hf) as [vs ->].
      apply elem_of_faces_rename in Hf as (g & Hg & ->); [|done|lia].
      apply pixel_face_site; [lia|done..].
  - rewrite stream2_above by lia. split; [by intros ?%elem_of_nil|].
    intros (i & j & square & Hi & Hj & Hsquare & Hf).
    rewrite cube2_levels in Hsquare. apply Ok_inj in Hsquare. subst square.
    rewrite dim_set_levels, decide_False in Hf by lia.
    by apply not_elem_of_empty in Hf.
Qed.

Lemma decompose2d_faces_of_the_grid_witness :
  ∃ l, decompose2d (3, 4) 2 = Ok l ∧ NoDup l ∧
       ∀ f, f ∈ l ↔
            ∃ i j square,
              0 ≤ i < 3 - 1 ∧ 0 ≤ j < 4 - 1 ∧
              cube_with_strides_center [i; j] [4; 1] = Ok square ∧
              f ∈ dim_set square 2.
Proof. apply (decompose2d_faces_of_the_grid 3 4 2); lia. Defined.

(** * [complex] and the order of its input; [complex] and [join_complexes] *)

Lemma merge_sort_Permutation_eq (l l' : list Z) :
  l ≡ₚ l' → merge_sort Z.le l = merge_sort Z.le l'.
Proof.
  intros HP. apply (Sorted_unique Z.le).
  - apply (Sorted_merge_sort Z.le).
  - apply (Sorted_merge_sort Z.le).
  - by rewrite !merge_sort_Permutation.
Qed.

Lemma Forall2_elem_of {A B} (R : A → B → Prop) l k x :
  Forall2 R l k → x ∈ l → ∃ y, y ∈ k ∧ R x y.
Proof.
  induction 1 as [|x' y' l k HR _ IH]; [by intros ?%elem_of_nil|].
  intros [->|Hx]%elem_of_cons.
  - exists y'. split; [left|done].
  - destruct (IH Hx) as (y & Hy & HRy). exists y. split; [by right|done].
Qed.

Lemma faces_of_subseteq m1 m2 k :
  (∀ m, m ∈ m1 → ∃ m', m' ∈ m2 ∧ m ≡ₚ m') →
  faces_of m1 k ⊆ faces_of m2 k.
Proof.
  intros Hm f. rewrite !elem_of_faces_of.
  intros (m & v & Hin & Hv & Hlen & ->).
  destruct (Hm m Hin) as (m' & Hin' & HP). exists m', v.
  by rewrite <-(merge_sort_Permutation_eq m m').
Qed.

Lemma length_fmap_Forall2 (m1 m2 : list (list Z)) :
  Forall2 (≡ₚ) m1 m2 → length <$> m1 = length <$> m2.
Proof.
  induction 1 as [|x y l k HP _ IH]; [done|].
  rewrite !fmap_cons. f_equal; [by apply Permutation_length|done].
Qed.

(** X16: the complex that [complex] returns depends neither on the
    order of the vertices within the maximal simplices nor on the order
    of the maximal simplices. *)
Theorem complex_order_irrelevant m1 m2 m3 :
  Forall2 (≡ₚ) m1 m2 → m2 ≡ₚ m3 → complex m1 = complex m3.
Proof.
  intros H12 H23. destruct m1 as [|x m1].
  - apply Forall2_nil_inv_l in H12 as ->.
    by apply Permutation_nil_l in H23 as ->.
  - assert (m3 ≠ []) as Hne3.
    { intros ->. apply Permutation_nil_r in H23 as ->.
      by apply Forall2_nil_inv_r in H12. }
    rewrite !complex_levels by done. f_equal.
    rewrite (length_fmap_Forall2 _ _ H12).
    rewrite (max_list_Permutation (length <$> m2) (length <$> m3))
      by by rewrite H23.
    apply levels_ext. intros k _. apply set_eq. intros f. split.
    + apply faces_of_subseteq. intros m Hm.
      destruct (Forall2_elem_of _ _ _ _ H12 Hm) as (m' & Hm' & HP).
      exists m'. split; [by rewrite <-H23|done].
    + apply faces_of_subseteq. intros m Hm. rewrite <-H23 in Hm.
      apply Forall2_flip in H12.
      destruct (Forall2_elem_of _ _ _ _ H12 Hm) as (m' & Hm' & HP).
      exists m'. split; [done|by symmetry].
Qed.

Lemma complex_order_irrelevant_witness :
  complex [[0; 3; 2; 7]; [0; 6; 2; 7]] = complex [[7; 6; 2; 0]; [2; 3; 7; 0]].
Proof.
  apply (complex_order_irrelevant _ [[2; 3; 7; 0]; [7; 6; 2; 0]]).
  - repeat constructor; by_compute.
  - by_compute.
Defined.

Lemma faces_of_app m1 m2 k :
  faces_of (m1 ++ m2) k = faces_of m1 k ∪ faces_of m2 k.
Proof.
  unfold faces_of, faces_list.
  by rewrite bind_app, fmap_app, list_to_set_app_L.
Qed.

Lemma faces_of_above maximal k :
  (max_list (length <$> maximal) < k)%nat → faces_of maximal k = ∅.
Proof.
  intros Hk. apply set_eq. intros f. rewrite elem_of_faces_of.
  split; [|by intros ?%not_elem_of_empty].
  intros (m & v & Hm & Hv & Hlen & _). exfalso.
  apply sublist_length in Hv. rewrite merge_sort_Permutation in Hv.
  assert (length m ≤ max_list (length <$> maximal))%nat; [|lia].
  apply max_list_elem_of_le, list_elem_of_fmap. eauto.
Qed.

(** X17: the complex of two lists of maximal simplices put together is
    the join of their complexes. *)
Theorem complex_app m1 m2 :
  m1 ≠ [] → m2 ≠ [] →
  ∃ c1 c2, complex m1 = Ok c1 ∧ complex m2 = Ok c2 ∧
           join_complexes [c1; c2] = complex (m1 ++ m2).
Proof.
  intros H1 H2. eexists _, _.
  split; [by apply complex_levels|]. split; [by apply complex_levels|].
  rewrite join_complexes_levels, complex_levels by (by destruct m1).
  f_equal. simpl. rewrite !size_levels, fmap_app, max_list_app, Nat.max_0_r.
  apply levels_ext. intros k Hk. rewrite faces_of_app, union_empty_r_L.
  f_equal.
  - destruct (decide (k ≤ max_list (length <$> m1))%nat).
    + by rewrite level_of_levels by lia.
    + rewrite faces_of_above by lia. unfold level_of.
      by rewrite lookup_levels, decide_False by lia.
  - destruct (decide (k ≤ max_list (length <$> m2))%nat).
    + by rewrite level_of_levels by lia.
    + rewrite faces_of_above by lia. unfold level_of.
      by rewrite lookup_levels, decide_False by lia.
Qed.

Lemma complex_app_witness :
  ∃ c1 c2, complex [[0; 3; 2; 7]] = Ok c1 ∧ complex [[5; 9]] = Ok c2 ∧
           join_complexes [c1; c2] = complex ([[0; 3; 2; 7]] ++ [[5; 9]]).
Proof. by apply complex_app. Defined.

(** * [check_cast_bin8] *)

(** [check_cast_bin8(arr)] for an array of integers, given by the list
    of its elements: the test and the cast work element by element and
    keep the shape.  [arr != 0] is the array of the truth values, which
    count as 1 and 0 in the comparison with [arr]; the cast to [uint8]
    reduces modulo 256. *)
Definition check_cast_bin8 (arr : list Z) : result (list Z) :=
  if bool_decide (Exists (λ e, e ≠ (if bool_decide (e ≠ 0) then 1 else 0)) arr)
  then Raise ValueError
  else Ok ((λ e, e `mod` 256) <$> arr).

(** X18: [check_cast_bin8] raises, a [ValueError], exactly when some
    element is neither 0 nor 1 (255 and 256 are refused, though the
    cast would make 0 of 256); otherwise it returns the elements
    unchanged. *)
Theorem check_cast_bin8_binary arr :
  (Forall (λ e, e = 0 ∨ e = 1) arr ∧ check_cast_bin8 arr = Ok arr) ∨
  (Exists (λ e, e ≠ 0 ∧ e ≠ 1) arr ∧
   check_cast_bin8 arr = Raise ValueError).
Proof.
  unfold check_cast_bin8. case_bool_decide as Hex.
  - right. split; [|done].
    eapply Exists_impl; [exact Hex|]. intros e He. simpl in He.
    case_bool_decide; lia.
  - left. apply not_Exists_Forall in Hex; [|apply _].
    assert (Forall (λ e, e = 0 ∨ e = 1) arr) as Hall.
    { eapply Forall_impl; [exact Hex|]. intros e He. simpl in He.
      destruct (decide (e = 0)) as [->|Hne]; [by left|right].
      apply dec_stable in He. by rewrite bool_decide_true in He. }
    split; [done|]. f_equal.
    rewrite <-(list_fmap_id arr) at 2. apply Forall_fmap_ext.
    eapply Forall_impl; [exact Hall|]. by intros e [-> | ->].
Qed.

(** * A grid without points; the size of the complex of a cube *)

(** With the strides 0 of an array without elements, all the corners of
    a pixel are the index 0: a pixel has no face that its earlier
    neighbours do not have, and a segment keeps the edge from 0 to 0. *)
Lemma part3_nil dim s0 s1 s2 a b c :
  a ≤ 1 ∨ b ≤ 1 ∨ c ≤ 1 → part3 dim s0 s1 s2 a b c = [].
Proof.
  intros H. unfold part3. case_decide; [|done]. by rewrite grid3_nil by done.
Qed.

Lemma part2_zero dim n0 n1 : part2 dim 0 0 n0 n1 = [].
Proof.
  unfold part2. case_decide as Hdim; [|done].
  assert (dim = 2 ∨ dim = 3) as [-> | ->] by lia.
  - assert (elements (template_2 0 0 (Z.to_nat 2)) = []) as ->
      by by vm_compute.
    apply placed_empty.
  - assert (elements (template_2 0 0 (Z.to_nat 3)) = []) as ->
      by by vm_compute.
    apply placed_empty.
Qed.

Lemma grid1_zero n : grid1 n 0 = replicate (Z.to_nat (n - 1)) 0.
Proof.
  symmetry. apply replicate_as_Forall. split; [apply length_grid1|].
  apply list.Forall_forall. intros x (i & _ & ->)%elem_of_grid1. lia.
Qed.

Lemma placed_replicate f m :
  placed [f] (replicate m 0) = replicate m (face_map (Z.add 0) f).
Proof.
  induction m as [|m IH]; [done|].
  rewrite !replicate_S. unfold placed in *. by rewrite bind_cons, IH.
Qed.

Lemma part1_zero dim n :
  part1 dim 0 n =
    if decide (dim = 2) then replicate (Z.to_nat (n - 1)) (Simplex [0; 0])
    else [].
Proof.
  unfold part1. case_decide; [|done].
  assert (elements (template_1 0 2) = [Simplex [0; 0]]) as ->
    by by vm_compute.
  by rewrite grid1_zero, placed_replicate.
Qed.

Lemma vertices_zero dim : vertices dim 0 = [].
Proof. unfold vertices. by case_decide. Qed.

(** X19: on a shape with an axis of length 0 the grid has no point and
    the decomposers yield no vertex, no triangle and no tetrahedron;
    for the dimension 2 they still yield the edge from 0 to 0, once for
    each step along each axis. *)
Theorem decompose_empty_grid dim :
  (∀ a b c,
     0 ≤ a → 0 ≤ b → 0 ≤ c → a = 0 ∨ b = 0 ∨ c = 0 →
     decompose3d (a, b, c) dim =
       Ok (if decide (dim = 2)
           then replicate (Z.to_nat (a - 1) + Z.to_nat (b - 1) +
                           Z.to_nat (c - 1)) (Simplex [0; 0])
           else [])) ∧
  (∀ a b,
     0 ≤ a → 0 ≤ b → a = 0 ∨ b = 0 →
     decompose2d (a, b) dim =
       Ok (if decide (dim = 2)
           then replicate (Z.to_nat (a - 1) + Z.to_nat (b - 1))
                          (Simplex [0; 0])
           else [])).
Proof.
  split.
  - intros a b c Ha Hb Hc Hz. rewrite decompose3d_ok by done. f_equal.
    unfold stream3, c_strides3. rewrite decide_True by done.
    cbn [fst snd].
    rewrite part3_nil, !part2_zero, !part1_zero by lia.
    replace (a * b * c) with 0 by nia. rewrite vertices_zero.
    case_decide; [|done]. cbn [app].
    by rewrite app_nil_r, !replicate_add, <-!app_assoc.
  - intros a b Ha Hb Hz. rewrite decompose2d_ok by done. f_equal.
    unfold stream2, c_strides2. rewrite decide_True by done.
    cbn [fst snd]. rewrite part2_zero, !part1_zero.
    replace (a * b) with 0 by nia. rewrite vertices_zero.
    case_decide; [|done]. cbn [app].
    by rewrite app_nil_r, replicate_add.
Qed.

Lemma decompose_empty_grid_witness :
  decompose3d (0, 3, 3) 2 = Ok (replicate 4 (Simplex [0; 0])) ∧
  decompose3d (0, 3, 3) 3 = Ok [] ∧
  decompose2d (0, 4) 2 = Ok (replicate 3 (Simplex [0; 0])).
Proof.
  split_and!.
  - apply (proj1 (decompose_empty_grid 2) 0 3 3); lia.
  - apply (proj1 (decompose_empty_grid 3) 0 3 3); lia.
  - apply (proj2 (decompose_empty_grid 2) 0 4); lia.
Defined.

Lemma size_faces_of ψ cube k :
  increasing ψ →
  size (faces_of (rename ψ cube) k) = length (remove_dups (faces_list cube k)).
Proof.
  intros Hψ. unfold faces_of. rewrite faces_list_fmap by done.
  assert (list_to_set (C := gset face) (face_map ψ <$> faces_list cube k) =
          list_to_set (face_map ψ <$> remove_dups (faces_list cube k))) as ->.
  { apply set_eq. intros f. rewrite !elem_of_list_to_set, !list_elem_of_fmap.
    by setoid_rewrite elem_of_remove_dups. }
  rewrite size_list_to_set, length_fmap; [done|].
  apply NoDup_fmap_2; [|apply NoDup_remove_dups].
  by apply face_map_inj, increasing_inj.
Qed.

(** X20: for the strides of an array whose last two axes are longer
    than 1, the complex of a cube has 8 vertices, 19 edges, 18 triangles
    and 6 tetrahedra, and the complex of a square has 4 vertices, 5
    edges and 2 triangles, wherever the center is. *)
Theorem cube_face_counts :
  (∀ s0 s1 s2 c0 c1 c2,
     valid3 s0 s1 s2 →
     ∃ cube, cube_with_strides_center [c0; c1; c2] [s0; s1; s2] = Ok cube ∧
             size (dim_set cube 1) = 8%nat ∧ size (dim_set cube 2) = 19%nat ∧
             size (dim_set cube 3) = 18%nat ∧ size (dim_set cube 4) = 6%nat) ∧
  (∀ t0 t1 c0 c1,
     valid2 t0 t1 →
     ∃ square, cube_with_strides_center [c0; c1] [t0; t1] = Ok square ∧
               size (dim_set square 1) = 4%nat ∧
               size (dim_set square 2) = 5%nat ∧
               size (dim_set square 3) = 2%nat).
Proof.
  split.
  - intros s0 s1 s2 c0 c1 c2 Hs. eexists. split; [apply cube3_levels|].
    assert (increasing (λ w, c0 * s0 + c1 * s1 + c2 * s2 + phi3 s0 s1 s2 w))
      as Hinc.
    { intros x y Hxy. apply (phi3_increasing s0 s1 s2 Hs) in Hxy. lia. }
    rewrite !dim_set_levels, !decide_True by lia.
    rewrite !(size_faces_of _ _ _ Hinc). split_and!; by vm_compute.
  - intros t0 t1 c0 c1 Hs. eexists. split; [apply cube2_levels|].
    assert (increasing (λ w, c0 * t0 + c1 * t1 + phi2 t0 t1 w)) as Hinc.
    { intros x y Hxy. apply (phi2_increasing t0 t1 Hs) in Hxy. lia. }
    rewrite !dim_set_levels, !decide_True by lia.
    rewrite !(size_faces_of _ _ _ Hinc). split_and!; by vm_compute.
Qed.

Lemma cube_face_counts_witness :
  (∃ cube, cube_with_strides_center [0; -1; 0] [12; 4; 1] = Ok cube ∧
           size (dim_set cube 1) = 8%nat ∧ size (dim_set cube 2) = 19%nat ∧
           size (dim_set cube 3) = 18%nat ∧ size (dim_set cube 4) = 6%nat) ∧
  (∃ square, cube_with_strides_center [-1; 0] [4; 1] = Ok square ∧
             size (dim_set square 1) = 4%nat ∧
             size (dim_set square 2) = 5%nat ∧
             size (dim_set square 3) = 2%nat).
Proof.
  destruct cube_face_counts as [H3 H2]. split.
  - apply H3. unfold valid3. lia.
  - apply H2. unfold valid2. lia.
Defined.
